(** * A mock trading dashboard: the portfolio ledger, the bar aggregation and
      the simulated datafeed

    Shallow embedding of [script.js] (the application state, [openTradeModal],
    [handleTradeExecution], [aggregateData], the mock market data and the
    orders table) and of [data.js] (the datafeed), with the properties the
    specification states about them.

    Numbers.  A JavaScript Number is an IEEE-754 binary64 value, modelled by
    Rocq's primitive [float], which is the same format with the same
    round-to-nearest-even operations.  Prices, cash, average prices and share
    quantities are Numbers: the result of [parseInt] is the Number nearest to
    the integer it reads (or [NaN]), and the quantities of the holdings are
    built from it with the [+] and [-] of Numbers.  The clock readings of
    [Date.now()] are integers far below [2 ^ 53] and are kept in [Z].

    Strings.  A string is the sequence of the bytes of its UTF-8 encoding. *)

From Stdlib Require Import ZArith QArith Floats Ascii String Lia.
From stdpp Require Import gmap strings list sorting.

Set Warnings "-inexact-float".
Local Open Scope Z_scope.

(** ** JavaScript values used by the program *)

Module JS.

(** The Number nearest to an integer (ties to even). *)
Definition of_Z (z : Z) : float :=
  SF2Prim (binary_normalize prec emax z 0 false).

Definition isNaN (x : float) : bool := negb (x =? x)%float.

(** [!x] on a Number: true for [+0], [-0] and [NaN]. *)
Definition not_number (x : float) : bool := (x =? 0)%float || isNaN x.

(** [!s] on a value that is [null] or a string: true for [null] and [""]. *)
Definition not_string (s : option string) : bool :=
  match s with
  | None => true
  | Some s => bool_decide (s = "")
  end.

(** The exact rational value of a finite Number (0 for infinities and NaN,
    which the statements below never meet). *)
Definition exact (x : float) : Q :=
  match Prim2SF x with
  | S754_finite s m e =>
      ((if s then -1 else 1) * inject_Z (Z.pos m) * (2 ^ e))%Q
  | _ => 0%Q
  end.

(** The largest integer that is at most a finite Number (0 for infinities and
    NaN): the Number itself when it is an integer. *)
Definition to_integer (x : float) : Z :=
  match Prim2SF x with
  | S754_finite s m e => Z.shiftl (if s then Z.neg m else Z.pos m) e
  | _ => 0
  end.

(** *** Integers below [2 ^ 53]

    An integer [z] with [- 2 ^ 53 < z < 2 ^ 53] is a Number.  Its binary64
    representation has the [digits] of [z] shifted to the left of a mantissa
    of 53 bits. *)
Definition safe (z : Z) : Prop := - 2 ^ 53 < z < 2 ^ 53.

Definition digits (p : positive) : Z := Z.pos (digits2_pos p).

Definition shift_left (p : positive) (k : Z) : positive :=
  Nat.iter (Z.to_nat k) xO p.

Definition signed (s : bool) (q : positive) : Z :=
  if s then Z.neg q else Z.pos q.

Definition safe_integer (z : Z) : spec_float :=
  match z with
  | Z0 => S754_zero false
  | Zpos p => S754_finite false (shift_left p (53 - digits p)) (digits p - 53)
  | Zneg p => S754_finite true (shift_left p (53 - digits p)) (digits p - 53)
  end.

(** *** Reading numerals *)

(** White space that [parseInt] and [parseFloat] skip at the start: the
    members of [StrWhiteSpaceChar].  Those of one byte are TAB, LF, VT, FF, CR
    and SP. *)
Definition is_space (c : ascii) : bool :=
  let n := N_of_ascii c in
  ((9 <=? n) && (n <=? 13) || (n =? 32))%N.

(** U+00A0, the one of two bytes. *)
Definition is_space2 (c1 c2 : ascii) : bool :=
  ((N_of_ascii c1 =? 194) && (N_of_ascii c2 =? 160))%N.

(** Those of three bytes: U+1680, U+2000 to U+200A, U+2028, U+2029, U+202F,
    U+205F, U+3000 and U+FEFF. *)
Definition is_space3 (c1 c2 c3 : ascii) : bool :=
  let n1 := N_of_ascii c1 in
  let n2 := N_of_ascii c2 in
  let n3 := N_of_ascii c3 in
  ((n1 =? 225) && (n2 =? 154) && (n3 =? 128)
   || (n1 =? 226) && (n2 =? 128)
      && ((128 <=? n3) && (n3 <=? 138) || (n3 =? 168) || (n3 =? 169)
          || (n3 =? 175))
   || (n1 =? 226) && (n2 =? 129) && (n3 =? 159)
   || (n1 =? 227) && (n2 =? 128) && (n3 =? 128)
   || (n1 =? 239) && (n2 =? 187) && (n3 =? 191))%N.

Fixpoint trim_start (s : string) : string :=
  match s with
  | String c1 r1 =>
      if is_space c1 then trim_start r1
      else
        match r1 with
        | String c2 r2 =>
            if is_space2 c1 c2 then trim_start r2
            else
              match r2 with
              | String c3 r3 =>
                  if is_space3 c1 c2 c3 then trim_start r3 else s
              | EmptyString => s
              end
        | EmptyString => s
        end
  | EmptyString => s
  end.

(** The value of a character as a digit: decimal digits, and letters for the
    radices above 10. *)
Definition digit_value (radix : Z) (c : ascii) : option Z :=
  let n := Z.of_N (N_of_ascii c) in
  let v :=
    if (48 <=? n) && (n <=? 57) then Some (n - 48)
    else if (97 <=? n) && (n <=? 122) then Some (n - 87)
    else if (65 <=? n) && (n <=? 90) then Some (n - 55)
    else None in
  match v with
  | Some d => if d <? radix then Some d else None
  | None => None
  end.

(** The longest prefix of [s] made of digits of the radix, most significant
    first, accumulated into [acc]: its value, how many digits were read, and
    the rest of the string. *)
Fixpoint read_digits (radix : Z) (s : string) (acc : Z) (n : Z) : Z * Z * string :=
  match s with
  | String c r =>
      match digit_value radix c with
      | Some d => read_digits radix r (acc * radix + d) (n + 1)
      | None => (acc, n, s)
      end
  | EmptyString => (acc, n, s)
  end.

Definition is_digit (c : ascii) : bool :=
  match digit_value 10 c with Some _ => true | None => false end.

(** A string of decimal digits only. *)
Fixpoint all_digits (s : string) : bool :=
  match s with
  | String c r => is_digit c && all_digits r
  | EmptyString => true
  end.

(** An optional sign: whether it is [-], and the rest. *)
Definition read_sign (s : string) : bool * string :=
  match s with
  | String "-" r => (true, r)
  | String "+" r => (false, r)
  | _ => (false, s)
  end.

Definition starts_with (p s : string) : bool :=
  bool_decide (String.substring 0 (String.length p) s = p).

(** The integer that [parseInt(s)] or [parseInt(s, radix)] reads ([radix] is
    [None] when the argument is absent): whether a [-] precedes it, and the
    value of its digits.  Without a radix, or with the radix 16, a [0x] or
    [0X] prefix is skipped and selects radix 16.  [None] when there is no
    digit, or when the radix is not between 2 and 36. *)
Definition parseInt_integer (s : string) (radix : option Z)
  : option (bool * Z) :=
  let (neg, s1) := read_sign (trim_start s) in
  let R := match radix with Some R => R | None => 0 end in
  if negb (R =? 0) && ((R <? 2) || (36 <? R)) then None
  else
    let stripPrefix := (R =? 0) || (R =? 16) in
    let (R, s2) :=
      if stripPrefix && (starts_with "0x" s1 || starts_with "0X" s1)
      then (16, String.substring 2 (String.length s1 - 2) s1)
      else (if R =? 0 then 10 else R, s1) in
    let '(v, n, _) := read_digits R s2 0 0 in
    if n =? 0 then None else Some (neg, v).

(** [parseInt]: [NaN] when no integer is read, a zero with the sign read, and
    otherwise the Number nearest to the integer.  (ECMAScript lets an engine
    replace the digits after the twentieth by zeros; V8 and SpiderMonkey round
    the exact value.) *)
Definition parseInt (s : string) (radix : option Z) : float :=
  match parseInt_integer s radix with
  | None => nan
  | Some (neg, v) =>
      if v =? 0 then (if neg then PrimFloat.neg_zero else PrimFloat.zero)
      else of_Z (if neg then - v else v)
  end.

(** The Number nearest to [m * 10 ^ e10] for an integer [m]: exact integer
    arithmetic, then one rounding.  For a negative exponent the quotient is
    taken with 64 extra bits and a sticky last bit, which rounds as the
    exact quotient does. *)
Definition of_decimal (m e10 : Z) : float :=
  if 0 <=? e10 then of_Z (m * 10 ^ e10)
  else
    let d := 10 ^ (- e10) in
    let s := 64 + Z.log2_up d in
    let n := Z.abs m * 2 ^ s in
    let q := if n mod d =? 0 then n / d else Z.lor (n / d) 1 in
    SF2Prim (binary_normalize prec emax (Z.sgn m * q) (- s) (m <? 0)).

(** [parseFloat(s)]: the longest prefix of the trimmed string that is a
    [StrDecimalLiteral]; [NaN] when there is none. *)
Definition parseFloat (s : string) : float :=
  let (neg, s1) := read_sign (trim_start s) in
  if starts_with "Infinity" s1 then (if neg then neg_infinity else infinity)
  else
    let '(ip, ni, r1) := read_digits 10 s1 0 0 in
    let '(m, nf, r2) :=
      match r1 with
      | String "." r => read_digits 10 r ip 0
      | _ => (ip, 0, r1)
      end in
    if (ni =? 0) && (nf =? 0) then nan
    else
      let ex :=
        match r2 with
        | String c r =>
            if bool_decide (c = "e"%char) || bool_decide (c = "E"%char) then
              let (eneg, r3) := read_sign r in
              let '(e, ne, _) := read_digits 10 r3 0 0 in
              if ne =? 0 then 0 else if eneg then - e else e
            else 0
        | EmptyString => 0
        end in
      let x := if m =? 0 then 0%float else of_decimal m (ex - nf) in
      if neg then (- x)%float else x.

(** A string of [n] zeros, to write long numerals. *)
Fixpoint zeros (n : nat) : string :=
  match n with
  | O => ""
  | S n' => String "0" (zeros n')
  end.

End JS.

(** ** The application state ([script.js], section 1) *)

Inductive Side := BUY | SELL.

#[global] Instance Side_eq_dec : EqDecision Side.
Proof. solve_decision. Defined.

(** An entry of [state.portfolio.holdings]. *)
Record Holding := mkHolding {
  h_quantity : float;
  h_avgPrice : float
}.

(** An element of [state.portfolio.orders]. *)
Record Order := mkOrder {
  o_symbol : string;
  o_type : Side;
  o_price : float;
  o_quantity : float;
  o_status : string;
  o_timestamp : Z
}.

(** [holdings] holds the own properties of [state.portfolio.holdings]. *)
Record Portfolio := mkPortfolio {
  baseCapital : float;
  availableFunds : float;
  holdings : gmap string Holding;
  orders : list Order
}.

(** [state.ui.activeTrade]; its [symbol] starts as [null]. *)
Record ActiveTrade := mkActiveTrade {
  at_symbol : option string;
  at_type : Side
}.

(** The part of [state] that order execution reads and writes.  The charts and
    the rendered tables are outputs of it and are not modelled. *)
Record State := mkState {
  portfolio : Portfolio;
  activeTrade : ActiveTrade
}.

(** The keys of [state.stocks] after [initializeData]. *)
Definition stockList : list string :=
  ["GOOGL"; "AAPL"; "MSFT"; "TSLA"; "IBM"; "WMT"; "AMZN"].

(** [state.stocks] and [state.portfolio.holdings] are object literals, so a
    property that they do not have themselves is looked up in
    [Object.prototype].  These are its properties (ECMAScript, with Annex B):
    eleven functions, and [__proto__], which reads as [Object.prototype]
    itself. *)
Definition inherited_names : list string :=
  ["constructor"; "hasOwnProperty"; "isPrototypeOf"; "propertyIsEnumerable";
   "toLocaleString"; "toString"; "valueOf"; "__proto__"; "__defineGetter__";
   "__defineSetter__"; "__lookupGetter__"; "__lookupSetter__"].

(** What [object[name]] finds: an own property, an object inherited from
    [Object.prototype], or [undefined]. *)
Inductive Property (A : Type) :=
| Own (x : A)
| Inherited
| Undefined.

Arguments Own {A} x.
Arguments Inherited {A}.
Arguments Undefined {A}.

Definition get_property {A} (object : gmap string A) (name : string)
  : Property A :=
  match object !! name with
  | Some x => Own x
  | None =>
      if bool_decide (name ∈ inherited_names) then Inherited else Undefined
  end.

Definition initial_state : State :=
  {| portfolio :=
       {| baseCapital := 100000;
          availableFunds := 100000;
          holdings := ∅;
          orders := [] |};
     activeTrade := {| at_symbol := None; at_type := BUY |} |}.

(** ** Order execution ([script.js], section 5) *)

(** What the handler reports through [alert]: one of the three refusals, with
    the text of the source, or the execution of an order. *)
Inductive Alert :=
| Rejected (message : string)
| Executed (o : Order).

Definition InvalidOrder : Alert := Rejected "Invalid order details.".
Definition InsufficientFunds : Alert := Rejected "Insufficient funds.".
Definition InsufficientHoldings : Alert :=
  Rejected "You do not own enough shares to sell.".

Definition with_portfolio (st : State) (p : Portfolio) : State :=
  {| portfolio := p; activeTrade := activeTrade st |}.

(** [openTradeModal(symbol, type)], up to the assignment of
    [state.ui.activeTrade]: ignored when [state.stocks[symbol]] is
    [undefined].  For an inherited name the value found is an object without
    a [price], and the function stops with a [TypeError] right after the
    assignment. *)
Definition openTradeModal (st : State) (symbol : string) (type : Side) : State :=
  if bool_decide (symbol ∈ stockList) || bool_decide (symbol ∈ inherited_names)
  then {| portfolio := portfolio st;
          activeTrade := {| at_symbol := Some symbol; at_type := type |} |}
  else st.

(** The guard of [handleTradeExecution]:
    [!symbol || !quantity || !price || quantity <= 0]. *)
Definition invalid_details (symbol : option string) (quantity price : float)
  : bool :=
  JS.not_string symbol || JS.not_number quantity || JS.not_number price
  || (quantity <=? 0)%float.

(** The body of [handleTradeExecution] from its guard on (lines 360-381), for
    the parsed [quantity] and [price] and the clock reading [now].

    When [holdings[symbol]] is an object inherited from [Object.prototype],
    the handler reads and writes the [quantity] and [avgPrice] of that
    object, which is no part of the ledger: its [quantity] is [undefined] at
    first and [NaN] after any write ([undefined + q] and [NaN - q] are
    [NaN]), so [h.quantity < quantity] and [h.quantity === 0] are false. *)
Definition executeOrder (st : State) (quantity price : float) (now : Z)
  : State * Alert :=
  let symbol := at_symbol (activeTrade st) in
  let type := at_type (activeTrade st) in
  let p := portfolio st in
  if invalid_details symbol quantity price
  then (st, InvalidOrder)
  else
    match symbol with
    | Some symbol =>
        let executed (funds : float) (hs : gmap string Holding) :=
          let o := {| o_symbol := symbol; o_type := type; o_price := price;
                      o_quantity := quantity; o_status := "Executed";
                      o_timestamp := now |} in
          (with_portfolio st
             {| baseCapital := baseCapital p; availableFunds := funds;
                holdings := hs; orders := orders p ++ [o] |},
           Executed o) in
        match type with
        | BUY =>
            let cost := (price * quantity)%float in
            if (availableFunds p <? cost)%float then (st, InsufficientFunds)
            else
              let funds := (availableFunds p - cost)%float in
              match get_property (holdings p) symbol with
              | Own h =>
                  let avg :=
                    ((h_avgPrice h * h_quantity h + cost)
                     / (h_quantity h + quantity))%float in
                  executed funds
                    (<[symbol := {| h_quantity :=
                                      (h_quantity h + quantity)%float;
                                    h_avgPrice := avg |}]> (holdings p))
              | Inherited => executed funds (holdings p)
              | Undefined =>
                  executed funds
                    (<[symbol := {| h_quantity := quantity;
                                    h_avgPrice := price |}]> (holdings p))
              end
        | SELL =>
            match get_property (holdings p) symbol with
            | Undefined => (st, InsufficientHoldings)
            | Inherited =>
                executed (availableFunds p + price * quantity)%float
                  (holdings p)
            | Own h =>
                if (h_quantity h <? quantity)%float
                then (st, InsufficientHoldings)
                else
                  let funds := (availableFunds p + price * quantity)%float in
                  let q := (h_quantity h - quantity)%float in
                  executed funds
                    (if (q =? 0)%float then delete symbol (holdings p)
                     else <[symbol := {| h_quantity := q;
                                         h_avgPrice := h_avgPrice h |}]>
                            (holdings p))
            end
        end
    | None => (st, InvalidOrder)
    end.

(** [handleTradeExecution]: the submit handler of the trade form, given the
    values of the [quantity] and [price] fields and the clock. *)
Definition handleTradeExecution (st : State) (quantityValue priceValue : string)
    (now : Z) : State * Alert :=
  let quantity := JS.parseInt quantityValue None in
  let price := JS.parseFloat priceValue in
  executeOrder st quantity price now.

(** The events that reach the ledger, and a run of the application over a
    sequence of them. *)
Inductive Event :=
| OpenTradeModal (symbol : string) (type : Side)
| SubmitTrade (quantityValue priceValue : string) (now : Z).

Definition step (st : State) (ev : Event) : State :=
  match ev with
  | OpenTradeModal symbol type => openTradeModal st symbol type
  | SubmitTrade q p now => fst (handleTradeExecution st q p now)
  end.

Definition run (st : State) (evs : list Event) : State :=
  fold_left step evs st.

(** ** Aggregation of minute bars ([script.js], section 4)

    [aggregateData] on bars whose times and volumes are integers, and for an
    interval that is an integer or [NaN], with the arithmetic of integers.
    For times, volumes and intervals in milliseconds below [2 ^ 53] this is
    what the arithmetic of Numbers computes
    ([NumberChartFacts.aggregateData_refines]); the function in that
    arithmetic, for all Numbers, is [NumberChart.aggregateData] below. *)

Module Chart.

(** An element of [stock.minuteData]: the time in milliseconds, the four
    prices and the volume (an integer, as [generateMockStockData] makes it). *)
Record Bar := mkBar {
  t : Z;
  o : float;
  h : float;
  l : float;
  c : float;
  v : Z
}.

(** [Math.max(...xs)]: [NaN] if some argument is, otherwise the largest from
    [-Infinity] on, [+0] counting as larger than [-0]. *)
Definition Math_max (xs : list float) : float :=
  if existsb JS.isNaN xs then nan
  else
    fold_left
      (λ highest x,
         match Prim2SF x, Prim2SF highest with
         | S754_zero false, S754_zero true => x
         | _, _ => if (highest <? x)%float then x else highest
         end)
      xs neg_infinity.

(** [Math.min(...xs)], from [+Infinity] on, [-0] counting as smaller than
    [+0]. *)
Definition Math_min (xs : list float) : float :=
  if existsb JS.isNaN xs then nan
  else
    fold_left
      (λ lowest x,
         match Prim2SF x, Prim2SF lowest with
         | S754_zero true, S754_zero false => x
         | _, _ => if (x <? lowest)%float then x else lowest
         end)
      xs infinity.

(** [interval * 60000] as an integer; [None] is [NaN]. *)
Definition interval_millis (interval : option Z) : option Z :=
  match interval with
  | Some n => Some (n * 60000)
  | None => None
  end.

(** [Math.floor(time / intervalMillis) * intervalMillis] for an integer time:
    the floor of the quotient is [Z.div] for the positive divisors that reach
    it, and the result is [NaN] when the divisor is. *)
Definition candle_time (intervalMillis : option Z) (time : Z) : option Z :=
  match intervalMillis with
  | Some m => Some (time / m * m)
  | None => None
  end.

(** [a === b] on two such results; [NaN] equals nothing. *)
Definition strict_eq (a b : option Z) : bool :=
  match a, b with
  | Some x, Some y => x =? y
  | _, _ => false
  end.

(** The callback of the filter:
    [d => Math.floor(d.t / intervalMillis) * intervalMillis === candleTime]. *)
Definition in_candle (intervalMillis candleTime : option Z) (d : Bar) : bool :=
  strict_eq (candle_time intervalMillis (t d)) candleTime.

(** The bar pushed for a group whose first element is [g0]. *)
Definition candle (g0 : Bar) (group : list Bar) : Bar :=
  {| t := t g0;
     o := o g0;
     h := Math_max (map h group);
     l := Math_min (map l group);
     c := c (List.last group g0);
     v := fold_left (λ sum d, sum + v d) group 0 |}.

(** The [while] loop of [aggregateData]: [i] and [aggregated] are its
    variables.  Each iteration uses one unit of [fuel]; [None] is a loop cut
    short by the lack of it. *)
Fixpoint aggregate_loop (fuel : nat) (data : list Bar) (interval : option Z)
    (i : nat) (aggregated : list Bar) : option (list Bar) :=
  match data !! i with
  | None => Some aggregated
  | Some d =>
      match fuel with
      | O => None
      | S fuel' =>
          let intervalMillis := interval_millis interval in
          let candleTime := candle_time intervalMillis (t d) in
          let group :=
            List.filter (in_candle intervalMillis candleTime) data in
          match group with
          | g0 :: _ =>
              aggregate_loop fuel' data interval
                (i + length group) (aggregated ++ [candle g0 group])
          | [] => aggregate_loop fuel' data interval (i + 1) aggregated
          end
      end
  end.

(** [interval <= 1] on the result of [parseInt]; false for [NaN]. *)
Definition int_le_1 (interval : option Z) : bool :=
  match interval with
  | Some n => n <=? 1
  | None => false
  end.

(** [aggregateData(data, interval)] for the interval that [drawDetailedChart]
    reads with [parseInt].  The loop gets one unit of fuel per element of
    [data]. *)
Definition aggregateData (data : list Bar) (interval : option Z)
  : option (list Bar) :=
  if int_le_1 interval then Some data
  else aggregate_loop (length data) data interval 0 [].

(** The groups of a partition, each turned into its bar. *)
Definition candles (groups : list (list Bar)) : list Bar :=
  flat_map (λ g, match g with g0 :: _ => [candle g0 g] | [] => [] end) groups.

Definition total_volume (data : list Bar) : Z :=
  foldr (λ d sum, v d + sum) 0 data.

(** The start of the candle of a bar, for an interval of [m] milliseconds,
    and the test of a bar against a candle that starts at [k]. *)
Definition bucket (m : Z) (d : Bar) : Z := t d / m * m.

Definition in_bucket (m k : Z) (d : Bar) : bool := bucket m d =? k.

(** Non-decreasing times. *)
Fixpoint sorted_by_time (data : list Bar) : bool :=
  match data with
  | d1 :: data' =>
      match data' with
      | d2 :: _ => (t d1 <=? t d2) && sorted_by_time data'
      | [] => true
      end
  | [] => true
  end.

End Chart.

(** ** The aggregation in the arithmetic of Numbers

    [Chart] above is [aggregateData] on bars whose times and volumes are
    integers, computed as integers.  The program computes them as Numbers:
    this is the same function with every operation the one of JavaScript, on
    bars that hold six Numbers and for an interval that is any Number. *)

Module NumberChart.

Record Bar := mkBar {
  t : float;
  o : float;
  h : float;
  l : float;
  c : float;
  v : float
}.

(** The bar of Numbers that a bar of [Chart] stands for. *)
Definition number_bar (d : Chart.Bar) : Bar :=
  {| t := JS.of_Z (Chart.t d);
     o := Chart.o d;
     h := Chart.h d;
     l := Chart.l d;
     c := Chart.c d;
     v := JS.of_Z (Chart.v d) |}.

(** [Math.floor(x)]: [x] itself when it is a zero, an infinity, [NaN] or a
    Number without fractional bits. *)
Definition Math_floor (x : float) : float :=
  match Prim2SF x with
  | S754_finite s m e =>
      if 0 <=? e then x
      else JS.of_Z (Z.shiftl (if s then Z.neg m else Z.pos m) e)
  | _ => x
  end.

(** [Math.floor(time / intervalMillis) * intervalMillis]. *)
Definition candle_time (intervalMillis time : float) : float :=
  (Math_floor (time / intervalMillis) * intervalMillis)%float.

(** The callback of the filter:
    [d => Math.floor(d.t / intervalMillis) * intervalMillis === candleTime]. *)
Definition in_candle (intervalMillis candleTime : float) (d : Bar) : bool :=
  (candle_time intervalMillis (t d) =? candleTime)%float.

(** The bar pushed for a group whose first element is [g0]. *)
Definition candle (g0 : Bar) (group : list Bar) : Bar :=
  {| t := t g0;
     o := o g0;
     h := Chart.Math_max (map h group);
     l := Chart.Math_min (map l group);
     c := c (List.last group g0);
     v := fold_left (λ sum d, (sum + v d)%float) group 0%float |}.

(** The [while] loop of [aggregateData]: [i] and [aggregated] are its
    variables.  Each iteration uses one unit of [fuel]; [None] is a loop cut
    short by the lack of it. *)
Fixpoint aggregate_loop (fuel : nat) (data : list Bar) (interval : float)
    (i : nat) (aggregated : list Bar) : option (list Bar) :=
  match data !! i with
  | None => Some aggregated
  | Some d =>
      match fuel with
      | O => None
      | S fuel' =>
          let intervalMillis := (interval * 60000)%float in
          let candleTime := candle_time intervalMillis (t d) in
          let group :=
            List.filter (in_candle intervalMillis candleTime) data in
          match group with
          | g0 :: _ =>
              aggregate_loop fuel' data interval
                (i + length group) (aggregated ++ [candle g0 group])
          | [] => aggregate_loop fuel' data interval (i + 1) aggregated
          end
      end
  end.

(** [aggregateData(data, interval)].  The loop gets one unit of fuel per
    element of [data]. *)
Definition aggregateData (data : list Bar) (interval : float)
  : option (list Bar) :=
  if (interval <=? 1)%float then Some data
  else aggregate_loop (length data) data interval 0 [].

(** The volumes of a list of bars, added up from 0 in the order of the
    list. *)
Definition total_volume (data : list Bar) : float :=
  fold_left (λ sum d, (sum + v d)%float) data 0%float.

End NumberChart.

(** ** The simulated datafeed ([data.js]) *)

Module Datafeed.

(** The bar that a tick of the simulation builds from the clock and five
    draws of [Math.random()]. *)
Record Bar := mkBar {
  time : Z;
  open : float;
  high : float;
  low : float;
  close : float;
  volume : float
}.

Definition lastBar (now : Z) (r1 r2 r3 r4 r5 : float) : Bar :=
  {| time := now;
     open := (r1 * 10 + 150)%float;
     high := (r2 * 10 + 155)%float;
     low := (r3 * 5 + 145)%float;
     close := (r4 * 10 + 150)%float;
     volume := (r5 * 1000)%float |}.

(** The interval timers of the page.  [subscribeBars] starts one with
    [setInterval] and drops the identifier that [setInterval] returns; a timer
    is the subscriber whose [onRealtimeCallback] its function calls. *)
Record Feed := mkFeed {
  timers : list string
}.

Definition no_subscription : Feed := {| timers := [] |}.

(** What happens to the datafeed: the chart library calls [subscribeBars] or
    [unsubscribeBars] with a subscriber identifier, or the browser fires the
    timer at some position of its list, 2000 ms after its previous firing. *)
Inductive Action :=
| SubscribeBars (subscriberUID : string)
| UnsubscribeBars (subscriberUID : string)
| TimerFires (timer : nat) (now : Z) (r1 r2 r3 r4 r5 : float).

(** What a step shows: a line on the console, or a call of the subscriber's
    [onRealtimeCallback] with a bar. *)
Inductive Output :=
| ConsoleLog (message subscriberUID : string)
| RealtimeCallback (subscriberUID : string) (bar : Bar).

Definition subscribeBars (f : Feed) (subscriberUID : string)
  : Feed * list Output :=
  ({| timers := timers f ++ [subscriberUID] |},
   [ConsoleLog "[subscribeBars]: Method call with subscriberUID:"
      subscriberUID]).

Definition unsubscribeBars (f : Feed) (subscriberUID : string)
  : Feed * list Output :=
  (f, [ConsoleLog "[unsubscribeBars]: Method call with subscriberUID:"
         subscriberUID]).

Definition step (f : Feed) (a : Action) : Feed * list Output :=
  match a with
  | SubscribeBars uid => subscribeBars f uid
  | UnsubscribeBars uid => unsubscribeBars f uid
  | TimerFires k now r1 r2 r3 r4 r5 =>
      match timers f !! k with
      | Some uid => (f, [RealtimeCallback uid (lastBar now r1 r2 r3 r4 r5)])
      | None => (f, [])
      end
  end.

(** The feed after a sequence of actions, and everything they showed. *)
Fixpoint run (f : Feed) (acts : list Action) : Feed * list Output :=
  match acts with
  | [] => (f, [])
  | a :: acts' =>
      let (f1, out1) := step f a in
      let (f2, out2) := run f1 acts' in
      (f2, out1 ++ out2)
  end.

Definition is_callback_for (uid : string) (o : Output) : bool :=
  match o with
  | RealtimeCallback uid' _ => bool_decide (uid' = uid)
  | ConsoleLog _ _ => false
  end.

(** The property of cancellation on a trace: whenever the trace unsubscribes
    a subscriber, nothing after that step calls the subscriber back. *)
Definition silent_after_cancel (f : Feed) (acts : list Action) : Prop :=
  ∀ before uid after,
    acts = before ++ UnsubscribeBars uid :: after →
    ∀ o, o ∈ snd (run (fst (run f before)) (UnsubscribeBars uid :: after)) →
         is_callback_for uid o = false.

End Datafeed.

(** ** Vocabulary of the properties *)

(** Every holding is of a strictly positive number of shares. *)
Definition holdings_positive (st : State) : Prop :=
  ∀ sym h, holdings (portfolio st) !! sym = Some h →
           (0 <? h_quantity h)%float = true.

(** Every holding is of a whole number of shares, at least 1 and at most
    [bound]. *)
Definition holdings_whole (bound : Z) (st : State) : Prop :=
  ∀ sym h, holdings (portfolio st) !! sym = Some h →
           ∃ z, 0 < z ≤ bound ∧ h_quantity h = JS.of_Z z.

(** The integer that a submission has in its quantity field (0 when it has
    none), and the sum of these integers over the events of a run. *)
Definition entered_quantity (ev : Event) : Z :=
  match ev with
  | SubmitTrade q _ _ =>
      match JS.parseInt_integer q None with
      | Some (_, z) => z
      | None => 0
      end
  | OpenTradeModal _ _ => 0
  end.

Definition total_entered (evs : list Event) : Z :=
  foldr (λ ev sum, entered_quantity ev + sum) 0 evs.

(** The quantity held of a symbol: 0 when the symbol has no entry. *)
Definition held (st : State) (sym : string) : float :=
  match holdings (portfolio st) !! sym with
  | Some h => h_quantity h
  | None => 0
  end.

(** The shares of a symbol that a list of orders bought, less those it sold,
    for orders of whole numbers of shares. *)
Definition net_quantity (sym : string) (os : list Order) : Z :=
  foldr
    (λ o acc,
       if bool_decide (o_symbol o = sym)
       then match o_type o with
            | BUY => acc + JS.to_integer (o_quantity o)
            | SELL => acc - JS.to_integer (o_quantity o)
            end
       else acc)
    0 os.

(** A name that [state.stocks] has or inherits. *)
Definition known (sym : string) : Prop :=
  sym ∈ stockList ∨ sym ∈ inherited_names.

(** A ledger of whole numbers of shares.  The symbol of the trade form is
    a name that [state.stocks] has or inherits; no holding has an inherited
    name; and for every other symbol, the holding, if there is one, is of a
    whole number of shares from 1 to [bound], which is what the recorded
    orders of the symbol bought less what they sold, and without a holding
    the recorded orders bought as much as they sold. *)
Definition whole_ledger (bound : Z) (st : State) : Prop :=
  (∀ sym, at_symbol (activeTrade st) = Some sym → known sym)
  ∧ (∀ sym, sym ∈ inherited_names → holdings (portfolio st) !! sym = None)
  ∧ (∀ sym, sym ∉ inherited_names →
       match holdings (portfolio st) !! sym with
       | Some h =>
           ∃ z, 0 < z ≤ bound ∧ h_quantity h = JS.of_Z z
                ∧ net_quantity sym (orders (portfolio st)) = z
       | None => net_quantity sym (orders (portfolio st)) = 0
       end).

(** The cash that the execution of an order leaves, computed as the handler
    does: one product, and one subtraction or addition. *)
Definition cash_effect (funds : float) (o : Order) : float :=
  match o_type o with
  | BUY => (funds - o_price o * o_quantity o)%float
  | SELL => (funds + o_price o * o_quantity o)%float
  end.

(** The cash after a list of executed orders, oldest first. *)
Definition replay (capital : float) (os : list Order) : float :=
  fold_left cash_effect os capital.

(** The orders that the events of a run execute, in the order of the events. *)
Fixpoint executions (st : State) (evs : list Event) : list Order :=
  match evs with
  | [] => []
  | ev :: evs' =>
      match ev with
      | SubmitTrade q p now =>
          match snd (handleTradeExecution st q p now) with
          | Executed o => [o]
          | Rejected _ => []
          end
      | OpenTradeModal _ _ => []
      end ++ executions (step st ev) evs'
  end.

(** The clock readings of the submissions of a run, in the order of the
    events. *)
Definition clock_readings (evs : list Event) : list Z :=
  flat_map
    (λ ev, match ev with
           | SubmitTrade _ _ now => [now]
           | OpenTradeModal _ _ => []
           end)
    evs.

(** The order that the handler records for the state of the trade form, the
    parsed fields and the clock. *)
Definition order_of (st : State) (sym : string) (quantity price : float)
    (now : Z) : Order :=
  {| o_symbol := sym; o_type := at_type (activeTrade st); o_price := price;
     o_quantity := quantity; o_status := "Executed"; o_timestamp := now |}.

(** The two checks that follow the guard: the cash covers the cost of a BUY;
    the symbol of a SELL has a holding that is not smaller than the quantity
    (or names an object inherited from [Object.prototype]). *)
Definition covered (st : State) (sym : string) (quantity price : float)
  : bool :=
  match at_type (activeTrade st) with
  | BUY => negb (availableFunds (portfolio st) <? price * quantity)%float
  | SELL =>
      match get_property (holdings (portfolio st)) sym with
      | Own h => negb (h_quantity h <? quantity)%float
      | Inherited => true
      | Undefined => false
      end
  end.

(** Exact conservation, read over the rationals: the exact value of the cash
    is the exact value of the base capital, minus the exact [price * quantity]
    of every BUY in the history, plus that of every SELL. *)
Definition exact_total (side : Side) (os : list Order) : Q :=
  fold_right
    (λ o acc,
       if bool_decide (o_type o = side)
       then (JS.exact (o_price o) * JS.exact (o_quantity o) + acc)%Q
       else acc)
    0%Q os.

Definition conserved_exactly (p : Portfolio) : Prop :=
  (JS.exact (availableFunds p)
   == JS.exact (baseCapital p) - exact_total BUY (orders p)
      + exact_total SELL (orders p))%Q.

(** The same conservation read over JavaScript Numbers: the two sums are
    accumulated with [+] from 0, then subtracted from and added to the base
    capital. *)
Definition number_total (side : Side) (os : list Order) : float :=
  fold_left
    (λ acc o,
       if bool_decide (o_type o = side)
       then (acc + o_price o * o_quantity o)%float
       else acc)
    os 0%float.

Definition conserved_in_numbers (p : Portfolio) : Prop :=
  availableFunds p
  = (baseCapital p - number_total BUY (orders p)
     + number_total SELL (orders p))%float.

(** Two amounts that differ by less than half a cent. *)
Definition agree_to_cents (x y : float) : bool :=
  (abs (x - y) <? 0.005)%float.

(** The three steps of the scenario of the specification, with the clock
    readings of the three submissions. *)
Definition after_first_buy (now1 : Z) : State :=
  run initial_state
    [OpenTradeModal "AAPL" BUY; SubmitTrade "10" "214.20" now1].

Definition after_second_buy (now1 now2 : Z) : State :=
  run (after_first_buy now1) [SubmitTrade "5" "220.00" now2].

Definition after_sell (now1 now2 now3 : Z) : State :=
  run (after_second_buy now1 now2)
    [OpenTradeModal "AAPL" SELL; SubmitTrade "15" "225.00" now3].

(** A run in which the quantity held becomes [NaN]: two purchases of
    [1.7e308] shares (a 17 followed by 307 zeros) at [1e-320] make the
    quantity [Infinity], and the sale of [Infinity] shares (a 1 followed by
    309 zeros) leaves [Infinity - Infinity]. *)
Definition overflowing_run : list Event :=
  [OpenTradeModal "AAPL" BUY;
   SubmitTrade ("17" +:+ JS.zeros 307) "1e-320" 1;
   SubmitTrade ("17" +:+ JS.zeros 307) "1e-320" 2;
   OpenTradeModal "AAPL" SELL;
   SubmitTrade ("1" +:+ JS.zeros 309) "1e-320" 3].

(** ** Vocabulary of the further properties of the ledger *)

(** The symbols that the state names: the keys of the holdings are keys of
    [state.stocks]; the symbol of the trade form and the symbols of the
    orders are names that [state.stocks] has or inherits. *)
Definition symbols_listed (st : State) : Prop :=
  (∀ sym, at_symbol (activeTrade st) = Some sym → known sym)
  ∧ (∀ sym h, holdings (portfolio st) !! sym = Some h → sym ∈ stockList)
  ∧ Forall (λ o, known (o_symbol o)) (orders (portfolio st)).

(** An event that leaves the symbol of the trade form alone or fails to set
    it: a submission, or the opening of the form for a name that
    [state.stocks] neither has nor inherits. *)
Definition opens_nothing (ev : Event) : bool :=
  match ev with
  | OpenTradeModal symbol _ =>
      negb (bool_decide (symbol ∈ stockList)
            || bool_decide (symbol ∈ inherited_names))
  | SubmitTrade _ _ _ => true
  end.

(** ** The orders table ([script.js], [renderOrders]) *)

(** [s.toLowerCase()] on the ASCII letters, the only ones in the strings it is
    applied to. *)
Definition toLowerCase (s : string) : string :=
  string_of_list_ascii
    (map (λ c, let n := N_of_ascii c in
               if ((65 <=? n) && (n <=? 90))%N then ascii_of_N (n + 32) else c)
       (list_ascii_of_string s)).

(** [order.type] as the string it is in the program. *)
Definition type_text (type : Side) : string :=
  match type with
  | BUY => "BUY"
  | SELL => "SELL"
  end.

(** The callback of the filter of [renderOrders], for the values of the three
    selectors. *)
Definition order_matches (stockFilter typeFilter statusFilter : string)
    (order : Order) : bool :=
  (bool_decide (stockFilter = "all")
   || bool_decide (o_symbol order = stockFilter))
  && (bool_decide (typeFilter = "all")
      || bool_decide (toLowerCase (type_text (o_type order)) = typeFilter))
  && (bool_decide (statusFilter = "all")
      || bool_decide (toLowerCase (o_status order) = statusFilter)).

(** [renderOrders]: the rows of the table body from top to bottom, each row
    standing for the order it shows.  The body is emptied, and the row of each
    matching order is put before the rows already there. *)
Definition renderOrders (st : State)
    (stockFilter typeFilter statusFilter : string) : list Order :=
  let filteredOrders :=
    List.filter (order_matches stockFilter typeFilter statusFilter)
      (orders (portfolio st)) in
  fold_left (λ tableBody order, order :: tableBody) filteredOrders [].

(** ** The mock market data ([script.js], sections 2 to 4) *)

Module Market.

Import Chart.

(** [Math.floor(x)] of a finite Number, as the integer it is.  The program
    applies it to products of a draw of [Math.random()], which is in [0, 1),
    and a constant: these are finite. *)
Definition Math_floor (x : float) : Z :=
  match Prim2SF x with
  | S754_finite s m e => Z.shiftl (if s then Z.neg m else Z.pos m) e
  | _ => 0
  end.

(** The object that [generateMockStockData] returns. *)
Record Stock := mkStock {
  symbol : string;
  sector : string;
  price : float;
  open : float;
  high : float;
  low : float;
  volume : Z;
  change : float;
  changePercent : float;
  minuteData : list Bar
}.

(** The [for] loop of [generateMockStockData], [i] counting down to 1.
    [draw k] is the result of the [k]-th call of [Math.random()] since the
    function was entered; each iteration makes four calls. *)
Fixpoint minute_loop (i : nat) (now : Z) (draw : nat → float) (k : nat)
    (currentPrice : float) (minuteData : list Bar) : list Bar * float :=
  match i with
  | O => (minuteData, currentPrice)
  | S i' =>
      let timestamp := now - Z.of_nat i * 60000 in
      let open := currentPrice in
      let close := (open * (1 + (draw k - 0.5) * 0.0005))%float in
      let high :=
        (Math_max [open; close] * (1 + draw (k + 1)%nat * 0.0002))%float in
      let low :=
        (Math_min [open; close] * (1 - draw (k + 2)%nat * 0.0002))%float in
      let volume := Math_floor (draw (k + 3)%nat * 10000) + 1000 in
      minute_loop i' now draw (k + 4) close
        (minuteData
         ++ [{| t := timestamp; o := open; h := high; l := low; c := close;
                v := volume |}])
  end.

(** [generateMockStockData(symbol, basePrice, sector)], with the clock reading
    [now] of its [new Date()] and the draws of [Math.random()].  The object
    literal makes the draws 0 to 4, the loop the following ones.  The price is
    read from the last bar; the loop has pushed 2400 of them. *)
Definition generateMockStockData (symbol : string) (basePrice : float)
    (sector : string) (now : Z) (draw : nat → float) : Stock :=
  let open0 := (basePrice * (1 + (draw 0%nat - 0.5) * 0.02))%float in
  let volume0 := Math_floor (draw 3%nat * 2000000) + 500000 in
  let change0 := ((draw 4%nat - 0.45) * 5)%float in
  let minuteData := fst (minute_loop (5 * 8 * 60) now draw 5 basePrice []) in
  let price :=
    match last minuteData with
    | Some d => c d
    | None => basePrice
    end in
  {| symbol := symbol;
     sector := sector;
     price := price;
     open := open0;
     high := Math_max (map h minuteData);
     low := Math_min (map l minuteData);
     volume := volume0;
     change := change0;
     changePercent := ((price / basePrice - 1) * 100)%float;
     minuteData := minuteData |}.

(** The [stockList] of [initializeData]. *)
Definition stockTable : list (string * float * string) :=
  [("GOOGL", 175.5%float, "Technology"); ("AAPL", 214.2%float, "Technology");
   ("MSFT", 447.6%float, "Technology"); ("TSLA", 183%float, "Automotive");
   ("IBM", 170.6%float, "Technology"); ("WMT", 67.2%float, "Retail");
   ("AMZN", 185.5%float, "E-commerce")].

(** The number of calls of [Math.random()] in one [generateMockStockData]. *)
Definition draws_per_stock : nat := 5 + 4 * (5 * 8 * 60).

(** [initializeData]: [state.stocks] after the [forEach], started at the
    [j]-th stock.  [clock j] is the clock reading of the [j]-th call of
    [generateMockStockData] and [draw] the draws of the whole run. *)
Fixpoint initialize_from (j : nat) (table : list (string * float * string))
    (clock : nat → Z) (draw : nat → float) (stocks : gmap string Stock)
  : gmap string Stock :=
  match table with
  | [] => stocks
  | (symbol, basePrice, sector) :: table' =>
      initialize_from (S j) table' clock draw
        (<[symbol := generateMockStockData symbol basePrice sector (clock j)
                       (λ k, draw (draws_per_stock * j + k)%nat)]> stocks)
  end.

Definition initializeData (clock : nat → Z) (draw : nat → float)
  : gmap string Stock :=
  initialize_from 0 stockTable clock draw ∅.

(** The change that a row of [renderWatchlist] shows, in price and in per
    cent, and whether the row is styled as a profit.  [None] is the
    [TypeError] of reading [.c] of an absent bar. *)
Definition watchlist_change (stock : Stock) : option (float * float * bool) :=
  if (length (minuteData stock) <? 2)%nat then None
  else
    match minuteData stock !! (length (minuteData stock) - 2)%nat with
    | Some d =>
        let lastClose := c d in
        let currentPrice := price stock in
        let change := (currentPrice - lastClose)%float in
        let changePercent := (change / lastClose * 100)%float in
        Some (change, changePercent, (0 <=? change)%float)
    | None => None
    end.

(** [stock.minuteData.slice(-60)], the data of [renderTradeChart]. *)
Definition tradeData (stock : Stock) : list Bar :=
  drop (length (minuteData stock) - 60) (minuteData stock).

End Market.

(** ** The history of the simulated datafeed ([data.js], [getBars]) *)

Module DatafeedHistory.

Import Datafeed.

(** What [getBars] passes to [onHistoryCallback]: the bars and the [noData]
    flag. *)
Inductive HistoryResult :=
| HistoryCallback (bars : list Bar) (noData : bool).

(** The [periodParams] of a request. *)
Record PeriodParams := mkPeriod {
  p_from : Z;
  p_to : Z;
  p_firstDataRequest : bool
}.

(** The [for] loop of [getBars] with [remaining = 2000 - i] iterations to go;
    [draw k] is the [k]-th draw of [Math.random()] of the call, four per
    iteration. *)
Fixpoint bars_loop (remaining : nat) (now : Z) (draw : nat → float) (k : nat)
    (price : float) (bars : list Bar) : list Bar :=
  match remaining with
  | O => bars
  | S remaining' =>
      let time := now - Z.of_nat remaining * 60 * 1000 in
      let open := price in
      let close := (open + (draw k - 0.5) * 2)%float in
      let high := (Chart.Math_max [open; close] + draw (k + 1)%nat)%float in
      let low := (Chart.Math_min [open; close] - draw (k + 2)%nat)%float in
      let volume := (draw (k + 3)%nat * 10000)%float in
      bars_loop remaining' now draw (k + 4) close
        (bars ++ [{| time := time; open := open; high := high; low := low;
                     close := close; volume := volume |}])
  end.

(** [getBars(symbolInfo, resolution, periodParams, onHistoryCallback, ...)]
    with the reading [now] of [Date.now()]: the call of [onHistoryCallback]
    that it makes. *)
Definition getBars (periodParams : PeriodParams) (now : Z)
    (draw : nat → float) : HistoryResult :=
  let bars := bars_loop 2000 now draw 0 150 [] in
  if (0 <? length bars)%nat then HistoryCallback bars false
  else HistoryCallback [] true.

(** The subscribers of the [subscribeBars] calls of a sequence of actions, in
    the order of the calls. *)
Definition subscribed (acts : list Action) : list string :=
  flat_map
    (λ a, match a with
          | SubscribeBars uid => [uid]
          | _ => []
          end)
    acts.

End DatafeedHistory.

(** * Properties *)

(** ** Integers below [2 ^ 53] as Numbers

    The sum and the difference of two such integers, when they are below
    [2 ^ 53] themselves, and their comparisons, are computed exactly. *)

Module SafeIntegers.
Import JS.

Lemma digits_log2 p : digits p = Z.log2 (Z.pos p) + 1.
Proof.
  unfold digits.
  assert (H : digits2_pos p = Pos.size p) by (induction p; simpl; congruence).
  rewrite H. destruct p; simpl; lia.
Qed.

Lemma digits_pos p : 1 <= digits p.
Proof. unfold digits. lia. Qed.

Lemma digits_safe p : Z.pos p < 2 ^ 53 <-> digits p <= 53.
Proof.
  rewrite digits_log2, (Z.log2_lt_pow2 (Z.pos p) 53) by lia. lia.
Qed.

Lemma shift_left_value p k : 0 <= k -> Z.pos (shift_left p k) = Z.pos p * 2 ^ k.
Proof.
  intros Hk. unfold shift_left.
  rewrite <- (Z2Nat.id k) at 2 by lia.
  induction (Z.to_nat k) as [|n IH].
  - simpl. lia.
  - rewrite Nat2Z.inj_succ, Z.pow_succ_r by lia. simpl.
    rewrite Pos2Z.inj_xO, IH. lia.
Qed.

Lemma shift_left_0 p k : k <= 0 -> shift_left p k = p.
Proof.
  intros Hk. unfold shift_left. destruct k; try lia; reflexivity.
Qed.

Lemma shift_left_inj p q k : shift_left p k = shift_left q k -> p = q.
Proof.
  unfold shift_left. induction (Z.to_nat k) as [|n IH]; simpl; [done|].
  intros H. apply IH. congruence.
Qed.

Lemma digits_shift_left p k : 0 <= k -> digits (shift_left p k) = digits p + k.
Proof.
  intros Hk. rewrite !digits_log2, shift_left_value, Z.log2_mul_pow2 by lia. lia.
Qed.

Lemma iter_xO p d : Pos.iter xO p d = shift_left p (Z.pos d).
Proof.
  unfold shift_left. rewrite Pos2Nat.inj_iter. reflexivity.
Qed.

Lemma shift_left_add p j k :
  0 <= j -> 0 <= k -> shift_left (shift_left p j) k = shift_left p (j + k).
Proof.
  intros Hj Hk. apply Pos2Z.inj.
  rewrite !shift_left_value, Z.pow_add_r by lia. lia.
Qed.

Lemma digits_le p q : Z.pos p <= Z.pos q -> digits p <= digits q.
Proof.
  intros H. rewrite !digits_log2.
  pose proof (Z.log2_le_mono _ _ H). lia.
Qed.

(** Shifting right what was shifted left loses nothing. *)
Lemma iter_pos_nat {A} (f : A -> A) p x :
  SpecFloat.iter_pos f p x = Nat.iter (Pos.to_nat p) f x.
Proof.
  revert x. induction p as [p IH|p IH|]; intros x.
  - change (SpecFloat.iter_pos f p (SpecFloat.iter_pos f p (f x))
            = Nat.iter (Pos.to_nat p~1) f x).
    rewrite !IH, Pos2Nat.inj_xI.
    replace (S (2 * Pos.to_nat p)) with (Pos.to_nat p + (Pos.to_nat p + 1))%nat by lia.
    rewrite !Nat.iter_add. reflexivity.
  - change (SpecFloat.iter_pos f p (SpecFloat.iter_pos f p x)
            = Nat.iter (Pos.to_nat p~0) f x).
    rewrite !IH, Pos2Nat.inj_xO.
    replace (2 * Pos.to_nat p)%nat with (Pos.to_nat p + Pos.to_nat p)%nat by lia.
    rewrite Nat.iter_add. reflexivity.
  - reflexivity.
Qed.

Lemma shr_exact m e n :
  0 <= n ->
  shr {| shr_m := Z.pos (shift_left m n); shr_r := false; shr_s := false |} e n
  = ({| shr_m := Z.pos m; shr_r := false; shr_s := false |}, e + n).
Proof.
  intros Hn. unfold shr. destruct n as [|p|p]; try lia.
  - rewrite Z.add_0_r. reflexivity.
  - f_equal. rewrite iter_pos_nat. unfold shift_left.
    change (Z.to_nat (Z.pos p)) with (Pos.to_nat p).
    induction (Pos.to_nat p) as [|k IH]; [reflexivity|].
    rewrite Nat.iter_succ_r. simpl. exact IH.
Qed.

(** Rounding a mantissa of 53 digits followed by zeros loses nothing. *)
Lemma shr_fexp_exact m e j :
  digits m = 53 -> 0 <= j -> -1074 <= e + j ->
  shr_fexp prec emax (Z.pos (shift_left m j)) e loc_Exact
  = ({| shr_m := Z.pos m; shr_r := false; shr_s := false |}, e + j).
Proof.
  intros Hd Hj He.
  pose proof (digits_shift_left m j Hj) as Hs. unfold digits in Hd, Hs.
  unfold shr_fexp, Zdigits2, fexp, SpecFloat.emin, prec, emax.
  rewrite Hs, Hd.
  replace (Z.max (53 + j + e - 53) (3 - 1024 - 53) - e) with j by lia.
  apply shr_exact, Hj.
Qed.

Lemma round_aux_exact s m e j :
  digits m = 53 -> 0 <= j -> -1074 <= e + j <= 971 ->
  binary_round_aux prec emax s (Z.pos (shift_left m j)) e loc_Exact
  = S754_finite s m (e + j).
Proof.
  intros Hd Hj He. unfold binary_round_aux.
  rewrite shr_fexp_exact by lia.
  cbn [shr_m shr_r shr_s loc_of_shr_record round_nearest_even].
  change (Z.pos m) with (Z.pos (shift_left m 0)) at 1.
  rewrite shr_fexp_exact by lia.
  cbn [shr_m]. rewrite Z.add_0_r.
  unfold prec, emax. destruct (Z.leb_spec (e + j) (1024 - 53)); [reflexivity | lia].
Qed.

(** The Number nearest to [q * 2 ^ k], for [q] below [2 ^ 53], is [q * 2 ^ k]
    in its canonical form. *)
Lemma round_safe s q k :
  digits q <= 53 -> 0 <= k ->
  binary_round prec emax s (shift_left q k) (- k)
  = S754_finite s (shift_left q (53 - digits q)) (digits q - 53).
Proof.
  intros Hq Hk. pose proof (digits_pos q) as Hq1.
  pose proof (digits_shift_left q k Hk) as Hs.
  assert (Hc : digits (shift_left q (53 - digits q)) = 53)
    by (rewrite digits_shift_left; lia).
  unfold binary_round.
  unfold digits in Hs at 1. rewrite Hs.
  replace (fexp prec emax (digits q + k + - k)) with (digits q - 53)
    by (unfold fexp, SpecFloat.emin, prec, emax; lia).
  unfold shl_align.
  destruct (digits q - 53 - - k) as [|d|d] eqn:Hj.
  - replace k with (53 - digits q) by lia.
    replace (- (53 - digits q)) with (digits q - 53 + 0) by lia.
    change (shift_left q (53 - digits q))
      with (shift_left (shift_left q (53 - digits q)) 0) at 1.
    rewrite round_aux_exact by lia. f_equal; lia.
  - replace (shift_left q k)
      with (shift_left (shift_left q (53 - digits q)) (Z.pos d))
      by (rewrite shift_left_add by lia; f_equal; lia).
    rewrite round_aux_exact by lia. f_equal; lia.
  - rewrite iter_xO, shift_left_add by lia.
    replace (k + Z.pos d) with (53 - digits q) by lia.
    change (shift_left q (53 - digits q))
      with (shift_left (shift_left q (53 - digits q)) 0) at 1.
    rewrite round_aux_exact by lia. f_equal; lia.
Qed.

Lemma normalize_safe z k :
  safe z -> 0 <= k ->
  binary_normalize prec emax (z * 2 ^ k) (- k) false = safe_integer z.
Proof.
  intros Hz Hk. unfold safe in Hz. destruct z as [|q|q]; [reflexivity| |].
  - rewrite <- shift_left_value by lia. cbn [binary_normalize safe_integer].
    apply round_safe; [apply digits_safe; lia | lia].
  - replace (Z.neg q * 2 ^ k) with (Z.neg (shift_left q k))
      by (rewrite <- Pos2Z.opp_pos, shift_left_value by lia; lia).
    cbn [binary_normalize safe_integer].
    apply round_safe; [apply digits_safe; lia | lia].
Qed.

Lemma safe_integer_valid z : safe z -> valid_binary (safe_integer z) = true.
Proof.
  intros Hz. unfold safe in Hz. destruct z as [|q|q]; [reflexivity| |].
  all: assert (Hq : digits q <= 53) by (apply digits_safe; lia).
  all: pose proof (digits_pos q) as Hq1.
  all: assert (Hc : digits (shift_left q (53 - digits q)) = 53)
         by (rewrite digits_shift_left; lia).
  all: unfold digits in Hc at 1.
  all: cbn [safe_integer valid_binary]; unfold bounded, canonical_mantissa.
  all: rewrite Hc; unfold fexp, SpecFloat.emin, prec, emax.
  all: apply andb_true_intro; split; [apply Z.eqb_eq | apply Z.leb_le]; lia.
Qed.

(** [of_Z] on a safe integer. *)
Lemma Prim2SF_of_Z z : safe z -> Prim2SF (of_Z z) = safe_integer z.
Proof.
  intros Hz. unfold of_Z.
  replace z with (z * 2 ^ 0) at 1 by lia.
  change 0 with (- 0) at 2.
  rewrite normalize_safe by (done || lia).
  apply Prim2SF_SF2Prim, safe_integer_valid, Hz.
Qed.

Lemma of_Z_safe_integer z : safe z -> of_Z z = SF2Prim (safe_integer z).
Proof.
  intros Hz. rewrite <- (Prim2SF_of_Z z Hz). symmetry. apply SF2Prim_Prim2SF.
Qed.

(** *** Sums and differences *)

Lemma align_value s q ez :
  digits q <= 53 -> ez <= digits q - 53 ->
  cond_Zopp s
    (Z.pos (fst (shl_align (shift_left q (53 - digits q)) (digits q - 53) ez)))
  = signed s q * 2 ^ (- ez).
Proof.
  intros Hq He. pose proof (digits_pos q) as Hq1.
  assert (Hv : Z.pos (fst (shl_align (shift_left q (53 - digits q))
                             (digits q - 53) ez)) = Z.pos q * 2 ^ (- ez)).
  { unfold shl_align. destruct (ez - (digits q - 53)) as [|d|d] eqn:Hd; try lia.
    - cbn [fst]. rewrite shift_left_value by lia. do 2 f_equal. lia.
    - cbn [fst]. rewrite iter_xO, shift_left_add, shift_left_value by lia.
      do 2 f_equal. lia. }
  rewrite Hv. destruct s; cbn [cond_Zopp signed]; lia.
Qed.

Lemma safe_integer_signed s q :
  safe_integer (signed s q)
  = S754_finite s (shift_left q (53 - digits q)) (digits q - 53).
Proof. destruct s; reflexivity. Qed.

Lemma SFadd_safe a b :
  safe a -> safe b -> safe (a + b) ->
  SFadd prec emax (safe_integer a) (safe_integer b) = safe_integer (a + b).
Proof.
  intros Ha Hb Hab.
  destruct (decide (a = 0)) as [->|Ha0].
  { destruct b; reflexivity. }
  destruct (decide (b = 0)) as [->|Hb0].
  { rewrite Z.add_0_r. destruct a; reflexivity. }
  assert (Hsa : exists s q, a = signed s q /\ digits q <= 53).
  { unfold safe in Ha. destruct a as [|q|q]; [done| |].
    - exists false, q. split; [done|]. apply digits_safe. lia.
    - exists true, q. split; [done|]. apply digits_safe. lia. }
  assert (Hsb : exists s q, b = signed s q /\ digits q <= 53).
  { unfold safe in Hb. destruct b as [|q|q]; [done| |].
    - exists false, q. split; [done|]. apply digits_safe. lia.
    - exists true, q. split; [done|]. apply digits_safe. lia. }
  destruct Hsa as (sa & qa & -> & Hqa), Hsb as (sb & qb & -> & Hqb).
  pose proof (digits_pos qa). pose proof (digits_pos qb).
  rewrite !safe_integer_signed. cbn [SFadd].
  rewrite !align_value by lia.
  rewrite <- Z.mul_add_distr_r.
  set (k := - Z.min (digits qa - 53) (digits qb - 53)).
  replace (Z.min (digits qa - 53) (digits qb - 53)) with (- k) by lia.
  apply normalize_safe; [done | lia].
Qed.

Lemma SFsub_safe a b :
  safe a -> safe b -> safe (a - b) ->
  SFsub prec emax (safe_integer a) (safe_integer b) = safe_integer (a - b).
Proof.
  intros Ha Hb Hab.
  destruct (decide (b = 0)) as [->|Hb0].
  { rewrite Z.sub_0_r. destruct a; reflexivity. }
  destruct (decide (a = 0)) as [->|Ha0].
  { destruct b; reflexivity. }
  assert (Hsa : exists s q, a = signed s q /\ digits q <= 53).
  { unfold safe in Ha. destruct a as [|q|q]; [done| |].
    - exists false, q. split; [done|]. apply digits_safe. lia.
    - exists true, q. split; [done|]. apply digits_safe. lia. }
  assert (Hsb : exists s q, b = signed s q /\ digits q <= 53).
  { unfold safe in Hb. destruct b as [|q|q]; [done| |].
    - exists false, q. split; [done|]. apply digits_safe. lia.
    - exists true, q. split; [done|]. apply digits_safe. lia. }
  destruct Hsa as (sa & qa & -> & Hqa), Hsb as (sb & qb & -> & Hqb).
  pose proof (digits_pos qa). pose proof (digits_pos qb).
  rewrite !safe_integer_signed. cbn [SFsub].
  rewrite !align_value by lia.
  rewrite <- Z.mul_sub_distr_r.
  set (k := - Z.min (digits qa - 53) (digits qb - 53)).
  replace (Z.min (digits qa - 53) (digits qb - 53)) with (- k) by lia.
  apply normalize_safe; [done | lia].
Qed.

(** *** Comparisons *)

Lemma compare_canonical p q :
  digits p <= 53 -> digits q <= 53 ->
  match digits p - 53 ?= digits q - 53 with
  | Lt => Lt
  | Gt => Gt
  | Eq => Pos.compare_cont Eq (shift_left p (53 - digits p))
            (shift_left q (53 - digits q))
  end = (p ?= q)%positive.
Proof.
  intros Hp Hq. pose proof (digits_pos p). pose proof (digits_pos q).
  change (p ?= q)%positive with (Z.pos p ?= Z.pos q).
  destruct (Z.compare_spec (digits p - 53) (digits q - 53)) as [He|He|He].
  - change (Pos.compare_cont Eq ?a ?b) with (Z.pos a ?= Z.pos b).
    rewrite !shift_left_value by lia.
    replace (digits q) with (digits p) by lia.
    symmetry. apply Zmult_compare_compat_r.
    apply Z.lt_gt, Z.pow_pos_nonneg; lia.
  - symmetry. apply Z.compare_lt_iff.
    rewrite !digits_log2 in He. apply Z.log2_lt_cancel. lia.
  - symmetry. apply Z.compare_gt_iff.
    rewrite !digits_log2 in He. apply Z.log2_lt_cancel. lia.
Qed.

Lemma SFcompare_safe a b :
  safe a -> safe b ->
  SFcompare (safe_integer a) (safe_integer b) = Some (a ?= b).
Proof.
  unfold safe. intros Ha Hb.
  destruct a as [|p|p], b as [|q|q]; try reflexivity.
  all: assert (Hp : digits p <= 53) by (apply digits_safe; lia).
  all: assert (Hq : digits q <= 53) by (apply digits_safe; lia).
  all: cbn [safe_integer SFcompare Z.compare]; f_equal.
  - apply compare_canonical; done.
  - rewrite <- (compare_canonical p q Hp Hq).
    destruct (digits p - 53 ?= digits q - 53); reflexivity.
Qed.

(** *** The same facts on Numbers *)

Lemma of_Z_add a b :
  safe a -> safe b -> safe (a + b) -> (of_Z a + of_Z b)%float = of_Z (a + b).
Proof.
  intros Ha Hb Hab. apply Prim2SF_inj.
  rewrite add_spec, !Prim2SF_of_Z by done. apply SFadd_safe; done.
Qed.

Lemma of_Z_sub a b :
  safe a -> safe b -> safe (a - b) -> (of_Z a - of_Z b)%float = of_Z (a - b).
Proof.
  intros Ha Hb Hab. apply Prim2SF_inj.
  rewrite sub_spec, !Prim2SF_of_Z by done. apply SFsub_safe; done.
Qed.

Lemma of_Z_eqb a b : safe a -> safe b -> (of_Z a =? of_Z b)%float = (a =? b).
Proof.
  intros Ha Hb. rewrite FloatAxioms.eqb_spec, !Prim2SF_of_Z by done.
  unfold SFeqb. rewrite SFcompare_safe by done.
  destruct (Z.compare_spec a b), (Z.eqb_spec a b); (done || lia).
Qed.

Lemma of_Z_ltb a b : safe a -> safe b -> (of_Z a <? of_Z b)%float = (a <? b).
Proof.
  intros Ha Hb. rewrite FloatAxioms.ltb_spec, !Prim2SF_of_Z by done.
  unfold SFltb. rewrite SFcompare_safe by done. reflexivity.
Qed.

Lemma of_Z_leb a b : safe a -> safe b -> (of_Z a <=? of_Z b)%float = (a <=? b).
Proof.
  intros Ha Hb. rewrite FloatAxioms.leb_spec, !Prim2SF_of_Z by done.
  unfold SFleb. rewrite SFcompare_safe by done.
  unfold Z.leb. destruct (a ?= b); reflexivity.
Qed.

Lemma of_Z_isNaN a : safe a -> isNaN (of_Z a) = false.
Proof.
  intros Ha. unfold isNaN. rewrite of_Z_eqb, Z.eqb_refl by done. reflexivity.
Qed.

Lemma of_Z_not_number a : safe a -> not_number (of_Z a) = (a =? 0).
Proof.
  intros Ha. unfold not_number. rewrite of_Z_isNaN, orb_false_r by done.
  change 0%float with (of_Z 0). apply of_Z_eqb; [done | unfold safe; lia].
Qed.

Lemma to_integer_of_Z a : safe a -> to_integer (of_Z a) = a.
Proof.
  intros Ha. unfold to_integer. rewrite Prim2SF_of_Z by done.
  unfold safe in Ha. destruct a as [|q|q]; [reflexivity| |].
  all: assert (Hq : digits q <= 53) by (apply digits_safe; lia).
  all: pose proof (digits_pos q); cbn [safe_integer].
  all: rewrite Z.shiftl_div_pow2 by lia.
  all: replace (- (digits q - 53)) with (53 - digits q) by lia.
  - rewrite shift_left_value by lia. apply Z.div_mul.
    apply Z.pow_nonzero; lia.
  - rewrite <- Pos2Z.opp_pos, shift_left_value, <- Z.mul_opp_l by lia.
    rewrite Z.div_mul by (apply Z.pow_nonzero; lia). reflexivity.
Qed.

(** *** Products *)

Lemma digits_mul p q : digits p + digits q - 1 <= digits (p * q).
Proof.
  rewrite !digits_log2, Pos2Z.inj_mul.
  pose proof (Z.log2_mul_below (Z.pos p) (Z.pos q)). lia.
Qed.

Lemma SFmul_safe a b :
  0 <= a -> 0 <= b -> a * b < 2 ^ 53 ->
  SFmul prec emax (safe_integer a) (safe_integer b) = safe_integer (a * b).
Proof.
  intros Ha Hb Hab.
  destruct a as [|p|p]; [by destruct b|..]; try lia.
  destruct b as [|q|q]; [by rewrite Z.mul_0_r|..]; try lia.
  assert (Hpq : digits (p * q) <= 53) by (apply digits_safe; lia).
  pose proof (digits_mul p q) as Hd.
  pose proof (digits_pos p). pose proof (digits_pos q).
  assert (Hp : digits p <= 53) by lia.
  assert (Hq : digits q <= 53) by lia.
  change (Z.pos p * Z.pos q) with (Z.pos (p * q)).
  cbn [safe_integer SFmul xorb].
  set (c := shift_left (p * q)%positive (53 - digits (p * q))).
  set (j := 53 - digits p - digits q + digits (p * q)).
  replace (shift_left p (53 - digits p) * shift_left q (53 - digits q))%positive
    with (shift_left c j).
  - assert (Hc : digits c = 53) by (unfold c; rewrite digits_shift_left; lia).
    rewrite round_aux_exact by (unfold j; lia).
    f_equal. unfold j. lia.
  - apply Pos2Z.inj. unfold c.
    rewrite Pos2Z.inj_mul, !shift_left_value by (unfold j; lia).
    rewrite Pos2Z.inj_mul.
    transitivity (Z.pos p * Z.pos q * 2 ^ (53 - digits (p * q) + j)).
    + rewrite Z.pow_add_r by (unfold j; lia). lia.
    + replace (53 - digits (p * q) + j)
        with ((53 - digits p) + (53 - digits q)) by (unfold j; lia).
      rewrite Z.pow_add_r by lia. lia.
Qed.

Lemma of_Z_mul a b :
  0 <= a < 2 ^ 53 -> 0 <= b < 2 ^ 53 -> a * b < 2 ^ 53 ->
  (of_Z a * of_Z b)%float = of_Z (a * b).
Proof.
  intros Ha Hb Hab. apply Prim2SF_inj.
  rewrite mul_spec, !Prim2SF_of_Z by (unfold safe; nia).
  apply SFmul_safe; lia.
Qed.

(** *** Quotients, rounded down

    The quotient of two positive integers below [2 ^ 53] is rounded to a
    Number whose integer part is the integer part of the exact quotient. *)

Lemma loc_of_record m l : loc_of_shr_record (shr_record_of_loc m l) = l.
Proof. by destruct l as [|[]]. Qed.

Lemma shr_m_of_loc m l : shr_m (shr_record_of_loc m l) = m.
Proof. by destruct l as [|[]]. Qed.

Lemma round_cases m l :
  round_nearest_even m l = m \/ round_nearest_even m l = m + 1.
Proof. destruct l as [|[]]; simpl; auto. destruct (Z.even m); auto. Qed.

Lemma digits_bounds p d :
  2 ^ (d - 1) <= Z.pos p < 2 ^ d -> 1 <= d -> digits p = d.
Proof.
  intros Hp Hd. rewrite digits_log2.
  rewrite (Z.log2_unique (Z.pos p) (d - 1)); [lia|lia|].
  replace (Z.succ (d - 1)) with d by lia. done.
Qed.

(** The second shift of [binary_round_aux], on a mantissa from [2 ^ 52] to
    [2 ^ 53]. *)
Lemma shr_fexp_second q1 e :
  2 ^ 52 <= Z.pos q1 <= 2 ^ 53 -> -1074 <= e ->
  exists m j,
    digits m = 53 /\ 0 <= j <= 1 /\ Z.pos m * 2 ^ j = Z.pos q1
    /\ shr_fexp prec emax (Z.pos q1) e loc_Exact
       = ({| shr_m := Z.pos m; shr_r := false; shr_s := false |}, e + j).
Proof.
  intros Hq He. destruct (Z.eq_dec (Z.pos q1) (2 ^ 53)) as [Heq|Hne].
  - exists 4503599627370496%positive, 1.
    assert (q1 = shift_left 4503599627370496 1) as ->
      by (apply Pos2Z.inj; rewrite Heq; reflexivity).
    split; [reflexivity|]. split; [lia|]. split; [reflexivity|].
    apply shr_fexp_exact; [reflexivity | lia | lia].
  - exists q1, 0.
    assert (Hd : digits q1 = 53) by (apply digits_bounds; lia).
    split; [done|]. split; [lia|]. split; [lia|].
    change (Z.pos q1) with (Z.pos (shift_left q1 0)).
    apply shr_fexp_exact; [done | lia | lia].
Qed.

(** Rounding a quotient of 53 or 54 bits: the result is at most one unit of
    the last place of the quotient away from it, and below it only when the
    quotient is odd. *)
Lemma round_aux_quotient pq e l :
  2 ^ 52 <= Z.pos pq < 2 ^ 54 -> -1074 <= e <= 900 ->
  exists m eF,
    binary_round_aux prec emax false (Z.pos pq) e l = S754_finite false m eF
    /\ digits m = 53 /\ e <= eF <= e + 2
    /\ (Z.pos m * 2 ^ (eF - e) = Z.pos pq
        \/ Z.pos m * 2 ^ (eF - e) = Z.pos pq + 1
        \/ (Z.pos m * 2 ^ (eF - e) = Z.pos pq - 1 /\ Z.odd (Z.pos pq) = true)).
Proof.
  intros Hq He. unfold binary_round_aux.
  destruct (Z.lt_ge_cases (Z.pos pq) (2 ^ 53)) as [Hlt|Hge].
  - assert (Hd : digits pq = 53) by (apply digits_bounds; lia).
    unfold digits in Hd.
    assert (H1 : shr_fexp prec emax (Z.pos pq) e l
                 = (shr_record_of_loc (Z.pos pq) l, e)).
    { unfold shr_fexp, Zdigits2. rewrite Hd.
      replace (fexp prec emax (53 + e) - e) with 0
        by (unfold fexp, SpecFloat.emin, prec, emax; lia).
      reflexivity. }
    rewrite H1, shr_m_of_loc, loc_of_record.
    assert (Hr : exists q1, round_nearest_even (Z.pos pq) l = Z.pos q1
                            /\ (Z.pos q1 = Z.pos pq \/ Z.pos q1 = Z.pos pq + 1)).
    { destruct (round_cases (Z.pos pq) l) as [->| ->].
      - exists pq. auto.
      - exists (pq + 1)%positive. split; [reflexivity|]. right. lia. }
    destruct Hr as (q1 & -> & Hq1).
    destruct (shr_fexp_second q1 e) as (m & j & Hm & Hj & Hv & ->); [lia|lia|].
    cbn [shr_m]. exists m, (e + j).
    replace (e + j <=? emax - prec) with true
      by (symmetry; apply Z.leb_le; unfold emax, prec; lia).
    split; [done|]. split; [done|]. split; [lia|].
    replace (e + j - e) with j by lia. rewrite Hv. lia.
  - assert (Hd : digits pq = 54) by (apply digits_bounds; lia).
    unfold digits in Hd.
    assert (H1 : shr_fexp prec emax (Z.pos pq) e l
                 = (shr_1 (shr_record_of_loc (Z.pos pq) l), e + 1)).
    { unfold shr_fexp, Zdigits2. rewrite Hd.
      replace (fexp prec emax (54 + e) - e) with 1
        by (unfold fexp, SpecFloat.emin, prec, emax; lia).
      reflexivity. }
    rewrite H1.
    assert (Hr : exists q1,
               round_nearest_even
                 (shr_m (shr_1 (shr_record_of_loc (Z.pos pq) l)))
                 (loc_of_shr_record (shr_1 (shr_record_of_loc (Z.pos pq) l)))
               = Z.pos q1
               /\ (2 * Z.pos q1 = Z.pos pq
                   \/ (Z.odd (Z.pos pq) = true
                       /\ (2 * Z.pos q1 = Z.pos pq - 1
                           \/ 2 * Z.pos q1 = Z.pos pq + 1)))).
    { destruct pq as [p|p|]; [| |lia].
      - destruct l as [|[]]; cbn [shr_record_of_loc shr_1 shr_m orb
                                   loc_of_shr_record round_nearest_even].
        + destruct (Z.even (Z.pos p)).
          * exists p. split; [done|]. right. split; [done|]. left. lia.
          * exists (p + 1)%positive. split; [done|]. right.
            split; [done|]. right. lia.
        + exists (p + 1)%positive. split; [done|]. right.
          split; [done|]. right. lia.
        + exists (p + 1)%positive. split; [done|]. right.
          split; [done|]. right. lia.
        + exists (p + 1)%positive. split; [done|]. right.
          split; [done|]. right. lia.
      - exists p. split; [|left; lia].
        destruct l as [|[]]; reflexivity. }
    destruct Hr as (q1 & -> & Hq1).
    destruct (shr_fexp_second q1 (e + 1)) as (m & j & Hm & Hj & Hv & ->);
      [lia|lia|].
    cbn [shr_m]. exists m, (e + 1 + j).
    replace (e + 1 + j <=? emax - prec) with true
      by (symmetry; apply Z.leb_le; unfold emax, prec; lia).
    split; [done|]. split; [done|]. split; [lia|].
    replace (e + 1 + j - e) with (j + 1) by lia.
    rewrite Z.pow_add_r, Z.mul_assoc, Hv, Z.pow_1_r by lia.
    destruct Hq1 as [H|[Ho [H|H]]];
      [left; lia | right; right; split; [lia|done] | right; left; lia].
Qed.

(** The quotient [q] of [t * 2 ^ j] by [m], for [m < 2 ^ j], does not end in
    [j] ones; so neither the step up from [q] nor the step down from an odd
    [q] changes the integer part of [q / 2 ^ j], which is that of [t / m]. *)
Lemma floor_of_rounded t m j N :
  0 < t -> 0 < m < 2 ^ j -> 1 <= j ->
  let q := t * 2 ^ j / m in
  N = q \/ N = q + 1 \/ (N = q - 1 /\ Z.odd q = true) ->
  N / 2 ^ j = t / m.
Proof.
  intros Ht Hm Hj q HN.
  assert (Hp : 0 < 2 ^ j) by (apply Z.pow_pos_nonneg; lia).
  assert (Hq : q / 2 ^ j = t / m).
  { unfold q. rewrite Z.div_div by lia.
    rewrite Z.div_mul_cancel_r by lia. done. }
  pose proof (Z.div_mod q (2 ^ j) ltac:(lia)) as Hdm.
  pose proof (Z.mod_pos_bound q (2 ^ j) Hp) as Hb.
  set (a := q / 2 ^ j) in *. set (u := q mod 2 ^ j) in *.
  rewrite <- Hq.
  destruct HN as [->|[->|[-> Hodd]]]; [done| |].
  - assert (Hu : u <> 2 ^ j - 1).
    { intros Hu.
      pose proof (Z.div_mod (t * 2 ^ j) m ltac:(lia)) as Hdm'.
      pose proof (Z.mod_pos_bound (t * 2 ^ j) m ltac:(lia)) as Hb'.
      fold q in Hdm'. set (r := (t * 2 ^ j) mod m) in *.
      assert (Hw : 2 ^ j * ((a + 1) * m - t) = m - r) by nia.
      assert (Hw1 : 1 <= (a + 1) * m - t) by nia.
      nia. }
    symmetry. apply (Z.div_unique _ _ a (u + 1)); lia.
  - assert (Hu : u <> 0).
    { intros Hu. rewrite Hu, Z.add_0_r in Hdm.
      rewrite Hdm in Hodd.
      replace (2 ^ j) with (2 * 2 ^ (j - 1)) in Hodd
        by (rewrite <- Z.pow_succ_r by lia; f_equal; lia).
      rewrite <- Z.mul_assoc, Z.odd_mul in Hodd. done. }
    symmetry. apply (Z.div_unique _ _ a (u - 1)); lia.
Qed.

Lemma SFdiv_floor pt pm :
  Z.pos pt < 2 ^ 53 -> Z.pos pm < 2 ^ 53 ->
  exists m eF,
    SFdiv prec emax (safe_integer (Z.pos pt)) (safe_integer (Z.pos pm))
    = S754_finite false m eF
    /\ digits m = 53 /\ Z.shiftl (Z.pos m) eF = Z.pos pt / Z.pos pm.
Proof.
  intros Ht Hm.
  assert (Hdt : digits pt <= 53) by (by apply digits_safe).
  assert (Hdm : digits pm <= 53) by (by apply digits_safe).
  pose proof (digits_pos pt) as Hdt1. pose proof (digits_pos pm) as Hdm1.
  set (T := shift_left pt (53 - digits pt)).
  set (M := shift_left pm (53 - digits pm)).
  assert (HT : digits T = 53) by (unfold T; rewrite digits_shift_left; lia).
  assert (HM : digits M = 53) by (unfold M; rewrite digits_shift_left; lia).
  set (j := 53 - digits pt + digits pm).
  cbn [safe_integer SFdiv xorb]. fold T M.
  unfold SFdiv_core_binary, Zdigits2.
  unfold digits in HT, HM. rewrite HT, HM.
  replace (Z.min
             (fexp prec emax (53 + (digits pt - 53) - (53 + (digits pm - 53))))
             (digits pt - 53 - (digits pm - 53)))
    with (- j) by (unfold fexp, SpecFloat.emin, prec, emax, j; lia).
  replace (digits pt - 53 - (digits pm - 53) - - j) with 53 by (unfold j; lia).
  rewrite Z.shiftl_mul_pow2 by lia.
  (* the quotient *)
  assert (HTv : Z.pos T = Z.pos pt * 2 ^ (53 - digits pt))
    by (unfold T; apply shift_left_value; lia).
  assert (HMv : Z.pos M = Z.pos pm * 2 ^ (53 - digits pm))
    by (unfold M; apply shift_left_value; lia).
  assert (Hnum : Z.pos T * 2 ^ 53
                 = Z.pos pt * 2 ^ j * 2 ^ (53 - digits pm)).
  { rewrite HTv, <- !Z.mul_assoc, <- !Z.pow_add_r by (unfold j; lia).
    do 2 f_equal. unfold j. lia. }
  pose proof (Z_div_mod (Z.pos T * 2 ^ 53) (Z.pos M) ltac:(lia)) as Hde.
  assert (Hquo : (Z.pos T * 2 ^ 53) / Z.pos M = Z.pos pt * 2 ^ j / Z.pos pm).
  { rewrite Hnum, HMv. apply Z.div_mul_cancel_r; [lia|].
    apply Z.pow_nonzero; lia. }
  unfold Z.div in Hquo at 1.
  destruct (Z.div_eucl (Z.pos T * 2 ^ 53) (Z.pos M)) as [q r].
  cbn [fst] in Hquo. destruct Hde as [Hde Hr].
  (* its size *)
  assert (Hpt : 2 ^ (digits pt - 1) <= Z.pos pt < 2 ^ digits pt).
  { rewrite digits_log2.
    pose proof (Z.log2_spec (Z.pos pt) ltac:(lia)) as H.
    replace (Z.log2 (Z.pos pt) + 1 - 1) with (Z.log2 (Z.pos pt)) by lia.
    replace (Z.log2 (Z.pos pt) + 1) with (Z.succ (Z.log2 (Z.pos pt))) by lia.
    done. }
  assert (Hpm : 2 ^ (digits pm - 1) <= Z.pos pm < 2 ^ digits pm).
  { rewrite digits_log2.
    pose proof (Z.log2_spec (Z.pos pm) ltac:(lia)) as H.
    replace (Z.log2 (Z.pos pm) + 1 - 1) with (Z.log2 (Z.pos pm)) by lia.
    replace (Z.log2 (Z.pos pm) + 1) with (Z.succ (Z.log2 (Z.pos pm))) by lia.
    done. }
  assert (Hj : digits pm <= j) by (unfold j; lia).
  assert (Hmj : Z.pos pm < 2 ^ j).
  { eapply Z.lt_le_trans; [apply Hpm|]. apply Z.pow_le_mono_r; lia. }
  assert (Hnb : 2 ^ 52 * 2 ^ digits pm <= Z.pos pt * 2 ^ j
                /\ Z.pos pt * 2 ^ j < 2 ^ 54 * 2 ^ (digits pm - 1)).
  { assert (E1 : 2 ^ 52 * 2 ^ digits pm = 2 ^ (digits pt - 1) * 2 ^ j).
    { rewrite <- !Z.pow_add_r by lia. f_equal. unfold j. lia. }
    assert (E2 : 2 ^ 54 * 2 ^ (digits pm - 1) = 2 ^ digits pt * 2 ^ j).
    { rewrite <- !Z.pow_add_r by lia. f_equal. unfold j. lia. }
    rewrite E1, E2.
    assert (0 < 2 ^ j) by (apply Z.pow_pos_nonneg; lia). nia. }
  assert (Hqb : 2 ^ 52 <= q < 2 ^ 54).
  { pose proof (Z.div_mod (Z.pos pt * 2 ^ j) (Z.pos pm) ltac:(lia)) as Hd.
    pose proof (Z.mod_pos_bound (Z.pos pt * 2 ^ j) (Z.pos pm) ltac:(lia)) as Hb.
    rewrite <- Hquo in Hd.
    set (A := 2 ^ digits pm) in *. set (B := 2 ^ (digits pm - 1)) in *.
    assert (0 < B) by (apply Z.pow_pos_nonneg; lia).
    set (X := Z.pos pt * 2 ^ j) in *. set (R := X mod Z.pos pm) in *.
    split; nia. }
  destruct q as [|pq|pq]; [lia| |lia].
  destruct (round_aux_quotient pq (- j) (new_location (Z.pos M) r))
    as (m & eF & -> & Hmd & HeF & HN); [done | unfold j; lia |].
  exists m, eF. split; [done|]. split; [done|].
  assert (HNq : Z.pos m * 2 ^ (eF - - j) / 2 ^ j = Z.pos pt / Z.pos pm).
  { apply floor_of_rounded; [lia | lia | unfold j; lia |].
    rewrite <- Hquo. exact HN. }
  rewrite <- HNq.
  destruct (Z.le_gt_cases 0 eF) as [Hpos|Hneg].
  - rewrite Z.shiftl_mul_pow2 by lia.
    replace (eF - - j) with (eF + j) by lia.
    rewrite Z.pow_add_r, Z.mul_assoc by lia.
    rewrite Z.div_mul by (apply Z.pow_nonzero; lia). done.
  - rewrite Z.shiftl_div_pow2 by lia.
    replace (2 ^ j) with (2 ^ (- eF) * 2 ^ (eF - - j))
      by (rewrite <- Z.pow_add_r by lia; f_equal; lia).
    rewrite Z.div_mul_cancel_r; [done| |]; apply Z.pow_nonzero; lia.
Qed.

(** The Number of a quotient, as a representation: its integer part, and,
    when it has no fractional bits, itself. *)
Lemma of_Z_div_floor t m :
  0 < t < 2 ^ 53 -> 0 < m < 2 ^ 53 ->
  exists s mF eF,
    Prim2SF (of_Z t / of_Z m) = S754_finite s mF eF
    /\ Z.shiftl (if s then Z.neg mF else Z.pos mF) eF = t / m
    /\ (0 <= eF -> (of_Z t / of_Z m)%float = of_Z (t / m)).
Proof.
  intros Ht Hm.
  destruct t as [|pt|pt]; try lia. destruct m as [|pm|pm]; try lia.
  rewrite div_spec, !Prim2SF_of_Z by (unfold safe; lia).
  destruct (SFdiv_floor pt pm) as (mF & eF & HF & Hd & Hfl); [lia|lia|].
  exists false, mF, eF. split; [done|]. split; [done|].
  intros HeF. apply Prim2SF_inj.
  assert (Hk : 0 <= Z.pos pt / Z.pos pm <= Z.pos pt).
  { split; [apply Z.div_pos; lia|].
    apply Z.div_le_upper_bound; [lia|]. nia. }
  rewrite div_spec, !Prim2SF_of_Z by (unfold safe; lia).
  unfold SF64div. rewrite HF. rewrite <- Hfl in Hk |- *.
  rewrite Z.shiftl_mul_pow2 in Hk |- * by lia.
  assert (Hmb : 2 ^ 52 <= Z.pos mF).
  { rewrite digits_log2 in Hd.
    pose proof (Z.log2_spec (Z.pos mF) ltac:(lia)) as H.
    replace (Z.log2 (Z.pos mF)) with 52 in H by lia. lia. }
  assert (eF = 0) as ->.
  { destruct (Z.eq_dec eF 0); [done|].
    assert (2 <= 2 ^ eF).
    { change 2 with (2 ^ 1) at 1. apply Z.pow_le_mono_r; lia. }
    nia. }
  rewrite Z.mul_1_r. cbn [safe_integer]. rewrite Hd. reflexivity.
Qed.

End SafeIntegers.

(** ** Comparisons of Numbers with zero *)

Section Numbers.

(** A Number that is neither zero nor [NaN] and is not [<= 0] is [> 0]. *)
Lemma positive_number (x : float) :
  JS.not_number x = false → (x <=? 0)%float = false → (0 <? x)%float = true.
Proof.
  unfold JS.not_number, JS.isNaN.
  rewrite FloatAxioms.leb_spec, FloatAxioms.ltb_spec, !FloatAxioms.eqb_spec.
  change (Prim2SF 0) with (S754_zero false).
  destruct (Prim2SF x) as [[]|[]| |[] m e]; cbn; congruence.
Qed.

Lemma nan_not_number : JS.not_number nan = true.
Proof. reflexivity. Qed.

Lemma zero_not_number (neg : bool) :
  JS.not_number (if neg then neg_zero else PrimFloat.zero) = true.
Proof. by destruct neg. Qed.

End Numbers.

(** ** Properties of order execution *)

Section Execution.

Implicit Types (st : State) (quantity price : float) (now : Z).

(** An order that passes the guard has a symbol, a quantity that is neither
    zero nor [NaN] nor [<= 0], and a price that is neither zero nor [NaN]. *)
Lemma invalid_details_false symbol quantity price :
  invalid_details symbol quantity price = false →
  ∃ sym, symbol = Some sym ∧ sym ≠ ""
         ∧ JS.not_number quantity = false
         ∧ JS.not_number price = false
         ∧ (quantity <=? 0)%float = false.
Proof.
  unfold invalid_details. intros H.
  repeat (apply orb_false_iff in H as [H ?]).
  destruct symbol as [sym|]; [|done]. exists sym. simpl in H.
  apply bool_decide_eq_false in H. done.
Qed.

(** The three refusals are different alerts. *)
Lemma alerts_distinct :
  InvalidOrder ≠ InsufficientFunds ∧ InvalidOrder ≠ InsufficientHoldings
  ∧ InsufficientFunds ≠ InsufficientHoldings.
Proof. repeat split; discriminate. Qed.

Lemma listed_not_inherited sym : sym ∈ stockList → sym ∉ inherited_names.
Proof.
  unfold stockList. rewrite !elem_of_cons, elem_of_nil.
  intros H. destruct_or!; try done; subst sym;
    apply (bool_decide_unpack _); vm_compute; exact I.
Qed.

Lemma get_property_own {A} (object : gmap string A) name x :
  object !! name = Some x → get_property object name = Own x.
Proof. unfold get_property. by intros ->. Qed.

Lemma get_property_own_inv {A} (object : gmap string A) name x :
  get_property object name = Own x → object !! name = Some x.
Proof.
  unfold get_property. destruct (object !! name); [congruence|].
  by case_bool_decide.
Qed.


Lemma get_property_inherited {A} (object : gmap string A) name :
  get_property object name = Inherited ↔
  object !! name = None ∧ name ∈ inherited_names.
Proof.
  unfold get_property. destruct (object !! name).
  - split; [done|]. by intros [? _].
  - case_bool_decide; split; try done. by intros [_ ?].
Qed.

(** Every refusal returns the state it was given. *)
Lemma executeOrder_rejected st quantity price now msg :
  snd (executeOrder st quantity price now) = Rejected msg →
  fst (executeOrder st quantity price now) = st.
Proof.
  unfold executeOrder. repeat case_match; simpl; congruence.
Qed.

(** An execution is of the order it reports: the active symbol and side,
    the parsed quantity, the given price and clock, status "Executed". *)
Lemma executeOrder_executed st quantity price now st' o :
  executeOrder st quantity price now = (st', Executed o) →
  at_symbol (activeTrade st) = Some (o_symbol o)
  ∧ at_type (activeTrade st) = o_type o
  ∧ o_quantity o = quantity
  ∧ o_price o = price ∧ o_status o = "Executed" ∧ o_timestamp o = now
  ∧ invalid_details (at_symbol (activeTrade st)) quantity price = false
  ∧ activeTrade st' = activeTrade st
  ∧ baseCapital (portfolio st') = baseCapital (portfolio st)
  ∧ orders (portfolio st') = orders (portfolio st) ++ [o].
Proof.
  unfold executeOrder. intros H.
  destruct (invalid_details _ _ _) eqn:Hg; [discriminate|].
  destruct (invalid_details_false _ _ _ Hg) as (sym & Hs & _).
  rewrite Hs in H.
  repeat case_match; simplify_eq/=; done.
Qed.

(** An order that passes the guard and the check of its side is executed:
    the handler reports the order of the trade form, the fields and the
    clock. *)
Lemma executeOrder_covered st sym quantity price now :
  at_symbol (activeTrade st) = Some sym →
  invalid_details (Some sym) quantity price = false →
  covered st sym quantity price = true →
  snd (executeOrder st quantity price now)
  = Executed (order_of st sym quantity price now).
Proof.
  intros Hs Hg. unfold covered, executeOrder, order_of. rewrite Hs, Hg.
  destruct (at_type (activeTrade st)).
  - intros Hc%negb_true_iff. rewrite Hc. by case_match.
  - destruct (get_property _ sym) as [h| |]; [|done..].
    intros Hc%negb_true_iff. by rewrite Hc.
Qed.

(** C2 — Atomicity of rejection: whenever order execution refuses an order
    (invalid details, insufficient funds on BUY, insufficient holdings on
    SELL) the state it returns is the state it was given; in particular the
    available funds, the holdings and the order history are unchanged.  The
    handler [handleTradeExecution] is [executeOrder] on the parsed fields, so
    this covers every content of the form. *)
Theorem rejection_changes_nothing st quantity price now msg :
  snd (executeOrder st quantity price now) = Rejected msg →
  let st' := fst (executeOrder st quantity price now) in
  st' = st
  ∧ availableFunds (portfolio st') = availableFunds (portfolio st)
  ∧ holdings (portfolio st') = holdings (portfolio st)
  ∧ orders (portfolio st') = orders (portfolio st).
Proof.
  intros H st'. subst st'.
  rewrite (executeOrder_rejected _ _ _ _ _ H). done.
Qed.

(** A SELL refused for lack of holdings, on the initial ledger. *)
Lemma rejection_changes_nothing_witness :
  let st := openTradeModal initial_state "AAPL" SELL in
  snd (executeOrder st 3 214.2 0) = InsufficientHoldings
  ∧ fst (executeOrder st 3 214.2 0) = st.
Proof.
  split; [vm_compute; reflexivity|].
  apply (rejection_changes_nothing
           (openTradeModal initial_state "AAPL" SELL) 3%float 214.2%float 0
           "You do not own enough shares to sell.").
  vm_compute; reflexivity.
Defined.



End Execution.

(** ** What [parseInt] makes of a fraction *)

Section ParseInt.

Lemma digit_not_space c : JS.is_digit c = true → JS.is_space c = false.
Proof. destruct c as [[] [] [] [] [] [] [] []]; vm_compute; congruence. Qed.

Lemma digit_not_space2 c c2 : JS.is_digit c = true → JS.is_space2 c c2 = false.
Proof. destruct c as [[] [] [] [] [] [] [] []]; vm_compute; congruence. Qed.

Lemma digit_not_space3 c c2 c3 :
  JS.is_digit c = true → JS.is_space3 c c2 c3 = false.
Proof. destruct c as [[] [] [] [] [] [] [] []]; vm_compute; congruence. Qed.

Lemma trim_start_digit c r :
  JS.is_digit c = true → JS.trim_start (String c r) = String c r.
Proof.
  intros Hc. cbn [JS.trim_start]. rewrite (digit_not_space _ Hc).
  destruct r as [|c2 r2]; [done|]. rewrite (digit_not_space2 _ _ Hc).
  destruct r2 as [|c3 r3]; [done|]. by rewrite (digit_not_space3 _ _ _ Hc).
Qed.

Lemma digit_no_sign c r :
  JS.is_digit c = true → JS.read_sign (String c r) = (false, String c r).
Proof.
  destruct c as [[] [] [] [] [] [] [] []]; vm_compute; congruence.
Qed.

Lemma starts_with_2 a b s :
  JS.starts_with (String a (String b "")) s = true →
  ∃ r, s = String a (String b r).
Proof.
  unfold JS.starts_with. intros H%bool_decide_eq_true. simpl in H.
  destruct s as [|c [|d r]]; simpl in H; try discriminate.
  destruct r; simplify_eq; eauto.
Qed.

(** Reading digits stops at a character that is not one. *)
Lemma read_digits_stop ds c rest acc n :
  JS.all_digits ds = true → JS.is_digit c = false →
  JS.read_digits 10 (ds +:+ String c rest) acc n
  = (fst (fst (JS.read_digits 10 ds acc n)),
     snd (fst (JS.read_digits 10 ds acc n)), String c rest).
Proof.
  revert acc n. induction ds as [|d ds IH]; intros acc n Hds Hc; simpl.
  - unfold JS.is_digit in Hc. by destruct (JS.digit_value 10 c).
  - simpl in Hds. apply andb_true_iff in Hds as [Hd Hds].
    unfold JS.is_digit in Hd.
    destruct (JS.digit_value 10 d); [|done]. by apply IH.
Qed.

Lemma read_digits_count ds acc n :
  JS.all_digits ds = true →
  snd (fst (JS.read_digits 10 ds acc n)) = n + Z.of_nat (String.length ds).
Proof.
  revert acc n. induction ds as [|d ds IH]; intros acc n Hds; simpl.
  - lia.
  - simpl in Hds. apply andb_true_iff in Hds as [Hd Hds].
    unfold JS.is_digit in Hd.
    destruct (JS.digit_value 10 d); [|done]. rewrite IH by done. lia.
Qed.

(** A digit counts for at least 0, and so does the integer read. *)
Lemma digit_value_nonneg radix c d : JS.digit_value radix c = Some d → 0 ≤ d.
Proof.
  unfold JS.digit_value. intros H.
  repeat case_match; simplify_eq; lia.
Qed.

Lemma read_digits_nonneg radix s acc n :
  0 ≤ radix → 0 ≤ acc → 0 ≤ fst (fst (JS.read_digits radix s acc n)).
Proof.
  intros Hr. revert acc n. induction s as [|c s IH]; intros acc n Ha; simpl.
  - done.
  - destruct (JS.digit_value radix c) as [d|] eqn:Hd; [|done].
    apply IH. pose proof (digit_value_nonneg _ _ _ Hd). nia.
Qed.

Lemma parseInt_integer_nonneg s neg z :
  JS.parseInt_integer s None = Some (neg, z) → 0 ≤ z.
Proof.
  unfold JS.parseInt_integer.
  destruct (JS.read_sign (JS.trim_start s)) as [neg' s1].
  cbn [negb Z.eqb andb orb].
  destruct (JS.starts_with "0x" s1 || JS.starts_with "0X" s1).
  - pose proof (read_digits_nonneg 16
                  (String.substring 2 (String.length s1 - 2) s1) 0 0) as H.
    destruct (JS.read_digits 16 _ 0 0) as [[v n] r]. simpl in H.
    case_match; intros; simplify_eq. apply H; lia.
  - pose proof (read_digits_nonneg 10 s1 0 0) as H.
    destruct (JS.read_digits 10 s1 0 0) as [[v n] r]. simpl in H.
    case_match; intros; simplify_eq. apply H; lia.
Qed.

(** The integer read from digits alone, and from digits followed by a
    character that is no digit and no [x]. *)
Lemma parseInt_integer_digits ds :
  JS.all_digits ds = true → ds ≠ "" →
  JS.parseInt_integer ds None
  = Some (false, fst (fst (JS.read_digits 10 ds 0 0))).
Proof.
  intros Hds Hne. unfold JS.parseInt_integer.
  destruct ds as [|d ds']; [done|].
  assert (Hd : JS.is_digit d = true).
  { simpl in Hds. by apply andb_true_iff in Hds as [? _]. }
  rewrite trim_start_digit, digit_no_sign by done.
  cbn [negb Z.eqb andb orb].
  assert (Hx : JS.starts_with "0x" (String d ds')
               || JS.starts_with "0X" (String d ds') = false).
  { apply orb_false_iff.
    split; apply not_true_is_false; intros (r & Hr)%starts_with_2;
      simplify_eq; cbn [JS.all_digits] in Hds;
      apply andb_true_iff in Hds as [_ Hds];
      apply andb_true_iff in Hds as [Hb _]; vm_compute in Hb; done. }
  rewrite Hx.
  pose proof (read_digits_count (String d ds') 0 0 Hds) as Hc.
  destruct (JS.read_digits 10 (String d ds') 0 0) as [[v n] r].
  simpl in *. destruct (n =? 0) eqn:Hn; [lia|done].
Qed.

Lemma parseInt_integer_fraction ds rest :
  JS.all_digits ds = true → ds ≠ "" →
  JS.parseInt_integer (ds +:+ String "." rest) None
  = Some (false, fst (fst (JS.read_digits 10 ds 0 0))).
Proof.
  intros Hds Hne. unfold JS.parseInt_integer.
  destruct ds as [|d ds']; [done|].
  assert (Hd : JS.is_digit d = true).
  { simpl in Hds. by apply andb_true_iff in Hds as [? _]. }
  set (s := String d ds') in *.
  assert (Hs : s +:+ String "." rest = String d (ds' +:+ String "." rest))
    by reflexivity.
  rewrite Hs, trim_start_digit, digit_no_sign, <- Hs by done.
  cbn [negb Z.eqb andb orb].
  assert (Hx : JS.starts_with "0x" (s +:+ String "." rest)
               || JS.starts_with "0X" (s +:+ String "." rest) = false).
  { apply orb_false_iff.
    split; apply not_true_is_false; intros (r & Hr)%starts_with_2;
      rewrite Hs in Hr; simplify_eq;
      (destruct ds' as [|b ds'];
       [cbv [String.append] in *; simplify_eq|]);
      cbv [String.append] in *; fold String.append in *; simplify_eq;
      subst s; cbn [JS.all_digits] in Hds;
      apply andb_true_iff in Hds as [_ Hds];
      apply andb_true_iff in Hds as [Hb _]; vm_compute in Hb; done. }
  rewrite Hx.
  rewrite read_digits_stop by done.
  rewrite read_digits_count by done.
  destruct (0 + Z.of_nat (String.length s) =? 0) eqn:Hz; [|done].
  apply Z.eqb_eq in Hz. subst s. simpl in Hz. lia.
Qed.

(** [parseInt] of digits followed by a point and anything is [parseInt] of
    the digits. *)
Lemma parseInt_fraction ds rest :
  JS.all_digits ds = true → ds ≠ "" →
  JS.parseInt (ds +:+ String "." rest) None = JS.parseInt ds None.
Proof.
  intros Hds Hne. unfold JS.parseInt.
  by rewrite parseInt_integer_fraction, parseInt_integer_digits.
Qed.

(** The quantity of a submission that passes the guard is the whole number
    of shares in its field, when that number is below [2 ^ 53]. *)
Lemma parseInt_whole qv :
  JS.not_number (JS.parseInt qv None) = false →
  (JS.parseInt qv None <=? 0)%float = false →
  entered_quantity (SubmitTrade qv "" 0) < 2 ^ 53 →
  ∃ z, 0 < z < 2 ^ 53
       ∧ entered_quantity (SubmitTrade qv "" 0) = z
       ∧ JS.parseInt qv None = JS.of_Z z.
Proof.
  unfold JS.parseInt, entered_quantity.
  destruct (JS.parseInt_integer qv None) as [[neg z]|] eqn:Hp;
    [|by rewrite nan_not_number].
  pose proof (parseInt_integer_nonneg _ _ _ Hp) as Hz.
  destruct (Z.eqb_spec z 0) as [->|Hz0]; [by rewrite zero_not_number|].
  intros _ Hle Hlt. exists z. split; [lia|]. split; [done|].
  destruct neg; [|done].
  change 0%float with (JS.of_Z 0) in Hle.
  rewrite (SafeIntegers.of_Z_leb (- z) 0) in Hle by (unfold JS.safe; lia).
  apply Z.leb_gt in Hle. lia.
Qed.

End ParseInt.

(** ** The guard of the trade form *)

Section Guard.

Implicit Types (st : State) (now : Z).

(** C3, as stated, fails: a quantity field holding [2.5] is not refused.
    [parseInt] reads it as [2], and the BUY of 2 shares is executed: the
    order is recorded, the cash is debited and the holding is created. *)
Lemma fractional_quantity_is_executed :
  let st := openTradeModal initial_state "AAPL" BUY in
  let r := handleTradeExecution st "2.5" "10" 0 in
  JS.parseInt "2.5" None = 2%float
  ∧ snd r = Executed (mkOrder "AAPL" BUY 10 2 "Executed" 0)
  ∧ availableFunds (portfolio (fst r)) = 99980%float
  ∧ holdings (portfolio (fst r)) !! "AAPL" = Some (mkHolding 2 10)
  ∧ fst r ≠ st.
Proof.
  repeat split; try (vm_compute; reflexivity).
  intros H. apply (f_equal (λ s, length (orders (portfolio s)))) in H.
  vm_compute in H. discriminate.
Qed.

(** The guard tests the price with [!price] only: a negative price passes
    it, and the BUY of 2 shares at -5 is executed and credits the cash. *)
Lemma negative_price_is_executed :
  let st := openTradeModal initial_state "AAPL" BUY in
  let r := handleTradeExecution st "2" "-5" 0 in
  snd r = Executed (mkOrder "AAPL" BUY (-5) 2 "Executed" 0)
  ∧ availableFunds (portfolio (fst r)) = 100010%float.
Proof. split; vm_compute; reflexivity. Qed.

(** C3 — The guard "Invalid order details.": the handler refuses, and
    returns the state unchanged, whenever the active symbol is [null] or
    empty, the quantity read by [parseInt] is [NaN] (the field does not start
    with an integer), zero or negative, or the price read by [parseFloat] is
    zero or [NaN].  A quantity field with a fraction is not refused for it:
    the handler treats digits followed by a point exactly as it treats the
    digits alone. *)
Theorem invalid_details_rejected st now :
  (∀ quantity price,
     JS.not_string (at_symbol (activeTrade st)) = true
     ∨ JS.isNaN quantity = true
     ∨ (quantity <=? 0)%float = true
     ∨ (price =? 0)%float = true
     ∨ JS.isNaN price = true →
     executeOrder st quantity price now = (st, InvalidOrder))
  ∧ (∀ ds rest pv, JS.all_digits ds = true → ds ≠ "" →
       handleTradeExecution st (ds +:+ String "." rest) pv now
       = handleTradeExecution st ds pv now).
Proof.
  split.
  - intros quantity price H. unfold executeOrder.
    assert (Hg : invalid_details (at_symbol (activeTrade st)) quantity price
                 = true); [|by rewrite Hg].
    unfold invalid_details, JS.not_number.
    destruct H as [H|[H|[H|[H|H]]]]; rewrite H;
      by rewrite ?orb_true_r.
  - intros ds rest pv Hds Hne. unfold handleTradeExecution.
    by rewrite parseInt_fraction.
Qed.

(** An empty quantity field, which [parseInt] reads as [NaN], and [12.75]
    shares read as [12]. *)
Lemma invalid_details_rejected_witness :
  let st := openTradeModal initial_state "AAPL" BUY in
  JS.parseInt "" None = nan
  ∧ executeOrder st (JS.parseInt "" None) 214.2 0 = (st, InvalidOrder)
  ∧ handleTradeExecution st "12.75" "214.20" 0
    = handleTradeExecution st "12" "214.20" 0.
Proof.
  split; [vm_compute; reflexivity|]. split.
  - apply (proj1 (invalid_details_rejected
                    (openTradeModal initial_state "AAPL" BUY) 0)
             (JS.parseInt "" None) 214.2%float).
    right; left. vm_compute; reflexivity.
  - apply (proj2 (invalid_details_rejected
                    (openTradeModal initial_state "AAPL" BUY) 0)
             "12" "75" "214.20");
      [vm_compute; reflexivity | discriminate].
Defined.

End Guard.

(** ** Holdings *)

Section Holdings.

Implicit Types (st : State) (quantity price : float) (now : Z).

(** The holdings that a BUY leaves: a new position at the price of the order,
    or the old one grown, at the weighted average price; nothing changes for
    an inherited name. *)
Lemma buy_holdings st sym quantity price now st' o :
  at_symbol (activeTrade st) = Some sym →
  at_type (activeTrade st) = BUY →
  executeOrder st quantity price now = (st', Executed o) →
  holdings (portfolio st')
  = match get_property (holdings (portfolio st)) sym with
    | Own h =>
        <[sym := {| h_quantity := (h_quantity h + quantity)%float;
                    h_avgPrice :=
                      ((h_avgPrice h * h_quantity h + price * quantity)
                       / (h_quantity h + quantity))%float |}]>
          (holdings (portfolio st))
    | Inherited => holdings (portfolio st)
    | Undefined =>
        <[sym := {| h_quantity := quantity; h_avgPrice := price |}]>
          (holdings (portfolio st))
    end.
Proof.
  intros Hs Ht. unfold executeOrder. rewrite Hs, Ht.
  repeat case_match; intros; simplify_eq/=; done.
Qed.

(** The holdings that a SELL leaves: the entry is deleted when the quantity
    that is left is 0, and keeps its average price otherwise; nothing changes
    for an inherited name. *)
Lemma sell_holdings st sym quantity price now st' o :
  at_symbol (activeTrade st) = Some sym →
  at_type (activeTrade st) = SELL →
  executeOrder st quantity price now = (st', Executed o) →
  match get_property (holdings (portfolio st)) sym with
  | Own h =>
      (h_quantity h <? quantity)%float = false
      ∧ holdings (portfolio st')
        = if (h_quantity h - quantity =? 0)%float
          then delete sym (holdings (portfolio st))
          else <[sym := {| h_quantity := (h_quantity h - quantity)%float;
                           h_avgPrice := h_avgPrice h |}]>
                 (holdings (portfolio st))
  | Inherited => holdings (portfolio st') = holdings (portfolio st)
  | Undefined => False
  end.
Proof.
  intros Hs Ht. unfold executeOrder. rewrite Hs, Ht.
  repeat case_match; intros; simplify_eq/=; done.
Qed.

(** An execution leaves the holdings of the other symbols alone. *)
Lemma other_holdings st quantity price now st' o sym :
  executeOrder st quantity price now = (st', Executed o) →
  sym ≠ o_symbol o →
  holdings (portfolio st') !! sym = holdings (portfolio st) !! sym.
Proof.
  intros H Hne.
  destruct (executeOrder_executed _ _ _ _ _ _ H) as (Hs & _).
  revert H. unfold executeOrder. rewrite Hs.
  repeat case_match; intros; simplify_eq/=;
    by rewrite ?lookup_insert_ne, ?lookup_delete_ne.
Qed.



End Holdings.

(** ** Invariants of the ledger over a run *)

Section Run.

Implicit Types (st : State) (evs : list Event) (sym : string).

Lemma run_snoc st evs ev : run st (evs ++ [ev]) = step (run st evs) ev.
Proof. unfold run. by rewrite fold_left_app. Qed.

Lemma run_cons st evs ev : run st (ev :: evs) = run (step st ev) evs.
Proof. reflexivity. Qed.

(** The handler either executes an order or returns its state. *)
Lemma executeOrder_dichotomy st quantity price now :
  (∃ msg, executeOrder st quantity price now = (st, Rejected msg))
  ∨ (∃ st' o, executeOrder st quantity price now = (st', Executed o)).
Proof.
  destruct (executeOrder st quantity price now) as [st' [msg|o]] eqn:E.
  - left. exists msg.
    pose proof (executeOrder_rejected st quantity price now msg) as H.
    rewrite E in H. simpl in H. by rewrite H.
  - right. eauto.
Qed.

Lemma openTradeModal_portfolio st symbol type :
  portfolio (openTradeModal st symbol type) = portfolio st.
Proof. unfold openTradeModal. by case_match. Qed.

Lemma entered_quantity_nonneg ev : 0 ≤ entered_quantity ev.
Proof.
  destruct ev as [symbol type|q p now]; simpl; [done|].
  destruct (JS.parseInt_integer q None) as [[neg z]|] eqn:Hp; [|done].
  by apply parseInt_integer_nonneg in Hp.
Qed.

Lemma total_entered_nonneg evs : 0 ≤ total_entered evs.
Proof.
  induction evs as [|ev evs IH]; simpl; [done|].
  pose proof (entered_quantity_nonneg ev). lia.
Qed.

Lemma total_entered_app evs1 evs2 :
  total_entered (evs1 ++ evs2) = total_entered evs1 + total_entered evs2.
Proof. induction evs1 as [|ev evs IH]; simpl; lia. Qed.

Lemma net_quantity_snoc sym os o :
  net_quantity sym (os ++ [o])
  = net_quantity sym os
    + (if bool_decide (o_symbol o = sym)
       then match o_type o with
            | BUY => JS.to_integer (o_quantity o)
            | SELL => - JS.to_integer (o_quantity o)
            end
       else 0).
Proof.
  induction os as [|o' os IH]; simpl.
  - destruct (bool_decide (o_symbol o = sym)), (o_type o); lia.
  - rewrite IH.
    destruct (bool_decide (o_symbol o' = sym)),
      (bool_decide (o_symbol o = sym)), (o_type o'), (o_type o); lia.
Qed.

Lemma whole_ledger_mono B B' st :
  B ≤ B' → whole_ledger B st → whole_ledger B' st.
Proof.
  intros HB (Ha & Hi & Hw). split; [done|]. split; [done|].
  intros sym Hsym. specialize (Hw sym Hsym).
  destruct (holdings (portfolio st) !! sym); [|done].
  destruct Hw as (z & Hz & Hq & Hn). exists z. split; [lia|done].
Qed.

(** An execution of a whole number of shares keeps the ledger whole. *)
Lemma executeOrder_whole B st z price now st' o :
  0 ≤ B → 0 < z → B + z < 2 ^ 53 →
  whole_ledger B st →
  executeOrder st (JS.of_Z z) price now = (st', Executed o) →
  whole_ledger (B + z) st'.
Proof.
  intros HB0 Hz HB (Ha & Hi & Hw) E.
  destruct (executeOrder_executed _ _ _ _ _ _ E)
    as (Hs & Ht & Hq & _ & _ & _ & _ & Hat & _ & Hos).
  assert (Hzs : JS.safe z) by (unfold JS.safe; lia).
  assert (Hint : JS.to_integer (o_quantity o) = z)
    by (rewrite Hq; by apply SafeIntegers.to_integer_of_Z).
  split; [by rewrite Hat|]. split.
  - intros sym Hsym.
    destruct (decide (sym = o_symbol o)) as [->|Hne];
      [|rewrite (other_holdings _ _ _ _ _ _ _ E Hne); auto].
    assert (Hg : get_property (holdings (portfolio st)) (o_symbol o)
                 = Inherited) by (apply get_property_inherited; auto).
    destruct (o_type o) eqn:Hty.
    + rewrite (buy_holdings _ _ _ _ _ _ _ Hs Ht E), Hg. auto.
    + pose proof (sell_holdings _ _ _ _ _ _ _ Hs Ht E) as Hh.
      rewrite Hg in Hh. rewrite Hh. auto.
  - intros sym Hsym. rewrite Hos, net_quantity_snoc.
    destruct (decide (sym = o_symbol o)) as [->|Hne]; cycle 1.
    { rewrite (other_holdings _ _ _ _ _ _ _ E Hne).
      rewrite bool_decide_eq_false_2 by done. rewrite Z.add_0_r.
      specialize (Hw sym Hsym).
      destruct (holdings (portfolio st) !! sym); [|done].
      destruct Hw as (z' & Hz' & Hq' & Hn'). exists z'.
      split; [lia|done]. }
    rewrite bool_decide_eq_true_2 by done. rewrite Hint.
    specialize (Hw _ Hsym).
    destruct (o_type o) eqn:Hty.
    + rewrite (buy_holdings _ _ _ _ _ _ _ Hs Ht E).
      unfold get_property.
      destruct (holdings (portfolio st) !! o_symbol o) as [h|] eqn:Hh.
      * destruct Hw as (zh & Hzh & Hqh & Hnh).
        rewrite lookup_insert_eq. exists (zh + z).
        split; [lia|]. split; [|lia]. cbn [h_quantity].
        rewrite Hqh. apply SafeIntegers.of_Z_add; unfold JS.safe; lia.
      * rewrite bool_decide_eq_false_2 by done.
        rewrite lookup_insert_eq. exists z.
        split; [lia|]. split; [done|lia].
    + pose proof (sell_holdings _ _ _ _ _ _ _ Hs Ht E) as Hsell.
      unfold get_property in Hsell.
      destruct (holdings (portfolio st) !! o_symbol o) as [h|] eqn:Hh;
        [|by rewrite bool_decide_eq_false_2 in Hsell].
      destruct Hw as (zh & Hzh & Hqh & Hnh).
      destruct Hsell as [Hlt Hsell]. rewrite Hsell. clear Hsell.
      rewrite Hqh in Hlt |- *.
      rewrite SafeIntegers.of_Z_ltb in Hlt by (unfold JS.safe; lia).
      apply Z.ltb_ge in Hlt.
      rewrite SafeIntegers.of_Z_sub by (unfold JS.safe; lia).
      change 0%float with (JS.of_Z 0).
      rewrite SafeIntegers.of_Z_eqb by (unfold JS.safe; lia).
      destruct (Z.eqb_spec (zh - z) 0) as [H0|H0].
      * rewrite lookup_delete_eq. lia.
      * rewrite lookup_insert_eq. exists (zh - z).
        split; [lia|]. split; [done|lia].
Qed.

(** Every event keeps the ledger whole, as long as the whole numbers of
    shares entered so far stay below [2 ^ 53]. *)
Lemma step_whole B st ev :
  0 ≤ B → B + entered_quantity ev < 2 ^ 53 →
  whole_ledger B st → whole_ledger (B + entered_quantity ev) (step st ev).
Proof.
  intros HB0 HB Hw. pose proof (entered_quantity_nonneg ev) as He.
  destruct ev as [symbol type|q p now].
  - simpl. rewrite Z.add_0_r. destruct Hw as (Ha & Hi & Hw).
    unfold openTradeModal.
    destruct (bool_decide (symbol ∈ stockList)
              || bool_decide (symbol ∈ inherited_names)) eqn:Hk; [|done].
    split; [|done]. simpl. intros sym [= <-].
    apply orb_true_iff in Hk as [Hk|Hk]; apply bool_decide_eq_true in Hk;
      [by left | by right].
  - cbn [step]. unfold handleTradeExecution.
    destruct (executeOrder_dichotomy st (JS.parseInt q None)
                (JS.parseFloat p) now) as [(msg & E)|(st' & o & E)];
      rewrite E; cbn [fst].
    + eapply whole_ledger_mono; [|done]. lia.
    + destruct (executeOrder_executed _ _ _ _ _ _ E)
        as (_ & _ & _ & _ & _ & _ & Hg & _).
      destruct (invalid_details_false _ _ _ Hg)
        as (sym & _ & _ & Hnn & _ & Hle).
      destruct (parseInt_whole q Hnn Hle) as (z & Hz & Hez & Hpz).
      { change (entered_quantity (SubmitTrade q "" 0))
          with (entered_quantity (SubmitTrade q p now)). lia. }
      change (entered_quantity (SubmitTrade q p now))
        with (entered_quantity (SubmitTrade q "" 0)) in *.
      rewrite Hez in *. rewrite Hpz in E.
      apply (executeOrder_whole B st z (JS.parseFloat p) now st' o);
        (done || lia).
Qed.

Lemma run_whole B st evs :
  0 ≤ B → B + total_entered evs < 2 ^ 53 →
  whole_ledger B st → whole_ledger (B + total_entered evs) (run st evs).
Proof.
  revert B st. induction evs as [|ev evs IH]; intros B st HB0 HB Hw.
  - simpl. by rewrite Z.add_0_r.
  - rewrite run_cons. simpl in *.
    pose proof (entered_quantity_nonneg ev).
    pose proof (total_entered_nonneg evs).
    rewrite Z.add_assoc. apply IH; [lia|lia|].
    apply step_whole; [lia|lia|done].
Qed.

Lemma initial_whole : whole_ledger 0 initial_state.
Proof.
  split; [done|]. split; [intros; apply lookup_empty|].
  intros sym _. simpl. by rewrite lookup_empty.
Qed.

Lemma whole_ledger_holdings B st :
  whole_ledger B st → B < 2 ^ 53 →
  holdings_whole B st ∧ holdings_positive st.
Proof.
  intros (_ & Hi & Hw) HB.
  assert (H : ∀ sym h, holdings (portfolio st) !! sym = Some h →
                       ∃ z, 0 < z ≤ B ∧ h_quantity h = JS.of_Z z).
  { intros sym h Hh.
    destruct (decide (sym ∈ inherited_names)) as [Hin|Hin].
    - rewrite (Hi _ Hin) in Hh. done.
    - specialize (Hw _ Hin). rewrite Hh in Hw.
      destruct Hw as (z & Hz & Hq & _). eauto. }
  split; [exact H|].
  intros sym h Hh. destruct (H _ _ Hh) as (z & Hz & ->).
  change 0%float with (JS.of_Z 0).
  rewrite SafeIntegers.of_Z_ltb by (unfold JS.safe; lia).
  apply Z.ltb_lt. lia.
Qed.

(** C6, as stated, fails: the quantity of a holding can become [NaN], which
    is not a positive quantity.  After two purchases of [1.7e308] shares the
    quantity held is [Infinity]; the sale of [Infinity] shares is executed
    ([Infinity < Infinity] is false) and leaves [Infinity - Infinity], that
    is [NaN], which is not [=== 0]: the holding stays, with a quantity that
    is not above 0. *)
Lemma quantity_can_become_NaN :
  let st := run initial_state overflowing_run in
  length (orders (portfolio st)) = 3%nat
  ∧ (∃ h, holdings (portfolio st) !! "AAPL" = Some h
          ∧ JS.isNaN (h_quantity h) = true
          ∧ (0 <? h_quantity h)%float = false)
  ∧ ¬ holdings_positive st.
Proof.
  split; [vm_compute; reflexivity|]. split.
  - exists (mkHolding nan 0). repeat split; vm_compute; reflexivity.
  - intros H. specialize (H "AAPL" (mkHolding nan 0)).
    assert (Hn : (0 <? h_quantity (mkHolding nan 0))%float = true)
      by (apply H; vm_compute; reflexivity).
    vm_compute in Hn. discriminate.
Qed.

(** C6 — Holdings invariant, for whole numbers of shares below [2 ^ 53].
    As long as the integers in the quantity fields of the submissions add up
    to less than [2 ^ 53], every event keeps every holding at a whole number
    of shares that is at least 1, so every symbol present after any such
    sequence of events from the initial ledger has a strictly positive
    quantity.  A SELL is executed only when the quantity held is not smaller
    than the quantity sold; it removes the symbol from the holdings (with its
    average price) when the quantity that is left is 0, which for whole
    numbers is when it sells all the shares held; otherwise the holding keeps
    its average price and its quantity decreases by the quantity sold. *)
Theorem holdings_invariant :
  (∀ B st ev,
     0 ≤ B → B + entered_quantity ev < 2 ^ 53 →
     whole_ledger B st → whole_ledger (B + entered_quantity ev) (step st ev))
  ∧ (∀ evs,
       total_entered evs < 2 ^ 53 →
       holdings_positive (run initial_state evs)
       ∧ holdings_whole (total_entered evs) (run initial_state evs))
  ∧ (∀ st sym quantity price now st' o h,
       at_symbol (activeTrade st) = Some sym →
       at_type (activeTrade st) = SELL →
       holdings (portfolio st) !! sym = Some h →
       executeOrder st quantity price now = (st', Executed o) →
       (h_quantity h <? quantity)%float = false
       ∧ ((h_quantity h - quantity =? 0)%float = true →
          holdings (portfolio st') !! sym = None)
       ∧ ((h_quantity h - quantity =? 0)%float = false →
          holdings (portfolio st') !! sym
          = Some {| h_quantity := (h_quantity h - quantity)%float;
                    h_avgPrice := h_avgPrice h |}))
  ∧ (∀ st sym zh z price now st' o h,
       at_symbol (activeTrade st) = Some sym →
       at_type (activeTrade st) = SELL →
       holdings (portfolio st) !! sym = Some h →
       h_quantity h = JS.of_Z zh → 0 < zh < 2 ^ 53 → 0 < z < 2 ^ 53 →
       executeOrder st (JS.of_Z z) price now = (st', Executed o) →
       z ≤ zh
       ∧ holdings (portfolio st') !! sym
         = if zh =? z then None
           else Some {| h_quantity := JS.of_Z (zh - z);
                        h_avgPrice := h_avgPrice h |}).
Proof.
  split; [apply step_whole|]. split; [|split].
  - intros evs Hevs.
    pose proof (run_whole 0 initial_state evs) as H. simpl in H.
    pose proof (total_entered_nonneg evs).
    destruct (whole_ledger_holdings (total_entered evs)
                (run initial_state evs)); [|done..].
    apply H; [done|done|apply initial_whole].
  - intros st sym quantity price now st' o h Hs Ht Hh E.
    pose proof (sell_holdings _ _ _ _ _ _ _ Hs Ht E) as Hsell.
    rewrite (get_property_own _ _ _ Hh) in Hsell.
    destruct Hsell as [Hlt ->]. split; [done|].
    split; intros ->; [apply lookup_delete_eq | apply lookup_insert_eq].
  - intros st sym zh z price now st' o h Hs Ht Hh Hq Hzh Hz E.
    pose proof (sell_holdings _ _ _ _ _ _ _ Hs Ht E) as Hsell.
    rewrite (get_property_own _ _ _ Hh), Hq in Hsell.
    destruct Hsell as [Hlt ->].
    rewrite SafeIntegers.of_Z_ltb in Hlt by (unfold JS.safe; lia).
    apply Z.ltb_ge in Hlt. split; [done|].
    rewrite SafeIntegers.of_Z_sub by (unfold JS.safe; lia).
    change 0%float with (JS.of_Z 0).
    rewrite SafeIntegers.of_Z_eqb by (unfold JS.safe; lia).
    destruct (Z.eqb_spec (zh - z) 0), (Z.eqb_spec zh z); try lia.
    + apply lookup_delete_eq.
    + apply lookup_insert_eq.
Qed.

(** Ten shares bought, four sold, then the other six. *)
Lemma holdings_invariant_witness :
  let evs := [OpenTradeModal "TSLA" BUY; SubmitTrade "10" "183.00" 1;
              OpenTradeModal "TSLA" SELL; SubmitTrade "4" "190" 2] in
  let st := run initial_state evs in
  let st2 := fst (executeOrder st 6 190 3) in
  total_entered evs < 2 ^ 53
  ∧ holdings_positive st
  ∧ holdings (portfolio st) !! "TSLA" = Some (mkHolding 6 183)
  ∧ holdings (portfolio st2) !! "TSLA" = None.
Proof.
  intros evs st st2.
  destruct holdings_invariant as (_ & Hrun & Hsell & _).
  assert (Hevs : total_entered evs < 2 ^ 53) by (vm_compute; reflexivity).
  split; [exact Hevs|]. split; [apply (Hrun evs Hevs)|].
  split; [vm_compute; reflexivity|].
  apply (Hsell st "TSLA" 6%float 190%float 3 st2
           (mkOrder "TSLA" SELL 190 6 "Executed" 3) (mkHolding 6 183));
    vm_compute; reflexivity.
Defined.

End Run.

(** ** The order history and the cash *)

Section History.

Implicit Types (st : State) (evs : list Event).

Lemma step_orders st ev :
  orders (portfolio (step st ev))
  = orders (portfolio st) ++ executions st [ev].
Proof.
  destruct ev as [symbol type|q p now]; simpl.
  - by rewrite openTradeModal_portfolio, app_nil_r.
  - unfold handleTradeExecution.
    destruct (executeOrder_dichotomy st (JS.parseInt q None)
                (JS.parseFloat p) now) as [(msg & E)|(st' & o & E)];
      rewrite E; simpl.
    + by rewrite app_nil_r.
    + by destruct (executeOrder_executed _ _ _ _ _ _ E)
        as (_ & _ & _ & _ & _ & _ & _ & _ & _ & ->).
Qed.

Lemma run_orders st evs :
  orders (portfolio (run st evs)) = orders (portfolio st) ++ executions st evs.
Proof.
  revert st. induction evs as [|ev evs IH]; intros st.
  - simpl. by rewrite app_nil_r.
  - rewrite run_cons, IH, step_orders. simpl.
    by rewrite app_nil_r, app_assoc.
Qed.

Lemma executions_status st evs o :
  o ∈ executions st evs → o_status o = "Executed".
Proof.
  revert st. induction evs as [|ev evs IH]; intros st; simpl.
  - by intros ?%elem_of_nil.
  - intros [H|H]%elem_of_app; [|by eapply IH].
    destruct ev as [symbol type|q p now]; [by apply elem_of_nil in H|].
    destruct (handleTradeExecution st q p now) as [st' [msg|o']] eqn:E;
      simpl in H; [by apply elem_of_nil in H|].
    apply list_elem_of_singleton in H as ->.
    by destruct (executeOrder_executed _ _ _ _ _ _ E)
      as (_ & _ & _ & _ & -> & _).
Qed.

(** The timestamps of the executions are clock readings of the submissions,
    in the order of the submissions. *)
Lemma executions_clock st evs :
  map o_timestamp (executions st evs) `sublist_of` clock_readings evs.
Proof.
  revert st. induction evs as [|ev evs IH]; intros st; [done|].
  cbn [executions clock_readings flat_map]. rewrite map_app.
  apply sublist_app; [|apply IH].
  destruct ev as [symbol type|q p now]; [done|].
  destruct (handleTradeExecution st q p now) as [st' [msg|o']] eqn:E;
    simpl; [apply sublist_nil_l|].
  destruct (executeOrder_executed _ _ _ _ _ _ E)
    as (_ & _ & _ & _ & _ & -> & _).
  done.
Qed.

Lemma executions_timestamps st evs o :
  o ∈ executions st evs → o_timestamp o ∈ clock_readings evs.
Proof.
  intros Ho. eapply elem_of_sublist; [|apply (executions_clock st)].
  apply list_elem_of_fmap. eauto.
Qed.

Lemma executions_sorted st evs :
  StronglySorted Z.le (clock_readings evs) →
  StronglySorted Z.le (map o_timestamp (executions st evs)).
Proof.
  revert st. induction evs as [|ev evs IH]; intros st Hs; [constructor|].
  simpl in *. apply StronglySorted_app in Hs as (Hle & _ & Hs).
  rewrite map_app. apply StronglySorted_app. split; [|split; [|by apply IH]].
  - intros x1 x2 H1 H2.
    apply list_elem_of_fmap in H2 as (o2 & -> & H2%executions_timestamps).
    destruct ev as [symbol type|q p now]; [by apply elem_of_nil in H1|].
    destruct (handleTradeExecution st q p now) as [st' [msg|o']] eqn:E;
      simpl in H1; [by apply elem_of_nil in H1|].
    apply list_elem_of_singleton in H1 as ->.
    destruct (executeOrder_executed _ _ _ _ _ _ E)
      as (_ & _ & _ & _ & _ & Hnow & _).
    apply Hle; [|done]. rewrite Hnow. apply list_elem_of_here.
  - destruct ev as [symbol type|q p now]; [constructor|].
    destruct (snd (handleTradeExecution st q p now)); repeat constructor.
Qed.

(** C7 — The order history is append-only.  An order that passes the guard
    and the check of its side (the cash covers a BUY, the holding covers a
    SELL) is executed: the handler appends, at the end of the history, the
    order of the trade form's symbol and side, the quantity and the price
    read, the status "Executed" and the clock reading as timestamp.  Every
    execution appends exactly its one order; a refusal and the opening of the
    trade form leave the history as it is; so after any events the history is
    the history before them followed by the orders they executed, in the
    order of their execution: nothing appended earlier is changed or
    removed, and from the initial ledger no other status than "Executed"
    appears.  The history is in chronological order: the timestamps of the
    executions are clock readings of the submissions, in the order of the
    submissions, so when the clock does not go back from one submission to
    the next, the timestamps of the history do not decrease. *)
Theorem order_history_append_only :
  (∀ st sym quantity price now,
     at_symbol (activeTrade st) = Some sym →
     invalid_details (Some sym) quantity price = false →
     covered st sym quantity price = true →
     let r := executeOrder st quantity price now in
     snd r = Executed (order_of st sym quantity price now)
     ∧ orders (portfolio (fst r))
       = orders (portfolio st) ++ [order_of st sym quantity price now])
  ∧ (∀ st quantity price now,
       let r := executeOrder st quantity price now in
       match snd r with
       | Executed o =>
           orders (portfolio (fst r)) = orders (portfolio st) ++ [o]
           ∧ o_status o = "Executed" ∧ o_timestamp o = now
       | Rejected _ => orders (portfolio (fst r)) = orders (portfolio st)
       end)
  ∧ (∀ st symbol type,
       orders (portfolio (openTradeModal st symbol type))
       = orders (portfolio st))
  ∧ (∀ st evs,
       orders (portfolio (run st evs))
       = orders (portfolio st) ++ executions st evs)
  ∧ (∀ evs o,
       o ∈ orders (portfolio (run initial_state evs)) →
       o_status o = "Executed")
  ∧ (∀ evs,
       map o_timestamp (orders (portfolio (run initial_state evs)))
       `sublist_of` clock_readings evs)
  ∧ (∀ evs,
       StronglySorted Z.le (clock_readings evs) →
       StronglySorted Z.le
         (map o_timestamp (orders (portfolio (run initial_state evs))))).
Proof.
  assert (Hex : ∀ st quantity price now,
            let r := executeOrder st quantity price now in
            match snd r with
            | Executed o =>
                orders (portfolio (fst r)) = orders (portfolio st) ++ [o]
                ∧ o_status o = "Executed" ∧ o_timestamp o = now
            | Rejected _ =>
                orders (portfolio (fst r)) = orders (portfolio st)
            end).
  { intros st quantity price now.
    destruct (executeOrder_dichotomy st quantity price now)
      as [(msg & E)|(st' & o & E)]; rewrite E; simpl; [done|].
    by destruct (executeOrder_executed _ _ _ _ _ _ E)
      as (_ & _ & _ & _ & -> & -> & _ & _ & _ & ->). }
  split; [|split; [exact Hex|repeat split]].
  - intros st sym quantity price now Hs Hg Hc r. subst r.
    pose proof (executeOrder_covered st sym quantity price now Hs Hg Hc) as E.
    split; [done|].
    specialize (Hex st quantity price now). simpl in Hex.
    rewrite E in Hex. by destruct Hex as [-> _].
  - intros. by rewrite openTradeModal_portfolio.
  - apply run_orders.
  - intros evs o. rewrite run_orders. simpl. apply executions_status.
  - intros evs. rewrite run_orders. simpl. apply executions_clock.
  - intros evs Hs. rewrite run_orders. simpl. by apply executions_sorted.
Qed.

(** A purchase of ten shares of AAPL at the clock reading 7 is recorded as
    such. *)
Lemma order_history_append_only_witness :
  let st := openTradeModal initial_state "AAPL" BUY in
  let r := executeOrder st 10 214.2 7 in
  snd r = Executed (mkOrder "AAPL" BUY 214.2 10 "Executed" 7)
  ∧ orders (portfolio (fst r))
    = orders (portfolio st) ++ [mkOrder "AAPL" BUY 214.2 10 "Executed" 7].
Proof.
  intros st r.
  apply (proj1 order_history_append_only st "AAPL" 10%float 214.2%float 7);
    vm_compute; reflexivity.
Defined.

(** An execution moves the cash by [cash_effect] of its order. *)
Lemma executeOrder_cash st quantity price now st' o :
  executeOrder st quantity price now = (st', Executed o) →
  availableFunds (portfolio st')
  = cash_effect (availableFunds (portfolio st)) o.
Proof.
  intros H.
  destruct (executeOrder_executed _ _ _ _ _ _ H)
    as (Hs & Ht & Hq & Hp & _).
  revert H. unfold executeOrder, cash_effect. rewrite Hs, Ht, Hp, Hq.
  repeat case_match; intros; simplify_eq/=; done.
Qed.

Lemma run_cash st evs :
  availableFunds (portfolio (run st evs))
  = replay (availableFunds (portfolio st)) (executions st evs).
Proof.
  revert st. induction evs as [|ev evs IH]; intros st; [done|].
  rewrite run_cons, IH. simpl. unfold replay. rewrite fold_left_app.
  f_equal. destruct ev as [symbol type|q p now]; simpl.
  - by rewrite openTradeModal_portfolio.
  - unfold handleTradeExecution.
    destruct (executeOrder_dichotomy st (JS.parseInt q None)
                (JS.parseFloat p) now) as [(msg & E)|(st' & o & E)];
      rewrite E; simpl; [done|].
    by apply executeOrder_cash in E.
Qed.

End History.

(** ** Conservation of funds *)

Section Funds.

Implicit Types (st : State) (evs : list Event).

(** C1, as stated, fails: after two executed purchases of one MSFT share at
    447.60 the cash is the Number 99104.799999999988, which is neither the
    exact value of 100000 less the two amounts (that value is no Number), nor
    the Number 100000 - (447.6 + 447.6) = 99104.8: each execution rounds. *)
Lemma two_purchases_are_not_exact :
  let st := run initial_state
              [OpenTradeModal "MSFT" BUY; SubmitTrade "1" "447.60" 1;
               SubmitTrade "1" "447.60" 2] in
  let p := portfolio st in
  length (orders p) = 2%nat
  ∧ availableFunds p = 99104.799999999988%float
  ∧ (100000 - (447.6 + 447.6))%float = 99104.8%float
  ∧ ¬ conserved_exactly p
  ∧ ¬ conserved_in_numbers p.
Proof.
  repeat split; try (vm_compute; reflexivity).
  - intros H. apply Qeq_bool_iff in H. vm_compute in H. discriminate.
  - intros H. unfold conserved_in_numbers in H.
    apply (f_equal (λ x, (x =? 99104.8)%float)) in H.
    vm_compute in H. discriminate.
Qed.

Lemma step_baseCapital st ev :
  baseCapital (portfolio (step st ev)) = baseCapital (portfolio st).
Proof.
  destruct ev as [symbol type|q p now]; simpl.
  - by rewrite openTradeModal_portfolio.
  - unfold handleTradeExecution.
    destruct (executeOrder_dichotomy st (JS.parseInt q None)
                (JS.parseFloat p) now) as [(msg & E)|(st' & o & E)];
      rewrite E; simpl; [done|].
    by destruct (executeOrder_executed _ _ _ _ _ _ E)
      as (_ & _ & _ & _ & _ & _ & _ & _ & -> & _).
Qed.

Lemma run_baseCapital st evs :
  baseCapital (portfolio (run st evs)) = baseCapital (portfolio st).
Proof.
  revert st. induction evs as [|ev evs IH]; intros st; [done|].
  by rewrite run_cons, IH, step_baseCapital.
Qed.

(** C1 — Funds follow the history.  An executed BUY leaves the cash
    [funds - price * quantity] and an executed SELL leaves
    [funds + price * quantity], each a product and a difference or sum of
    JavaScript Numbers, rounded as such; a refusal leaves the cash as it is.
    After any sequence of events from the initial ledger the available
    funds are the base capital carried through the recorded orders in the
    order of their execution, one such operation per order. *)
Theorem funds_follow_history :
  (∀ st quantity price now,
     let r := executeOrder st quantity price now in
     let funds := availableFunds (portfolio st) in
     availableFunds (portfolio (fst r))
     = match snd r with
       | Executed o =>
           match o_type o with
           | BUY => (funds - price * o_quantity o)%float
           | SELL => (funds + price * o_quantity o)%float
           end
       | Rejected _ => funds
       end)
  ∧ (∀ evs,
       let p := portfolio (run initial_state evs) in
       availableFunds p = replay (baseCapital p) (orders p)).
Proof.
  split.
  - intros st quantity price now.
    destruct (executeOrder_dichotomy st quantity price now)
      as [(msg & E)|(st' & o & E)]; rewrite E; simpl; [done|].
    rewrite (executeOrder_cash _ _ _ _ _ _ E). unfold cash_effect.
    by destruct (executeOrder_executed _ _ _ _ _ _ E)
      as (_ & _ & _ & -> & _).
  - intros evs. simpl.
    by rewrite run_cash, run_orders, run_baseCapital.
Qed.

End Funds.

(** ** The scenario of the specification *)

(** C8, as stated, fails at the second step: the average price of the 15
    shares is (214.20 * 10 + 220 * 5) / 15 = 3242 / 15 = 216.13..., which
    does not agree with 215.87 to the cent (it is more than 216.13). *)
Lemma scenario_average_is_not_215_87 :
  ∃ h, holdings (portfolio (after_second_buy 1 2)) !! "AAPL" = Some h
       ∧ h_quantity h = 15%float
       ∧ h_avgPrice h = ((214.2 * 10 + 220 * 5) / 15)%float
       ∧ agree_to_cents (h_avgPrice h) 215.87 = false
       ∧ (216.13 <? h_avgPrice h)%float = true.
Proof.
  exists (mkHolding 15 216.13333333333333).
  repeat split; vm_compute; reflexivity.
Qed.

(** C8 — The scenario.  From funds 100000: BUY 10 AAPL at 214.20 leaves funds
    97858 and AAPL held as 10 shares at 214.20; BUY 5 AAPL at 220.00 leaves
    funds 96758 and AAPL held as 15 shares at
    (214.20 * 10 + 220 * 5) / 15 = 216.13 to the cent; SELL 15 AAPL at 225.00
    leaves funds 100133 and no AAPL entry in the holdings.  All three orders
    are recorded. *)
Theorem scenario :
  ∀ now1 now2 now3,
    let p1 := portfolio (after_first_buy now1) in
    let p2 := portfolio (after_second_buy now1 now2) in
    let p3 := portfolio (after_sell now1 now2 now3) in
    availableFunds (portfolio initial_state) = 100000%float
    ∧ availableFunds p1 = 97858%float
    ∧ holdings p1 !! "AAPL" = Some (mkHolding 10 214.2)
    ∧ availableFunds p2 = 96758%float
    ∧ holdings p2 !! "AAPL"
      = Some (mkHolding 15 ((214.2 * 10 + 220 * 5) / 15))
    ∧ (∃ h, holdings p2 !! "AAPL" = Some h
            ∧ agree_to_cents (h_avgPrice h) 216.13 = true)
    ∧ availableFunds p3 = 100133%float
    ∧ holdings p3 !! "AAPL" = None
    ∧ length (orders p3) = 3%nat.
Proof.
  intros now1 now2 now3.
  repeat split; try (vm_compute; reflexivity).
  exists (mkHolding 15 216.13333333333333).
  split; vm_compute; reflexivity.
Qed.

(** ** Cancellation of a subscription *)

Module DatafeedFacts.
Import Datafeed.

Section Cancellation.

Implicit Types (f : Feed) (acts : list Action).

(** C9, as stated, fails: subscribe, unsubscribe, and the timer of the
    subscription still fires and calls the subscriber back. *)
Lemma callback_after_unsubscribe :
  let acts := [SubscribeBars "AAPL_15"; UnsubscribeBars "AAPL_15";
               TimerFires 0 2000 0.5 0.5 0.5 0.5 0.5] in
  snd (run no_subscription acts)
  = [ConsoleLog "[subscribeBars]: Method call with subscriberUID:" "AAPL_15";
     ConsoleLog "[unsubscribeBars]: Method call with subscriberUID:" "AAPL_15";
     RealtimeCallback "AAPL_15" (mkBar 2000 155 160 147.5 155 500)]
  ∧ ¬ silent_after_cancel no_subscription acts.
Proof.
  split; [vm_compute; reflexivity|].
  intros H.
  specialize (H [SubscribeBars "AAPL_15"] "AAPL_15"
                [TimerFires 0 2000 0.5 0.5 0.5 0.5 0.5] eq_refl
                (RealtimeCallback "AAPL_15" (mkBar 2000 155 160 147.5 155 500))).
  assert (Hin : RealtimeCallback "AAPL_15" (mkBar 2000 155 160 147.5 155 500)
                ∈ snd (run (fst (run no_subscription [SubscribeBars "AAPL_15"]))
                         [UnsubscribeBars "AAPL_15";
                          TimerFires 0 2000 0.5 0.5 0.5 0.5 0.5])).
  { vm_compute. apply list_elem_of_further, list_elem_of_here. }
  specialize (H Hin). vm_compute in H. discriminate.
Qed.

Lemma step_timers f a k uid :
  timers f !! k = Some uid → timers (fst (step f a)) !! k = Some uid.
Proof.
  intros H. destruct a as [u|u|j now r1 r2 r3 r4 r5]; simpl; [|done|].
  - by apply lookup_app_l_Some.
  - by destruct (timers f !! j).
Qed.

Lemma run_timers f acts k uid :
  timers f !! k = Some uid → timers (fst (run f acts)) !! k = Some uid.
Proof.
  revert f. induction acts as [|a acts IH]; intros f H; [done|].
  simpl. pose proof (step_timers f a k uid H) as H1.
  destruct (step f a) as [f1 out1]. specialize (IH f1 H1).
  by destruct (run f1 acts) as [f2 out2].
Qed.

(** C9 — What cancellation does.  [unsubscribeBars] writes its line on the
    console and leaves every timer in place.  No action removes a timer:
    after a subscription, and after whatever actions follow it (unsubscribing
    included), the timer that the subscription started is still there, and
    each of its firings calls the subscriber's [onRealtimeCallback] with a
    new bar. *)
Theorem unsubscribe_keeps_timer :
  (∀ f uid, fst (unsubscribeBars f uid) = f
            ∧ ∀ o, o ∈ snd (unsubscribeBars f uid) →
                   ∃ msg u, o = ConsoleLog msg u)
  ∧ (∀ f uid acts,
       let f1 := fst (subscribeBars f uid) in
       let f2 := fst (run f1 acts) in
       let k := length (timers f) in
       timers f1 !! k = Some uid
       ∧ timers f2 !! k = Some uid
       ∧ ∀ now r1 r2 r3 r4 r5,
           step f2 (TimerFires k now r1 r2 r3 r4 r5)
           = (f2, [RealtimeCallback uid (lastBar now r1 r2 r3 r4 r5)])).
Proof.
  split.
  - intros f uid. split; [done|]. simpl.
    intros o ->%list_elem_of_singleton. eauto.
  - intros f uid acts f1 f2 k.
    assert (H1 : timers f1 !! k = Some uid).
    { subst f1 k. simpl. rewrite lookup_app_r by done.
      by rewrite Nat.sub_diag. }
    assert (H2 : timers f2 !! k = Some uid) by by apply run_timers.
    repeat split; [done..|]. intros. simpl. by rewrite H2.
Qed.

End Cancellation.

End DatafeedFacts.

(** ** Aggregation keeps the volume *)

Module ChartFacts.
Import Chart.

Section Aggregation.

Variable m : Z.
Hypothesis m_pos : 0 < m.

Local Abbreviation bucket := (Chart.bucket m).
Local Abbreviation in_bucket := (Chart.in_bucket m).

Lemma bucket_mono d1 d2 : t d1 ≤ t d2 → bucket d1 ≤ bucket d2.
Proof.
  intros H. unfold Chart.bucket. apply Z.mul_le_mono_nonneg_r; [lia|].
  by apply Z.div_le_mono.
Qed.

(** No element of a list of other candles passes the filter. *)
Lemma filter_other k data :
  Forall (λ d, bucket d ≠ k) data → List.filter (in_bucket k) data = [].
Proof.
  induction 1 as [|d data Hd _ IH]; [done|]. simpl. rewrite IH.
  unfold Chart.in_bucket. by destruct (Z.eqb_spec (bucket d) k).
Qed.

(** In a list ordered by candle whose candles are [k] or later, the elements
    of candle [k] are a prefix, and the filter returns it. *)
Lemma filter_run k data :
  StronglySorted (λ d1 d2, bucket d1 ≤ bucket d2) data →
  Forall (λ d, k ≤ bucket d) data →
  ∃ group rest,
    data = group ++ rest
    ∧ List.filter (in_bucket k) data = group
    ∧ Forall (λ d, bucket d = k) group
    ∧ Forall (λ d, k < bucket d) rest.
Proof.
  induction 1 as [|d data Hs IH Hd]; intros Hk.
  - exists [], []. by repeat split.
  - apply Forall_cons in Hk as [Hkd Hk].
    destruct (Z.eqb_spec (bucket d) k) as [He|Hne].
    + destruct (IH Hk) as (group & rest & -> & Hf & Hg & Hr).
      exists (d :: group), rest. simpl. unfold Chart.in_bucket at 1.
      rewrite (proj2 (Z.eqb_eq _ _) He), Hf. repeat split; auto.
    + exists [], (d :: data). simpl. unfold Chart.in_bucket at 1.
      rewrite (proj2 (Z.eqb_neq _ _) Hne). repeat split; auto.
      * apply filter_other. rewrite Forall_forall in Hd.
        apply Forall_forall. intros x Hx. specialize (Hd x Hx). lia.
      * constructor; [lia|]. rewrite Forall_forall in Hd.
        apply Forall_forall. intros x Hx. specialize (Hd x Hx). lia.
Qed.


Variable n : Z.
Hypothesis m_def : m = n * 60000.

(** The filter of the loop is the filter by candle. *)
Lemma loop_filter x data :
  List.filter
    (in_candle (interval_millis (Some n))
       (candle_time (interval_millis (Some n)) (t x))) data
  = List.filter (in_bucket (bucket x)) data.
Proof.
  unfold in_candle, Chart.in_bucket, Chart.bucket. simpl. by rewrite m_def.
Qed.

(** The loop from a boundary between candles: with [data = pre ++ suf], the
    candles of [pre] all earlier than those of [suf], and [suf] ordered, the
    loop at [i = length pre] cuts [suf] into its candles and pushes one bar
    for each. *)
Lemma loop_partitions fuel pre suf acc :
  StronglySorted (λ d1 d2, bucket d1 ≤ bucket d2) suf →
  Forall (λ x, Forall (λ y, bucket x < bucket y) suf) pre →
  (length suf ≤ fuel)%nat →
  ∃ groups,
    concat groups = suf
    ∧ Forall (λ g, ∃ x, x ∈ g
                        ∧ g = List.filter (in_bucket (bucket x)) (pre ++ suf))
        groups
    ∧ aggregate_loop fuel (pre ++ suf) (Some n) (length pre) acc
      = Some (acc ++ candles groups).
Proof.
  revert pre suf acc.
  induction fuel as [|fuel IH]; intros pre suf acc Hs Hpre Hlen.
  - destruct suf; [|simpl in Hlen; lia]. exists []. simpl.
    rewrite lookup_ge_None_2 by (rewrite length_app; simpl; lia).
    rewrite ?app_nil_r. split; [done|]. split; [apply List.Forall_nil|].
    unfold candles; simpl; by rewrite ?app_nil_r.
  - destruct suf as [|x rest].
    + exists []. simpl.
      rewrite lookup_ge_None_2 by (rewrite length_app; simpl; lia).
      rewrite ?app_nil_r. split; [done|]. split; [apply List.Forall_nil|].
    unfold candles; simpl; by rewrite ?app_nil_r.
    + cbn [aggregate_loop]. rewrite list_lookup_middle by done.
      rewrite loop_filter, List.filter_app.
      rewrite (filter_other (bucket x) pre); cycle 1.
      { eapply Forall_impl; [exact Hpre|]. intros y Hy.
        apply Forall_cons in Hy as [Hy _]. lia. }
      pose proof Hs as Hs'. apply StronglySorted_inv in Hs' as [Hs' Hx].
      destruct (filter_run (bucket x) (x :: rest) Hs)
        as (group & rest' & Hsplit & Hf & Hg & Hr).
      { constructor; [lia|]. done. }
      rewrite Hf, app_nil_l.
      destruct group as [|g0 group'].
      { simpl in Hsplit. subst rest'.
        apply Forall_cons in Hr as [Hr _]. lia. }
      simpl in Hsplit. injection Hsplit as <- Hrest.
      assert (Hsorted' : StronglySorted (λ d1 d2, bucket d1 ≤ bucket d2) rest').
      { subst rest. clear -Hs'. induction group' as [|a g IHg]; [done|].
        simpl in Hs'. apply StronglySorted_inv in Hs' as [Hs' _]. auto. }
      destruct (IH (pre ++ x :: group') rest'
                  (acc ++ [candle x (x :: group')]) Hsorted')
        as (groups & Hc & Hgs & Hloop).
      { apply Forall_app. split.
        - eapply Forall_impl; [exact Hpre|]. intros y Hy. simpl in Hy.
          apply Forall_cons in Hy as [_ Hy]. subst rest.
          by apply Forall_app in Hy as [_ Hy].
        - eapply Forall_impl; [exact Hg|]. intros y Hy. simpl in Hy.
          eapply Forall_impl; [exact Hr|]. intros z Hz. simpl in Hz. lia. }
      { subst rest. simpl in Hlen. rewrite length_app in Hlen. lia. }
      assert (Hdata : pre ++ x :: rest = (pre ++ x :: group') ++ rest').
      { subst rest. by rewrite <- app_assoc. }
      exists ((x :: group') :: groups). split; [|split].
      * simpl. rewrite Hc. by subst rest.
      * constructor.
        -- exists x. split; [apply list_elem_of_here|].
           rewrite List.filter_app, (filter_other (bucket x) pre), Hf; [done|].
           eapply Forall_impl; [exact Hpre|]. intros y Hy.
           apply Forall_cons in Hy as [Hy _]. lia.
        -- by rewrite Hdata.
      * rewrite Hdata. rewrite length_app in Hloop. rewrite Hloop.
        simpl. by rewrite <- app_assoc.
Qed.

End Aggregation.

Lemma sorted_by_time_strongly data :
  sorted_by_time data = true → StronglySorted (λ d1 d2, t d1 ≤ t d2) data.
Proof.
  induction data as [|d1 data IH]; [constructor|].
  intros H. destruct data as [|d2 data]; [by repeat constructor|].
  cbn [sorted_by_time] in H. apply andb_true_iff in H as [H12 H].
  specialize (IH H). constructor; [done|].
  apply StronglySorted_inv in IH as [_ IH'].
  constructor; [lia|]. eapply Forall_impl; [exact IH'|].
  intros y Hy. simpl in Hy. lia.
Qed.

Lemma strongly_sorted_weaken {A} (R S : A → A → Prop) xs :
  (∀ a b, R a b → S a b) → StronglySorted R xs → StronglySorted S xs.
Proof.
  intros HRS. induction 1 as [|a xs _ IH Ha]; constructor; [done|].
  eapply Forall_impl; [exact Ha|]. auto.
Qed.

Lemma fold_left_volume group a :
  fold_left (λ sum d, sum + v d) group a = a + total_volume group.
Proof.
  revert a. induction group as [|d group IH]; intros a; simpl; [lia|].
  rewrite IH. lia.
Qed.

Lemma total_volume_app xs ys :
  total_volume (xs ++ ys) = total_volume xs + total_volume ys.
Proof. induction xs as [|d xs IH]; simpl; lia. Qed.

(** The bars pushed for the groups carry the volume of the groups. *)
Lemma candles_volume groups :
  total_volume (candles groups) = total_volume (concat groups).
Proof.
  induction groups as [|g groups IH]; [done|].
  unfold candles in *. simpl. rewrite !total_volume_app, IH. f_equal.
  destruct g as [|g0 g']; [done|].
  change (total_volume [candle g0 (g0 :: g')])
    with (fold_left (λ sum d, sum + v d) (g0 :: g') 0 + 0).
  rewrite fold_left_volume. lia.
Qed.

Lemma candles_length groups :
  Forall (λ g, g ≠ []) groups → length (candles groups) = length groups.
Proof.
  induction 1 as [|g groups Hg _ IH]; [done|].
  unfold candles in *. simpl. rewrite length_app, IH.
  by destruct g.
Qed.

(** The loop ends within one unit of fuel per element that is left. *)
Lemma aggregate_loop_total fuel data interval i acc :
  (length data - i ≤ fuel)%nat →
  is_Some (aggregate_loop fuel data interval i acc).
Proof.
  revert i acc. induction fuel as [|fuel IH]; intros i acc Hlen.
  - simpl. rewrite lookup_ge_None_2 by lia. eauto.
  - simpl. destruct (data !! i) as [d|] eqn:Hd; [|eauto].
    apply lookup_lt_Some in Hd.
    destruct (List.filter _ data) as [|g0 group]; apply IH; simpl; lia.
Qed.

Lemma aggregateData_total data interval :
  is_Some (aggregateData data interval).
Proof.
  unfold aggregateData. destruct (int_le_1 interval); [eauto|].
  apply aggregate_loop_total. lia.
Qed.

(** For an interval above 1 the loop cuts the bars, in non-decreasing order
    of time, into consecutive groups, each made of all the bars of one
    candle, and pushes one bar per group, which carries the volume of the
    group. *)
Lemma aggregateData_partitions data interval :
  sorted_by_time data = true →
  1 < interval →
  ∃ groups,
    concat groups = data
    ∧ Forall
        (λ g, ∃ x, x ∈ g
                   ∧ g = List.filter
                           (in_bucket (interval * 60000)
                              (bucket (interval * 60000) x))
                           data)
        groups
    ∧ aggregateData data (Some interval) = Some (candles groups)
    ∧ length (candles groups) = length groups
    ∧ total_volume (candles groups) = total_volume data.
Proof.
  intros Hsorted Hlt. unfold aggregateData. cbn [int_le_1].
  rewrite (proj2 (Z.leb_gt _ _) Hlt).
  assert (Hm : 0 < interval * 60000) by lia.
  destruct (loop_partitions (interval * 60000) interval eq_refl
              (length data) [] data [])
    as (groups & Hc & Hgs & Hloop).
  - eapply strongly_sorted_weaken;
      [|by apply sorted_by_time_strongly].
    intros a b. by apply bucket_mono.
  - apply List.Forall_nil.
  - done.
  - change ([] ++ data) with data in *.
    change ([] ++ candles groups) with (candles groups) in Hloop.
    change (length (@nil Bar)) with 0%nat in Hloop.
    exists groups. split; [done|]. split; [done|]. split; [done|]. split.
    + apply candles_length. eapply Forall_impl; [exact Hgs|].
      intros g (x & Hx & _) ->. by apply elem_of_nil in Hx.
    + by rewrite candles_volume, Hc.
Qed.

End ChartFacts.

(** ** Aggregation in the arithmetic of Numbers *)

Module NumberChartFacts.
Import NumberChart.

(** The loop ends within one unit of fuel per element that is left. *)
Lemma number_loop_total fuel data interval i acc :
  (length data - i ≤ fuel)%nat →
  is_Some (aggregate_loop fuel data interval i acc).
Proof.
  revert i acc. induction fuel as [|fuel IH]; intros i acc Hlen.
  - simpl. rewrite lookup_ge_None_2 by lia. eauto.
  - simpl. destruct (data !! i) as [d|] eqn:Hd; [|eauto].
    apply lookup_lt_Some in Hd.
    destruct (List.filter _ data) as [|g0 group]; apply IH; simpl; lia.
Qed.

Lemma number_aggregateData_total data interval :
  is_Some (aggregateData data interval).
Proof.
  unfold aggregateData. destruct (interval <=? 1)%float; [eauto|].
  apply number_loop_total. lia.
Qed.

(** [Math.floor] of the quotient of two integers below [2 ^ 53]. *)
Lemma Math_floor_quotient t m :
  0 ≤ t < 2 ^ 53 → 0 < m < 2 ^ 53 →
  Math_floor (JS.of_Z t / JS.of_Z m) = JS.of_Z (t / m).
Proof.
  intros Ht Hm. destruct (decide (t = 0)) as [->|Ht0].
  - assert (H0 : (JS.of_Z 0 / JS.of_Z m)%float = JS.of_Z 0).
    { apply Prim2SF_inj.
      rewrite div_spec, !SafeIntegers.Prim2SF_of_Z by (unfold JS.safe; lia).
      destruct m; (done || lia). }
    rewrite H0, Z.div_0_l by lia. reflexivity.
  - destruct (SafeIntegers.of_Z_div_floor t m)
      as (s & mF & eF & HF & Hfl & Hint); [lia|lia|].
    unfold Math_floor. rewrite HF.
    destruct (Z.leb_spec 0 eF); [by apply Hint | by rewrite Hfl].
Qed.

(** The start of the candle of a time, as the program computes it. *)
Lemma candle_time_exact m t :
  0 < m < 2 ^ 53 → 0 ≤ t < 2 ^ 53 →
  candle_time (JS.of_Z m) (JS.of_Z t) = JS.of_Z (t / m * m).
Proof.
  intros Hm Ht. unfold candle_time. rewrite Math_floor_quotient by done.
  pose proof (Z.mul_div_le t m ltac:(lia)).
  assert (0 ≤ t / m) by (apply Z.div_pos; lia).
  apply SafeIntegers.of_Z_mul; nia.
Qed.

Lemma intervalMillis_exact n :
  0 ≤ n → n * 60000 < 2 ^ 53 →
  (JS.of_Z n * 60000)%float = JS.of_Z (n * 60000).
Proof.
  intros Hn Hm. change 60000%float with (JS.of_Z 60000).
  apply SafeIntegers.of_Z_mul; lia.
Qed.

Section Refinement.

Variable n : Z.
Hypothesis n_above_1 : 1 < n.
Hypothesis millis_safe : n * 60000 < 2 ^ 53.

Variable data : list Chart.Bar.
Hypothesis times_safe : Forall (λ d, 0 ≤ Chart.t d < 2 ^ 53) data.
Hypothesis volumes_safe : Forall (λ d, 0 ≤ Chart.v d) data.
Hypothesis total_safe : Chart.total_volume data < 2 ^ 53.

(** The filter of the loop selects the bars that the filter on integers
    selects. *)
Lemma number_loop_filter x :
  x ∈ data →
  List.filter
    (in_candle (JS.of_Z n * 60000)
       (candle_time (JS.of_Z n * 60000) (t (number_bar x))))
    (map number_bar data)
  = map number_bar
      (List.filter
         (Chart.in_candle (Chart.interval_millis (Some n))
            (Chart.candle_time (Chart.interval_millis (Some n)) (Chart.t x)))
         data).
Proof.
  intros Hx. rewrite intervalMillis_exact by lia.
  rewrite filter_map_swap. f_equal.
  assert (Htx : 0 ≤ Chart.t x < 2 ^ 53)
    by (rewrite Forall_forall in times_safe; auto).
  apply List.filter_ext_in. intros d Hd%list_elem_of_In.
  assert (Htd : 0 ≤ Chart.t d < 2 ^ 53)
    by (rewrite Forall_forall in times_safe; auto).
  unfold in_candle, Chart.in_candle. cbn [number_bar t Chart.interval_millis
    Chart.candle_time Chart.strict_eq].
  rewrite !candle_time_exact by lia.
  pose proof (Z.mul_div_le (Chart.t d) (n * 60000) ltac:(lia)).
  pose proof (Z.mul_div_le (Chart.t x) (n * 60000) ltac:(lia)).
  assert (0 ≤ Chart.t d / (n * 60000)) by (apply Z.div_pos; lia).
  assert (0 ≤ Chart.t x / (n * 60000)) by (apply Z.div_pos; lia).
  apply SafeIntegers.of_Z_eqb; unfold JS.safe; nia.
Qed.

Lemma total_volume_nonneg group :
  Forall (λ d, 0 ≤ Chart.v d) group → 0 ≤ Chart.total_volume group.
Proof. induction 1 as [|d ds Hd _ IH]; simpl; lia. Qed.

Lemma total_volume_filter (P : Chart.Bar → bool) group :
  Forall (λ d, 0 ≤ Chart.v d) group →
  Chart.total_volume (List.filter P group) ≤ Chart.total_volume group.
Proof.
  induction 1 as [|d ds Hd _ IH]; simpl; [done|].
  destruct (P d); simpl; lia.
Qed.

Lemma Forall_filter_list {A} (P : A → Prop) (f : A → bool) xs :
  Forall P xs → Forall P (List.filter f xs).
Proof.
  induction 1 as [|x xs Hx _ IH]; simpl; [constructor|].
  destruct (f x); [by constructor | done].
Qed.

(** The volumes of a group, added up as Numbers from the Number of an
    integer. *)
Lemma number_volume group a :
  Forall (λ d, 0 ≤ Chart.v d) group →
  0 ≤ a → a + Chart.total_volume group < 2 ^ 53 →
  fold_left (λ sum d, (sum + v d)%float) (map number_bar group) (JS.of_Z a)
  = JS.of_Z (fold_left (λ sum d, sum + Chart.v d) group a).
Proof.
  intros Hv. revert a. induction Hv as [|d ds Hd Hds IH]; intros a Ha Hs.
  - done.
  - simpl in *. pose proof (total_volume_nonneg ds Hds).
    rewrite SafeIntegers.of_Z_add by (unfold JS.safe; lia).
    apply IH; lia.
Qed.

Lemma last_number_bar group g0 :
  List.last (map number_bar group) (number_bar g0)
  = number_bar (List.last group g0).
Proof.
  induction group as [|d [|d' ds] IH]; [done..|]. exact IH.
Qed.

(** The bar pushed for a group of the input. *)
Lemma candle_number_bar g0 group :
  Forall (λ d, 0 ≤ Chart.v d) group →
  Chart.total_volume group < 2 ^ 53 →
  candle (number_bar g0) (map number_bar group)
  = number_bar (Chart.candle g0 group).
Proof.
  intros Hv Hs. unfold candle, Chart.candle, number_bar at 4.
  cbn [Chart.t Chart.o Chart.h Chart.l Chart.c Chart.v].
  rewrite !map_map, last_number_bar.
  change 0%float with (JS.of_Z 0).
  rewrite number_volume by (done || lia). reflexivity.
Qed.

(** The loop on Numbers follows the loop on integers. *)
Lemma loop_refines fuel i acc :
  aggregate_loop fuel (map number_bar data) (JS.of_Z n) i (map number_bar acc)
  = option_map (map number_bar)
      (Chart.aggregate_loop fuel data (Some n) i acc).
Proof.
  revert i acc. induction fuel as [|fuel IH]; intros i acc.
  - simpl. rewrite list_lookup_fmap.
    by destruct (data !! i).
  - cbn [aggregate_loop Chart.aggregate_loop].
    rewrite list_lookup_fmap.
    destruct (data !! i) as [x|] eqn:Hx; [|done]. cbn [fmap option_fmap option_map].
    assert (Hin : x ∈ data) by (by eapply list_elem_of_lookup_2).
    rewrite (number_loop_filter x Hin).
    set (group := List.filter _ data).
    assert (Hgv : Forall (λ d, 0 ≤ Chart.v d) group)
      by (by apply Forall_filter_list).
    assert (Hgs : Chart.total_volume group < 2 ^ 53).
    { pose proof (total_volume_filter
                    (Chart.in_candle (Chart.interval_millis (Some n))
                       (Chart.candle_time (Chart.interval_millis (Some n))
                          (Chart.t x))) data volumes_safe).
      fold group in H. lia. }
    destruct group as [|g0 group'] eqn:Hg; cbn [map].
    + apply IH.
    + change (number_bar g0 :: map number_bar group')
        with (map number_bar (g0 :: group')).
      rewrite candle_number_bar by done.
      rewrite length_map.
      change [number_bar (Chart.candle g0 (g0 :: group'))]
        with (map number_bar [Chart.candle g0 (g0 :: group')]).
      rewrite <- map_app. apply IH.
Qed.

Lemma aggregateData_refines :
  aggregateData (map number_bar data) (JS.of_Z n)
  = option_map (map number_bar) (Chart.aggregateData data (Some n)).
Proof.
  unfold aggregateData, Chart.aggregateData. cbn [Chart.int_le_1].
  change 1%float with (JS.of_Z 1).
  rewrite SafeIntegers.of_Z_leb by (unfold JS.safe; lia).
  replace (n <=? 1) with false by lia.
  rewrite length_map. apply (loop_refines (length data) 0 []).
Qed.

Lemma total_volume_number_bar :
  total_volume (map number_bar data) = JS.of_Z (Chart.total_volume data).
Proof.
  unfold total_volume. change 0%float with (JS.of_Z 0).
  rewrite number_volume by (done || lia).
  by rewrite ChartFacts.fold_left_volume.
Qed.

End Refinement.

(** C10, as stated, fails: for the interval that [parseInt] reads from a 1
    followed by 304 zeros, [interval * 60000] is [Infinity], so
    [Math.floor(t / Infinity) * Infinity] is [0 * Infinity], that is [NaN],
    which is [===] to nothing: every group is empty, and [aggregateData]
    returns no bar at all for three bars of total volume 60. *)
Lemma huge_interval_loses_volume :
  let bars := [Chart.mkBar 60000 1 2 0.5 1.5 10;
               Chart.mkBar 120000 1.5 2.5 1 2 20;
               Chart.mkBar 180000 2 3 1.5 2.5 30] in
  let data := map number_bar bars in
  let interval := JS.parseInt ("1" +:+ JS.zeros 304) (Some 10) in
  Chart.sorted_by_time bars = true
  ∧ interval = 1e304%float
  ∧ (interval * 60000)%float = infinity
  ∧ aggregateData data interval = Some []
  ∧ total_volume data = 60%float
  ∧ ¬ ∃ out, aggregateData data interval = Some out
             ∧ total_volume out = total_volume data.
Proof.
  repeat split; try (vm_compute; reflexivity).
  intros (out & Hout & Hvol).
  assert (Hnone : out = []) by (vm_compute in Hout; congruence).
  subst out. apply (f_equal (λ x, (x =? 0)%float)) in Hvol.
  vm_compute in Hvol. discriminate Hvol.
Qed.

(** C10 — [aggregateData] on bars in non-decreasing order of time, for
    integers that are Numbers: times from 0 to below [2 ^ 53], volumes that
    are at least 0 and add up to less than [2 ^ 53], and an interval whose
    number of milliseconds is below [2 ^ 53].  For an interval of at most 1
    it returns its input.  For a larger one it returns, for a partition of
    the input into consecutive groups, one bar per group in the same order;
    each group is made of all the bars of the input that fall in one candle of
    the interval, so each input bar contributes to exactly one output bar,
    and the volumes of the output add up to the volumes of the input. *)
Theorem aggregateData_keeps_volume data n :
  Chart.sorted_by_time data = true →
  Forall (λ d, 0 ≤ Chart.t d < 2 ^ 53) data →
  Forall (λ d, 0 ≤ Chart.v d) data →
  Chart.total_volume data < 2 ^ 53 →
  (- 2 ^ 53 < n ≤ 1 →
     ∀ bars, aggregateData bars (JS.of_Z n) = Some bars)
  ∧ (1 < n → n * 60000 < 2 ^ 53 →
     ∃ groups,
       concat groups = data
       ∧ Forall
           (λ g, ∃ x, x ∈ g
                      ∧ g = List.filter
                              (Chart.in_bucket (n * 60000)
                                 (Chart.bucket (n * 60000) x))
                              data)
           groups
       ∧ aggregateData (map number_bar data) (JS.of_Z n)
         = Some (map number_bar (Chart.candles groups))
       ∧ length (Chart.candles groups) = length groups
       ∧ total_volume (map number_bar (Chart.candles groups))
         = total_volume (map number_bar data)
       ∧ total_volume (map number_bar data)
         = JS.of_Z (Chart.total_volume data)).
Proof.
  intros Hsorted Ht Hv Hs. split.
  - intros Hn bars. unfold aggregateData.
    change 1%float with (JS.of_Z 1).
    rewrite SafeIntegers.of_Z_leb by (unfold JS.safe; lia).
    by replace (n <=? 1) with true by lia.
  - intros Hn Hm.
    destruct (ChartFacts.aggregateData_partitions data n Hsorted Hn)
      as (groups & Hc & Hgs & Hagg & Hlen & Hvol).
    exists groups. split; [done|]. split; [done|].
    split; [|split; [done|]].
    { rewrite (aggregateData_refines n Hn Hm data Ht Hv Hs), Hagg. done. }
    assert (Hcv : Forall (λ d, 0 ≤ Chart.v d) (Chart.candles groups)).
    { rewrite <- Hc in Hv. clear -Hv.
      induction groups as [|g groups IH]; [constructor|].
      simpl in Hv. apply Forall_app in Hv as [Hg Hv].
      unfold Chart.candles in *. simpl. apply Forall_app. split; [|by apply IH].
      destruct g as [|g0 g']; [constructor|].
      constructor; [|constructor]. cbn [Chart.candle Chart.v].
      rewrite ChartFacts.fold_left_volume.
      pose proof (total_volume_nonneg _ Hg). lia. }
    rewrite !total_volume_number_bar by (done || lia).
    by rewrite Hvol.
Qed.

(** Three minute bars in candles of two minutes: the total volume 60 is
    kept. *)
Lemma aggregateData_keeps_volume_witness :
  let data := [Chart.mkBar 60000 1 2 0.5 1.5 10;
               Chart.mkBar 120000 1.5 2.5 1 2 20;
               Chart.mkBar 180000 2 3 1.5 2.5 30] in
  ∃ out, aggregateData (map number_bar data) (JS.of_Z 2) = Some out
         ∧ total_volume out = total_volume (map number_bar data)
         ∧ total_volume (map number_bar data) = JS.of_Z 60.
Proof.
  intros data.
  destruct (aggregateData_keeps_volume data 2) as [_ H].
  - vm_compute; reflexivity.
  - repeat constructor; vm_compute; congruence.
  - repeat constructor; vm_compute; congruence.
  - vm_compute; reflexivity.
  - destruct (H ltac:(lia) ltac:(lia))
      as (groups & _ & _ & Hout & _ & Hvol & Htot).
    exists (map number_bar (Chart.candles groups)).
    split; [exact Hout|]. split; [exact Hvol|exact Htot].
Defined.

(** X21 — In the range of exact integers the aggregation on Numbers is the
    aggregation on integers.  For bars, ordered or not, with times from 0 to
    below [2 ^ 53] and volumes that are at least 0 and add up to less than
    [2 ^ 53], and for an interval above 1 whose number of milliseconds is
    below [2 ^ 53], [aggregateData] computed with the arithmetic of Numbers
    returns the Numbers of the bars that [aggregateData] computed with
    integers returns. *)
Theorem number_aggregation_is_integer_aggregation data n :
  Forall (λ d, 0 ≤ Chart.t d < 2 ^ 53) data →
  Forall (λ d, 0 ≤ Chart.v d) data →
  Chart.total_volume data < 2 ^ 53 →
  1 < n → n * 60000 < 2 ^ 53 →
  aggregateData (map number_bar data) (JS.of_Z n)
  = option_map (map number_bar) (Chart.aggregateData data (Some n)).
Proof.
  intros Ht Hv Hs Hn Hm. by apply aggregateData_refines.
Qed.

(** Three bars out of order, in candles of two minutes. *)
Lemma number_aggregation_is_integer_aggregation_witness :
  let data := [Chart.mkBar 180000 2 3 1.5 2.5 30;
               Chart.mkBar 60000 1 2 0.5 1.5 10;
               Chart.mkBar 120000 1.5 2.5 1 2 20] in
  aggregateData (map number_bar data) (JS.of_Z 2)
  = option_map (map number_bar) (Chart.aggregateData data (Some 2)).
Proof.
  intros data.
  apply (number_aggregation_is_integer_aggregation data 2).
  - repeat constructor; vm_compute; congruence.
  - repeat constructor; vm_compute; congruence.
  - vm_compute; reflexivity.
  - lia.
  - lia.
Defined.

(** X22 — The start of a candle is computed exactly.  For a time from 0 to
    below [2 ^ 53] and an interval of at least one minute whose number of
    milliseconds is below [2 ^ 53], [interval * 60000] is that number, and
    [Math.floor(t / intervalMillis) * intervalMillis] is the largest multiple
    of it that is at most [t]: the division rounds, but never across an
    integer. *)
Theorem candle_start_is_exact n t :
  0 < n → n * 60000 < 2 ^ 53 → 0 ≤ t < 2 ^ 53 →
  let m := n * 60000 in
  (JS.of_Z n * 60000)%float = JS.of_Z m
  ∧ Math_floor (JS.of_Z t / JS.of_Z m) = JS.of_Z (t / m)
  ∧ candle_time (JS.of_Z n * 60000) (JS.of_Z t) = JS.of_Z (t / m * m)
  ∧ t - m < t / m * m ≤ t.
Proof.
  intros Hn Hm Ht m. subst m.
  rewrite intervalMillis_exact by lia.
  split; [done|]. split; [apply Math_floor_quotient; lia|].
  split; [apply candle_time_exact; lia|].
  pose proof (Z.mul_div_le t (n * 60000) ltac:(lia)).
  pose proof (Z.mul_succ_div_gt t (n * 60000) ltac:(lia)).
  lia.
Qed.

(** A time of the year 2026 in candles of 7 minutes: the quotient is no
    Number, and its floor is exact. *)
Lemma candle_start_is_exact_witness :
  candle_time (JS.of_Z 7 * 60000) (JS.of_Z 1793664000123)
  = JS.of_Z (1793664000123 / 420000 * 420000).
Proof.
  apply (candle_start_is_exact 7 1793664000123); lia.
Defined.

End NumberChartFacts.

(** ** Further properties of the ledger *)

Section Ledger.

Implicit Types (st : State) (evs : list Event) (sym : string).

(** X1 — Shares are conserved, for whole numbers of shares below [2 ^ 53].
    After any sequence of events from the initial ledger in which the
    integers of the quantity fields add up to less than [2 ^ 53], the
    quantity held of every symbol that is not a name inherited from
    [Object.prototype] (0 when the symbol has no entry in the holdings) is
    what the recorded orders of that symbol bought less what they sold. *)
Theorem shares_follow_history evs sym :
  total_entered evs < 2 ^ 53 →
  sym ∉ inherited_names →
  let st := run initial_state evs in
  held st sym = JS.of_Z (net_quantity sym (orders (portfolio st)))
  ∧ 0 ≤ net_quantity sym (orders (portfolio st)) ≤ total_entered evs.
Proof.
  intros Hevs Hsym st. subst st.
  pose proof (total_entered_nonneg evs) as H0.
  pose proof (run_whole 0 initial_state evs) as H. simpl in H.
  destruct H as (_ & _ & Hw); [done|done|apply initial_whole|].
  specialize (Hw sym Hsym). unfold held.
  destruct (holdings (portfolio (run initial_state evs)) !! sym) as [h|].
  - destruct Hw as (z & Hz & Hq & Hn). rewrite Hn, Hq. split; [done|lia].
  - rewrite Hw. split; [done|lia].
Qed.

(** Ten shares of AAPL bought and four sold: six are held. *)
Lemma shares_follow_history_witness :
  let evs := [OpenTradeModal "AAPL" BUY; SubmitTrade "10" "214.20" 1;
              OpenTradeModal "AAPL" SELL; SubmitTrade "4" "215" 2] in
  held (run initial_state evs) "AAPL"
  = JS.of_Z (net_quantity "AAPL" (orders (portfolio (run initial_state evs)))).
Proof.
  intros evs.
  apply (shares_follow_history evs "AAPL"); [vm_compute; reflexivity|].
  apply (bool_decide_unpack _). vm_compute. exact I.
Defined.

Lemma openTradeModal_listed st symbol type :
  symbols_listed st → symbols_listed (openTradeModal st symbol type).
Proof.
  intros (Ha & Hh & Ho). unfold openTradeModal.
  destruct (bool_decide (symbol ∈ stockList)
            || bool_decide (symbol ∈ inherited_names)) eqn:Hk; [|done].
  repeat split; simpl; [|done..].
  intros sym [= <-].
  apply orb_true_iff in Hk as [Hk|Hk]; apply bool_decide_eq_true in Hk;
    [by left | by right].
Qed.

Lemma executeOrder_listed st quantity price now :
  symbols_listed st →
  symbols_listed (fst (executeOrder st quantity price now)).
Proof.
  intros (Ha & Hh & Ho).
  destruct (executeOrder_dichotomy st quantity price now)
    as [(msg & ->)|(st' & o & E)]; [done|].
  rewrite E. simpl.
  destruct (executeOrder_executed _ _ _ _ _ _ E)
    as (Hs & Ht & _ & _ & _ & _ & _ & Hat & _ & Hos).
  assert (Hin : known (o_symbol o)) by auto.
  repeat split.
  - rewrite Hat. done.
  - intros sym h Hsym.
    destruct (decide (sym = o_symbol o)) as [->|Hne];
      [|rewrite (other_holdings _ _ _ _ _ _ _ E Hne) in Hsym; eauto].
    destruct (holdings (portfolio st) !! o_symbol o) as [h0|] eqn:Hh0;
      [eauto|].
    destruct Hin as [Hin|Hin]; [done|].
    assert (Hg : get_property (holdings (portfolio st)) (o_symbol o)
                 = Inherited) by (by apply get_property_inherited).
    destruct (o_type o) eqn:Hty.
    + rewrite (buy_holdings _ _ _ _ _ _ _ Hs Ht E), Hg, Hh0 in Hsym. done.
    + pose proof (sell_holdings _ _ _ _ _ _ _ Hs Ht E) as Hsell.
      rewrite Hg in Hsell. rewrite Hsell, Hh0 in Hsym. done.
  - rewrite Hos. apply Forall_app. split; [done|]. by constructor.
Qed.

(** X2 — Only listed symbols are held.  After any sequence of events from
    the initial ledger, every key of the holdings is a key of
    [state.stocks], so the lookups [state.stocks[symbol]] that
    [renderPortfolio] and [renderSectorChart] make for the holdings always
    find a stock; the symbol of the trade form and the symbol of every
    recorded order are names that [state.stocks] has or inherits from
    [Object.prototype]. *)
Theorem traded_symbols_are_listed evs :
  symbols_listed (run initial_state evs).
Proof.
  induction evs as [|ev evs IH] using rev_ind.
  - repeat split; [done| |constructor].
    intros sym h H. simpl in H. by rewrite lookup_empty in H.
  - rewrite run_snoc. destruct ev as [symbol type|q p now]; simpl.
    + by apply openTradeModal_listed.
    + by apply executeOrder_listed.
Qed.

(** X3 — No trade before the form is opened.  The symbol of the trade form
    starts as [null], and [openTradeModal] ignores a symbol for which
    [state.stocks[symbol]] is [undefined]: as long as no event opens the form
    for a key of [state.stocks] or for a name inherited from
    [Object.prototype], every submission is refused and the state stays the
    initial one. *)
Theorem no_trade_before_open evs :
  forallb opens_nothing evs = true →
  run initial_state evs = initial_state.
Proof.
  induction evs as [|ev evs IH] using rev_ind; [done|].
  rewrite forallb_app. intros [H1 H2]%andb_true_iff.
  rewrite run_snoc, IH by done. simpl in H2.
  apply andb_true_iff in H2 as [H2 _].
  destruct ev as [symbol type|q p now]; simpl.
  - unfold openTradeModal. simpl in H2.
    apply negb_true_iff in H2. by rewrite H2.
  - done.
Qed.

(** Submissions and an unknown symbol on the untouched application. *)
Lemma no_trade_before_open_witness :
  run initial_state
    [SubmitTrade "10" "214.20" 1; OpenTradeModal "NFLX" BUY;
     SubmitTrade "1" "1" 2]
  = initial_state.
Proof.
  apply (no_trade_before_open
           [SubmitTrade "10" "214.20" 1; OpenTradeModal "NFLX" BUY;
            SubmitTrade "1" "1" 2]).
  vm_compute; reflexivity.
Defined.

(** X4 — A trade touches one symbol.  The execution of an order leaves the
    holding of every other symbol, present or absent, as it was, and leaves
    the base capital as it was. *)
Theorem trade_touches_one_symbol st quantity price now st' o :
  executeOrder st quantity price now = (st', Executed o) →
  (∀ sym, sym ≠ o_symbol o →
          holdings (portfolio st') !! sym = holdings (portfolio st) !! sym)
  ∧ baseCapital (portfolio st') = baseCapital (portfolio st).
Proof.
  intros E. split.
  - intros sym Hne. by apply (other_holdings _ _ _ _ _ _ _ E).
  - by destruct (executeOrder_executed _ _ _ _ _ _ E)
      as (_ & _ & _ & _ & _ & _ & _ & _ & -> & _).
Qed.

(** A purchase of MSFT next to a holding of AAPL. *)
Lemma trade_touches_one_symbol_witness :
  let st := run initial_state
              [OpenTradeModal "AAPL" BUY; SubmitTrade "10" "214.20" 1;
               OpenTradeModal "MSFT" BUY] in
  let st' := fst (executeOrder st 2 447.6 2) in
  holdings (portfolio st') !! "AAPL" = holdings (portfolio st) !! "AAPL".
Proof.
  intros st st'.
  apply (trade_touches_one_symbol st 2%float 447.6%float 2 st'
           (mkOrder "MSFT" BUY 447.6 2 "Executed" 2));
    [vm_compute; reflexivity | discriminate].
Defined.

(** X5 — Recorded orders are well formed.  Every order in the history of a
    run from the initial ledger has a strictly positive quantity and a price
    that is neither zero nor [NaN] (the guard lets nothing else through). *)
Theorem recorded_orders_are_valid evs :
  Forall (λ o, (0 <? o_quantity o)%float = true
               ∧ JS.not_number (o_price o) = false)
    (orders (portfolio (run initial_state evs))).
Proof.
  induction evs as [|ev evs IH] using rev_ind; [constructor|].
  rewrite run_snoc. destruct ev as [symbol type|q p now]; simpl.
  - by rewrite openTradeModal_portfolio.
  - unfold handleTradeExecution.
    destruct (executeOrder_dichotomy (run initial_state evs)
                (JS.parseInt q None) (JS.parseFloat p) now)
      as [(msg & E)|(st' & o & E)]; rewrite E; simpl; [done|].
    destruct (executeOrder_executed _ _ _ _ _ _ E)
      as (_ & _ & Hq & Hp & _ & _ & Hg & _ & _ & ->).
    apply Forall_app. split; [done|]. constructor; [|constructor].
    destruct (invalid_details_false _ _ _ Hg)
      as (? & _ & _ & Hnn & Hpn & Hle).
    rewrite Hq, Hp. split; [by apply positive_number | done].
Qed.

(** X6 — What was bought can be sold, for whole numbers of shares below
    [2 ^ 53].  After an executed BUY of a listed symbol that leaves [z1]
    shares held, a SELL of that symbol for any whole number of shares from 1
    to [z1], at any price that is neither zero nor [NaN], is executed and
    lowers the quantity held by the quantity sold; and when the symbol was not
    held before the BUY, selling the quantity bought gives back the holdings
    exactly as they were before it. *)
Theorem bought_can_be_sold st sym z price now st1 o1 z1 z' price' now' :
  sym ∈ stockList →
  at_symbol (activeTrade st) = Some sym →
  at_type (activeTrade st) = BUY →
  executeOrder st (JS.of_Z z) price now = (st1, Executed o1) →
  held st1 sym = JS.of_Z z1 →
  0 < z' ≤ z1 → z1 < 2 ^ 53 →
  JS.not_number price' = false →
  let r := executeOrder (openTradeModal st1 sym SELL) (JS.of_Z z') price' now' in
  (∃ o2, snd r = Executed o2)
  ∧ held (fst r) sym = JS.of_Z (z1 - z')
  ∧ (holdings (portfolio st) !! sym = None → 0 < z < 2 ^ 53 → z' = z →
     holdings (portfolio (fst r)) = holdings (portfolio st)).
Proof.
  intros Hin Hs Ht E Hheld Hz' Hz1 Hp' r.
  pose proof (listed_not_inherited _ Hin) as Hni.
  destruct (executeOrder_executed _ _ _ _ _ _ E)
    as (_ & _ & _ & _ & _ & _ & Hg & Hat & _).
  rewrite Hs in Hg.
  destruct (invalid_details_false _ _ _ Hg) as (sym' & [= <-] & Hne & _).
  pose proof (buy_holdings _ _ _ _ _ _ _ Hs Ht E) as Hh1.
  set (st2 := openTradeModal st1 sym SELL) in *.
  assert (Hst2 : st2 = {| portfolio := portfolio st1;
                          activeTrade := {| at_symbol := Some sym;
                                            at_type := SELL |} |}).
  { unfold st2, openTradeModal. by rewrite bool_decide_eq_true_2. }
  assert (Hown : ∃ h1, holdings (portfolio st1) !! sym = Some h1
                       ∧ h_quantity h1 = JS.of_Z z1).
  { unfold held in Hheld. rewrite Hh1 in Hheld |- *. unfold get_property in *.
    destruct (holdings (portfolio st) !! sym) as [h|] eqn:Hh.
    - rewrite lookup_insert_eq in Hheld |- *. eauto.
    - rewrite bool_decide_eq_false_2 in Hheld |- * by done.
      rewrite lookup_insert_eq in Hheld |- *. eauto. }
  destruct Hown as (h1 & Hh1' & Hq1).
  assert (Hg' : invalid_details (Some sym) (JS.of_Z z') price' = false).
  { unfold invalid_details.
    rewrite SafeIntegers.of_Z_not_number by (unfold JS.safe; lia).
    change 0%float with (JS.of_Z 0).
    rewrite SafeIntegers.of_Z_leb by (unfold JS.safe; lia).
    rewrite Hp'. simpl. rewrite bool_decide_eq_false_2 by done.
    replace (z' =? 0) with false by lia.
    by replace (z' <=? 0) with false by lia. }
  assert (Hc : covered st2 sym (JS.of_Z z') price' = true).
  { rewrite Hst2. unfold covered. cbn [activeTrade at_type portfolio].
    rewrite (get_property_own _ _ _ Hh1'), Hq1.
    rewrite SafeIntegers.of_Z_ltb by (unfold JS.safe; lia).
    apply negb_true_iff, Z.ltb_ge. lia. }
  assert (Hs2 : at_symbol (activeTrade st2) = Some sym) by by rewrite Hst2.
  assert (Ht2 : at_type (activeTrade st2) = SELL) by by rewrite Hst2.
  pose proof (executeOrder_covered st2 sym (JS.of_Z z') price' now'
                Hs2 Hg' Hc) as Hr.
  fold r in Hr.
  assert (Er : executeOrder st2 (JS.of_Z z') price' now'
               = (fst r, Executed (order_of st2 sym (JS.of_Z z') price' now'))).
  { fold r. rewrite <- Hr. by destruct r. }
  pose proof (sell_holdings _ _ _ _ _ _ _ Hs2 Ht2 Er) as Hsell.
  replace (portfolio st2) with (portfolio st1) in Hsell by by rewrite Hst2.
  rewrite (get_property_own _ _ _ Hh1'), Hq1 in Hsell.
  destruct Hsell as [_ Hsell].
  rewrite SafeIntegers.of_Z_sub in Hsell by (unfold JS.safe; lia).
  change 0%float with (JS.of_Z 0) in Hsell.
  rewrite SafeIntegers.of_Z_eqb in Hsell by (unfold JS.safe; lia).
  split; [eauto|]. split.
  - unfold held. rewrite Hsell.
    destruct (Z.eqb_spec (z1 - z') 0) as [H0|H0].
    + rewrite lookup_delete_eq, H0. done.
    + by rewrite lookup_insert_eq.
  - intros Hnone Hz ->. rewrite Hsell.
    assert (Hst1 : holdings (portfolio st1)
                   = <[sym := {| h_quantity := JS.of_Z z;
                                 h_avgPrice := price |}]>
                       (holdings (portfolio st))).
    { rewrite Hh1. unfold get_property. rewrite Hnone.
      by rewrite bool_decide_eq_false_2. }
    assert (z1 = z) as ->.
    { rewrite Hst1, lookup_insert_eq in Hh1'. simplify_eq/=.
      assert (He : (JS.of_Z z =? JS.of_Z z1)%float = true).
      { rewrite Hq1.
        pose proof (SafeIntegers.of_Z_isNaN z1) as Hn. unfold JS.isNaN in Hn.
        apply negb_false_iff, Hn. unfold JS.safe. lia. }
      rewrite SafeIntegers.of_Z_eqb in He by (unfold JS.safe; lia).
      apply Z.eqb_eq in He. done. }
    rewrite Z.sub_diag. simpl.
    by rewrite Hst1, delete_insert_eq, delete_id.
Qed.

(** Three shares of IBM bought and sold again. *)
Lemma bought_can_be_sold_witness :
  let st := openTradeModal initial_state "IBM" BUY in
  let st1 := fst (executeOrder st (JS.of_Z 3) 170.6 1) in
  let r := executeOrder (openTradeModal st1 "IBM" SELL) (JS.of_Z 3) 171 2 in
  holdings (portfolio (fst r)) = holdings (portfolio st).
Proof.
  intros st st1 r.
  refine (proj2 (proj2 (bought_can_be_sold st "IBM" 3 170.6%float 1 st1
                          (mkOrder "IBM" BUY 170.6 3 "Executed" 1)
                          3 3 171%float 2 _ _ _ _ _ _ _ _)) _ _ _);
    try (vm_compute; reflexivity).
  - apply (bool_decide_unpack _). vm_compute. exact I.
  - vm_compute. split; [reflexivity | discriminate].
  - vm_compute. split; reflexivity.
Defined.

End Ledger.

(** ** The orders table *)

Section OrdersTable.

Implicit Types (st : State) (evs : list Event).

Lemma prepend_all {A} (xs rows : list A) :
  fold_left (λ body x, x :: body) xs rows = reverse xs ++ rows.
Proof.
  revert rows. induction xs as [|x xs IH]; intros rows; [done|].
  simpl. by rewrite IH, reverse_cons, <- app_assoc.
Qed.

Lemma renderOrders_reverse st f1 f2 f3 :
  renderOrders st f1 f2 f3
  = reverse (List.filter (order_matches f1 f2 f3) (orders (portfolio st))).
Proof. unfold renderOrders. by rewrite prepend_all, app_nil_r. Qed.

Lemma filter_all_true {A} (P : A → bool) (xs : list A) :
  Forall (λ x, P x = true) xs → List.filter P xs = xs.
Proof.
  induction 1 as [|x xs Hx _ IH]; [done|]. simpl. by rewrite Hx, IH.
Qed.

Lemma filter_all_false {A} (P : A → bool) (xs : list A) :
  Forall (λ x, P x = false) xs → List.filter P xs = [].
Proof.
  induction 1 as [|x xs Hx _ IH]; [done|]. simpl. by rewrite Hx, IH.
Qed.

Lemma filter_ext_Forall {A} (P Q : A → bool) (xs : list A) :
  Forall (λ x, P x = Q x) xs → List.filter P xs = List.filter Q xs.
Proof.
  induction 1 as [|x xs Hx _ IH]; [done|]. simpl. by rewrite Hx, IH.
Qed.

Lemma sublist_of_reverse {A} (xs ys : list A) :
  xs `sublist_of` ys → reverse xs `sublist_of` reverse ys.
Proof.
  induction 1 as [|x xs ys _ IH|x xs ys _ IH]; [done| |].
  - rewrite !reverse_cons. by apply sublist_app.
  - rewrite reverse_cons. by apply sublist_inserts_r.
Qed.

(** X7 — The orders table is the history, newest first.  With the three
    selectors on "all" the table shows every recorded order, the last one
    executed on top; with any selection it shows the matching orders only, in
    that same order, and an order is shown exactly when it is in the history
    and matches. *)
Theorem orders_table_newest_first st f1 f2 f3 :
  renderOrders st "all" "all" "all" = reverse (orders (portfolio st))
  ∧ renderOrders st f1 f2 f3 `sublist_of` reverse (orders (portfolio st))
  ∧ ∀ o, o ∈ renderOrders st f1 f2 f3
         ↔ o ∈ orders (portfolio st) ∧ order_matches f1 f2 f3 o = true.
Proof.
  rewrite !renderOrders_reverse. split; [|split].
  - by rewrite filter_all_true by (by apply Forall_forall).
  - apply sublist_of_reverse.
    induction (orders (portfolio st)) as [|o os IH]; [done|]. simpl.
    destruct (order_matches f1 f2 f3 o); by constructor.
  - intros o.
    by rewrite elem_of_reverse, !list_elem_of_In, filter_In.
Qed.

(** X8 — The status selector.  Every recorded order has the status
    "Executed", so on the history of any run from the initial ledger the
    selection "executed" shows what "all" shows, and every other status shows
    an empty table. *)
Theorem status_filter_is_all_or_nothing evs f1 f2 f3 :
  let st := run initial_state evs in
  renderOrders st f1 f2 "executed" = renderOrders st f1 f2 "all"
  ∧ (f3 ≠ "all" → f3 ≠ "executed" → renderOrders st f1 f2 f3 = []).
Proof.
  intros st.
  assert (Hst : Forall (λ o, o_status o = "Executed") (orders (portfolio st))).
  { apply Forall_forall. intros o Ho.
    unfold st in Ho. rewrite run_orders in Ho. simpl in Ho.
    by apply executions_status in Ho. }
  rewrite !renderOrders_reverse. split.
  - f_equal. apply filter_ext_Forall.
    eapply Forall_impl; [exact Hst|]. intros o Ho. simpl in Ho.
    unfold order_matches. by rewrite Ho.
  - intros Hall Hex. rewrite filter_all_false; [done|].
    eapply Forall_impl; [exact Hst|]. intros o Ho. simpl in Ho.
    unfold order_matches. rewrite Ho.
    rewrite (bool_decide_eq_false_2 (f3 = "all")) by done.
    rewrite (bool_decide_eq_false_2 (toLowerCase "Executed" = f3)).
    + by rewrite andb_false_r.
    + intros H. apply Hex. by rewrite <- H.
Qed.

(** The status "pending" on a history of one order. *)
Lemma status_filter_is_all_or_nothing_witness :
  renderOrders
    (run initial_state
       [OpenTradeModal "WMT" BUY; SubmitTrade "5" "67.20" 1])
    "all" "all" "pending" = [].
Proof.
  apply (status_filter_is_all_or_nothing
           [OpenTradeModal "WMT" BUY; SubmitTrade "5" "67.20" 1]
           "all" "all" "pending"); discriminate.
Defined.

End OrdersTable.

(** ** The mock market data *)

Module MarketFacts.

Import Chart Market.

Section Generation.

Implicit Types (now : Z) (draw : nat → float) (data : list Bar).

(** What the loop pushes: [i] bars, one per minute up to the minute before
    [now], the first opening at the current price and each next one at the
    close of the one before; the loop ends with the last close. *)
Lemma minute_loop_pushes i now draw k currentPrice data :
  ∃ news,
    fst (minute_loop i now draw k currentPrice data) = data ++ news
    ∧ length news = i
    ∧ (∀ j d, news !! j = Some d → t d = now - Z.of_nat (i - j) * 60000)
    ∧ (∀ d, news !! 0%nat = Some d → o d = currentPrice)
    ∧ (∀ j d1 d2, news !! j = Some d1 → news !! S j = Some d2 → o d2 = c d1)
    ∧ snd (minute_loop i now draw k currentPrice data)
      = match last news with Some d => c d | None => currentPrice end.
Proof.
  revert k currentPrice data.
  induction i as [|i IH]; intros k currentPrice data.
  - exists []. simpl. rewrite app_nil_r. repeat split; done.
  - cbn [minute_loop].
    match goal with
    | |- context [minute_loop i now draw (k + 4)%nat ?cl (data ++ [?b])] =>
        set (bar := b);
        destruct (IH (k + 4)%nat cl (data ++ [bar]))
          as (news & Hfst & Hlen & Ht & Ho & Hch & Hsnd)
    end.
    exists (bar :: news). rewrite Hfst, <- app_assoc. split; [done|].
    split; [simpl; by rewrite Hlen|]. split; [|split; [|split]].
    + intros [|j] d Hd; simpl in Hd.
      * by injection Hd as <-.
      * rewrite (Ht j d Hd). apply lookup_lt_Some in Hd. lia.
    + intros d [= <-]. done.
    + intros [|j] d1 d2 H1 H2; simpl in H1, H2.
      * injection H1 as <-. by apply Ho.
      * by eapply Hch.
    + rewrite Hsnd. destruct news as [|d news]; [done|].
      rewrite (last_cons bar (d :: news)).
      destruct (last (d :: news)) eqn:Hlast; [done|].
      by apply last_None in Hlast.
Qed.

Lemma sorted_by_time_steps data :
  (∀ j d1 d2, data !! j = Some d1 → data !! S j = Some d2 → t d1 ≤ t d2) →
  sorted_by_time data = true.
Proof.
  induction data as [|d1 data IH]; intros H; [done|].
  destruct data as [|d2 data]; [done|].
  cbn [sorted_by_time]. apply andb_true_iff. split.
  - apply Z.leb_le. by apply (H 0%nat).
  - apply IH. intros j a b Ha Hb. by apply (H (S j)).
Qed.

Variables (sym sec : string) (basePrice : float) (now : Z)
  (draw : nat → float).

Local Abbreviation stock :=
  (generateMockStockData sym basePrice sec now draw).

Lemma generated_bars :
  length (minuteData stock) = 2400%nat
  ∧ (∀ j d, minuteData stock !! j = Some d →
            t d = now - Z.of_nat (2400 - j) * 60000)
  ∧ (∀ d, minuteData stock !! 0%nat = Some d → o d = basePrice)
  ∧ (∀ j d1 d2, minuteData stock !! j = Some d1 →
                minuteData stock !! S j = Some d2 → o d2 = c d1).
Proof.
  cbn [generateMockStockData minuteData].
  destruct (minute_loop_pushes (5 * 8 * 60) now draw 5 basePrice [])
    as (news & Hfst & Hlen & Ht & Ho & Hch & _).
  rewrite Hfst, app_nil_l. auto.
Qed.

Lemma generated_sorted : sorted_by_time (minuteData stock) = true.
Proof.
  destruct generated_bars as (Hlen & Ht & _).
  apply sorted_by_time_steps. intros j d1 d2 H1 H2.
  rewrite (Ht _ _ H1), (Ht _ _ H2).
  apply lookup_lt_Some in H2. rewrite Hlen in H2. lia.
Qed.

Lemma generated_last :
  ∃ d1 d2, minuteData stock !! 2398%nat = Some d1
           ∧ minuteData stock !! 2399%nat = Some d2
           ∧ last (minuteData stock) = Some d2
           ∧ o d2 = c d1 ∧ price stock = c d2.
Proof.
  destruct generated_bars as (Hlen & _ & _ & Hch).
  destruct (lookup_lt_is_Some_2 (minuteData stock) 2398) as [d1 H1];
    [rewrite Hlen; lia|].
  destruct (lookup_lt_is_Some_2 (minuteData stock) 2399) as [d2 H2];
    [rewrite Hlen; lia|].
  assert (Hlast : last (minuteData stock) = Some d2)
    by (by rewrite last_lookup, Hlen).
  exists d1, d2. split; [exact H1|]. split; [exact H2|].
  split; [exact Hlast|]. split; [exact (Hch _ _ _ H1 H2)|].
  revert Hlast. cbn [generateMockStockData minuteData price].
  by intros ->.
Qed.

(** X9 — The generated minute bars.  Whatever the draws of [Math.random()],
    [generateMockStockData] returns 2400 bars, one per minute from 2400
    minutes before the clock reading to one minute before it; so they are in
    increasing order of time, as [aggregateData] needs them. *)
Theorem generated_minutes_are_ordered :
  let s := generateMockStockData sym basePrice sec now draw in
  length (minuteData s) = 2400%nat
  ∧ (∀ j d, minuteData s !! j = Some d →
            t d = now - (2400 - Z.of_nat j) * 60000)
  ∧ sorted_by_time (minuteData s) = true.
Proof.
  intros s. subst s.
  destruct generated_bars as (Hlen & Ht & _). split; [done|].
  split; [|apply generated_sorted].
  intros j d Hd. rewrite (Ht j d Hd).
  apply lookup_lt_Some in Hd. rewrite Hlen in Hd. lia.
Qed.

(** X10 — The generated prices are a walk from the base price.  The first
    bar opens at the base price, every other bar opens at the close of the
    bar before it, and the price of the stock is the close of the last
    bar. *)
Theorem generated_prices_chain :
  let s := generateMockStockData sym basePrice sec now draw in
  (∀ d, minuteData s !! 0%nat = Some d → o d = basePrice)
  ∧ (∀ j d1 d2, minuteData s !! j = Some d1 →
                minuteData s !! S j = Some d2 → o d2 = c d1)
  ∧ ∃ d, last (minuteData s) = Some d ∧ price s = c d.
Proof.
  intros s. subst s.
  destruct generated_bars as (_ & _ & Ho & Hch).
  destruct generated_last as (_ & d2 & _ & _ & Hlast & _ & Hp).
  split; [done|]. split; [done|]. exists d2. by split.
Qed.

(** X11 — The change on the watchlist is the move of the last minute.  For a
    generated stock the row of [renderWatchlist] can always be computed (there
    is a bar before the last one), and since the last bar opens at the close
    before it, the change shown is the close of the last bar less its open,
    and the percentage that change over that open. *)
Theorem watchlist_change_is_last_move :
  let s := generateMockStockData sym basePrice sec now draw in
  ∃ d, last (minuteData s) = Some d
       ∧ watchlist_change s
         = Some ((c d - o d)%float, ((c d - o d) / o d * 100)%float,
                 (0 <=? c d - o d)%float).
Proof.
  intros s. subst s.
  destruct generated_bars as (Hlen & _).
  destruct generated_last as (d1 & d2 & H1 & _ & Hlast & Ho & Hp).
  exists d2. split; [done|]. unfold watchlist_change.
  rewrite Hlen. change (2400 <? 2)%nat with false.
  change (2400 - 2)%nat with 2398%nat. cbv iota.
  by rewrite H1, Hp, Ho.
Qed.

(** X12 — The trade chart shows the last hour.  For a generated stock
    [renderTradeChart] draws 60 bars, one per minute from 60 minutes before
    the clock reading of the generation to one minute before it, and its last
    bar closes at the price of the stock. *)
Theorem trade_chart_is_last_hour :
  let s := generateMockStockData sym basePrice sec now draw in
  length (tradeData s) = 60%nat
  ∧ (∀ j d, tradeData s !! j = Some d →
            t d = now - (60 - Z.of_nat j) * 60000)
  ∧ ∃ d, last (tradeData s) = Some d ∧ c d = price s.
Proof.
  intros s. subst s.
  destruct generated_bars as (Hlen & Ht & _).
  destruct generated_last as (_ & d2 & _ & H2 & _ & _ & Hp).
  unfold tradeData. rewrite Hlen.
  change (2400 - 60)%nat with 2340%nat.
  assert (Hl : length (drop 2340 (minuteData stock)) = 60%nat)
    by (rewrite length_drop, Hlen; done).
  split; [done|]. split.
  - intros j d Hd. rewrite lookup_drop in Hd.
    rewrite (Ht _ _ Hd). apply lookup_lt_Some in Hd. rewrite Hlen in Hd. lia.
  - exists d2. split; [|done].
    rewrite last_lookup, Hl, lookup_drop. exact H2.
Qed.

End Generation.

Section Initialization.

Implicit Types (clock : nat → Z) (draw : nat → float).

Lemma initialize_from_lookup j table clock draw stocks sym s :
  initialize_from j table clock draw stocks !! sym = Some s →
  stocks !! sym = Some s
  ∨ ∃ basePrice sec now draw',
      s = generateMockStockData sym basePrice sec now draw'.
Proof.
  revert j stocks. induction table as [|[[sym' base] sec] table IH];
    intros j stocks; simpl; [by left|].
  intros [H|H]%IH; [|by right].
  destruct (decide (sym' = sym)) as [->|Hne].
  - rewrite lookup_insert_eq in H. injection H as <-. right. eauto.
  - rewrite lookup_insert_ne in H by done. by left.
Qed.

Lemma initialize_from_dom j table clock draw stocks sym :
  is_Some (initialize_from j table clock draw stocks !! sym)
  ↔ is_Some (stocks !! sym) ∨ sym ∈ map (λ e, e.1.1) table.
Proof.
  revert j stocks. induction table as [|[[sym' base] sec] table IH];
    intros j stocks; simpl.
  - rewrite elem_of_nil. tauto.
  - rewrite IH, elem_of_cons. simpl.
    destruct (decide (sym' = sym)) as [->|Hne].
    + rewrite lookup_insert_eq. split; [auto|]. intros _. left. eauto.
    + rewrite lookup_insert_ne by done. split; [tauto|].
      intros [?|[?|?]]; [tauto|congruence|tauto].
Qed.

(** X13 — The stocks of the application.  After [initializeData], whatever
    the clock and the draws, [state.stocks] has exactly the seven keys of the
    stock list; the stock under a key carries that key as its symbol and has
    2400 minute bars in increasing order of time (so the bar before the last,
    which [renderWatchlist] reads, is there). *)
Theorem initialized_stocks clock draw :
  (∀ sym, is_Some (initializeData clock draw !! sym) ↔ sym ∈ stockList)
  ∧ ∀ sym s, initializeData clock draw !! sym = Some s →
             symbol s = sym
             ∧ length (minuteData s) = 2400%nat
             ∧ sorted_by_time (minuteData s) = true
             ∧ is_Some (watchlist_change s).
Proof.
  unfold initializeData. split.
  - intros sym. rewrite initialize_from_dom, lookup_empty.
    change (map (λ e, e.1.1) stockTable) with stockList.
    split; [intros [[? ?]|?]; done|auto].
  - intros sym s [H|(base & sec & now & draw' & ->)]%initialize_from_lookup;
      [by rewrite lookup_empty in H|].
    split; [done|]. split; [apply generated_bars|].
    split; [apply generated_sorted|].
    destruct (generated_last sym sec base now draw')
      as (d1 & _ & H1 & _).
    unfold watchlist_change.
    rewrite (proj1 (generated_bars sym sec base now draw')).
    change (2400 <? 2)%nat with false.
    change (2400 - 2)%nat with 2398%nat. cbv iota. rewrite H1. eauto.
Qed.

End Initialization.

End MarketFacts.

(** ** Further properties of the aggregation *)

Module AggregationFacts.

Import Chart.

Section Loop.

Implicit Types (data : list Bar) (interval : option Z).

Lemma filter_none {A} (P : A → bool) (xs : list A) :
  (∀ x, P x = false) → List.filter P xs = [].
Proof. intros H. induction xs as [|x xs IH]; [done|]. simpl. by rewrite H. Qed.

(** With the interval [NaN] every iteration finds an empty group and moves
    on by one. *)
Lemma aggregate_loop_nan fuel data i acc :
  (length data - i ≤ fuel)%nat →
  aggregate_loop fuel data None i acc = Some acc.
Proof.
  revert i. induction fuel as [|fuel IH]; intros i Hlen.
  - simpl. by rewrite lookup_ge_None_2 by lia.
  - simpl. destruct (data !! i) as [d|] eqn:Hd; [|done].
    apply lookup_lt_Some in Hd. rewrite filter_none by done.
    apply IH. lia.
Qed.

Lemma aggregate_loop_length fuel data interval i acc out :
  aggregate_loop fuel data interval i acc = Some out →
  (length out ≤ length acc + (length data - i))%nat.
Proof.
  revert i acc. induction fuel as [|fuel IH]; intros i acc; simpl.
  - destruct (data !! i) as [d|]; [done|]. intros [= <-]. lia.
  - destruct (data !! i) as [d|] eqn:Hd; [|intros [= <-]; lia].
    apply lookup_lt_Some in Hd.
    destruct (List.filter _ data) as [|g0 group]; intros H%IH.
    + lia.
    + rewrite length_app in H. simpl in H. lia.
Qed.

Lemma aggregateData_nan data : aggregateData data None = Some [].
Proof. unfold aggregateData. simpl. apply aggregate_loop_nan. lia. Qed.

(** X14 — Edge cases of [aggregateData].  For every list of bars, ordered or
    not: an interval that is [NaN] (a selector value that [parseInt] cannot
    read) gives an empty list; and for every interval the function returns,
    with at most as many bars as it was given. *)
Theorem aggregateData_edge_cases data interval :
  aggregateData data None = Some []
  ∧ ∃ out, aggregateData data interval = Some out
           ∧ (length out ≤ length data)%nat.
Proof.
  split; [apply aggregateData_nan|].
  destruct (ChartFacts.aggregateData_total data interval) as [out Hout].
  exists out. split; [done|]. revert Hout. unfold aggregateData.
  destruct (int_le_1 interval); [by intros [= <-]|].
  intros H%aggregate_loop_length. simpl in H. lia.
Qed.

End Loop.

Section OneArgument.

(** A float that differs from itself is [NaN], and there is one [NaN]. *)
Lemma SFeqb_irrefl_nan s : SFeqb s s = false → s = S754_nan.
Proof.
  destruct s as [[]|[]| |[] m e]; try (by cbv); intros H; exfalso;
    revert H; unfold SFeqb, SFcompare; rewrite Z.compare_refl, ?Pos.compare_cont_refl; cbn;
    rewrite ?Pos.compare_refl; cbn; discriminate.
Qed.
Lemma isNaN_true x : JS.isNaN x = true → x = nan.
Proof.
  unfold JS.isNaN. rewrite FloatAxioms.eqb_spec. intros H%negb_true_iff%SFeqb_irrefl_nan.
  rewrite <- (SF2Prim_Prim2SF x), H. reflexivity.
Qed.
(** [Math.max(x)] and [Math.min(x)] are [x]. *)
Lemma Math_max_single x : Math_max [x] = x.
Proof.
  unfold Math_max. simpl. rewrite orb_false_r.
  destruct (JS.isNaN x) eqn:Hn; [symmetry; by apply isNaN_true|].
  change (Prim2SF neg_infinity) with (S754_infinity true).
  assert (H : (if (neg_infinity <? x)%float then x else neg_infinity) = x).
  { rewrite FloatAxioms.ltb_spec. change (Prim2SF neg_infinity) with (S754_infinity true).
    unfold JS.isNaN in Hn. rewrite FloatAxioms.eqb_spec in Hn.
    rewrite <- (SF2Prim_Prim2SF x) at 2 3.
    destruct (Prim2SF x) as [[]|[]| |[] m e]; try reflexivity.
    by cbv in Hn. }
  by destruct (Prim2SF x) as [[]|[]| |[] m e].
Qed.
Lemma Math_min_single x : Math_min [x] = x.
Proof.
  unfold Math_min. simpl. rewrite orb_false_r.
  destruct (JS.isNaN x) eqn:Hn; [symmetry; by apply isNaN_true|].
  change (Prim2SF infinity) with (S754_infinity false).
  assert (H : (if (x <? infinity)%float then x else infinity) = x).
  { rewrite FloatAxioms.ltb_spec. change (Prim2SF infinity) with (S754_infinity false).
    unfold JS.isNaN in Hn. rewrite FloatAxioms.eqb_spec in Hn.
    rewrite <- (SF2Prim_Prim2SF x) at 2 3.
    destruct (Prim2SF x) as [[]|[]| |[] m e]; try reflexivity.
    by cbv in Hn. }
  by destruct (Prim2SF x) as [[]|[]| |[] m e].
Qed.

(** The bar pushed for a group of one bar is that bar. *)
Lemma candle_single d : candle d [d] = d.
Proof.
  destruct d as [t0 o0 h0 l0 c0 v0]. unfold candle. simpl.
  by rewrite Math_max_single, Math_min_single.
Qed.

End OneArgument.

Section Ordered.

Variables (n m : Z).
Hypothesis n_gt_1 : 1 < n.
Hypothesis m_def : m = n * 60000.

Local Abbreviation bucket := (Chart.bucket m).
Local Abbreviation in_bucket := (Chart.in_bucket m).

Lemma millis_pos : 0 < m.
Proof. lia. Qed.

(** Bars in an earlier candle are earlier. *)
Lemma bucket_lt_time d1 d2 : bucket d1 < bucket d2 → t d1 < t d2.
Proof.
  intros H. destruct (Z.lt_ge_cases (t d1) (t d2)) as [|Hge]; [done|].
  pose proof (ChartFacts.bucket_mono m millis_pos d2 d1 Hge). lia.
Qed.

Lemma filter_concat_length (P : Bar → bool) (groups : list (list Bar)) :
  length (List.filter P (concat groups))
  = sum_list (map (λ g, length (List.filter P g)) groups).
Proof.
  induction groups as [|g groups IH]; [done|]. simpl.
  by rewrite List.filter_app, length_app, IH.
Qed.

Lemma filter_length_in (P : Bar → bool) (xs : list Bar) x :
  x ∈ xs → P x = true → (1 ≤ length (List.filter P xs))%nat.
Proof.
  intros Hin HP.
  assert (H : In x (List.filter P xs))
    by (apply filter_In; split; [by apply list_elem_of_In|done]).
  destruct (List.filter P xs); [done|simpl; lia].
Qed.

(** The groups of a partition of ordered bars into complete candles are in
    strictly increasing order of candle. *)
Lemma groups_increasing pre groups :
  StronglySorted (λ d1 d2, bucket d1 ≤ bucket d2) (pre ++ concat groups) →
  Forall (λ g, ∃ x, x ∈ g
                    ∧ g = List.filter (in_bucket (bucket x))
                            (pre ++ concat groups)) groups →
  StronglySorted
    (λ g1 g2, ∀ a b, a ∈ g1 → b ∈ g2 → bucket a < bucket b) groups.
Proof.
  revert pre. induction groups as [|g groups IH]; intros pre Hs Hg;
    [constructor|].
  apply Forall_cons in Hg as [(x & Hx & Hgx) Hgs].
  assert (Hk : ∀ a, a ∈ g → bucket a = bucket x).
  { intros a Ha. rewrite Hgx in Ha.
    apply list_elem_of_In, filter_In in Ha as [_ Ha].
    by apply Z.eqb_eq in Ha. }
  constructor.
  - apply (IH (pre ++ g)).
    + simpl in Hs. by rewrite <- app_assoc.
    + simpl in Hgs. eapply Forall_impl; [exact Hgs|].
      intros g' (y & Hy & Hg'). exists y. split; [done|].
      by rewrite <- app_assoc.
  - apply Forall_forall. intros g2 Hg2 a b Ha Hb.
    assert (Hb' : b ∈ concat groups).
    { apply list_elem_of_In, in_concat. exists g2.
      split; by apply list_elem_of_In. }
    assert (Hle : bucket a ≤ bucket b).
    { simpl in Hs. apply StronglySorted_app in Hs as (_ & _ & Hs).
      apply StronglySorted_app in Hs as (Hs & _ & _). by apply Hs. }
    destruct (Z.eq_dec (bucket a) (bucket b)) as [Heq|]; [|lia].
    exfalso.
    assert (Hlen : length g
                   = length (List.filter (in_bucket (bucket x))
                               (pre ++ concat (g :: groups))))
      by (by rewrite <- Hgx).
    simpl in Hlen. rewrite !List.filter_app, !length_app in Hlen.
    assert (length (List.filter (in_bucket (bucket x)) g) = length g).
    { f_equal. apply filter_all_true. apply Forall_forall.
      intros y Hy. apply Z.eqb_eq. by apply Hk. }
    assert (1 ≤ length (List.filter (in_bucket (bucket x)) (concat groups)))%nat.
    { apply (filter_length_in _ _ b Hb'). apply Z.eqb_eq.
      rewrite <- Heq. by apply Hk. }
    lia.
Qed.

Lemma candles_increasing groups :
  StronglySorted
    (λ g1 g2, ∀ a b, a ∈ g1 → b ∈ g2 → bucket a < bucket b) groups →
  StronglySorted (λ b1 b2, bucket b1 < bucket b2) (candles groups).
Proof.
  induction 1 as [|g groups _ IH Hg]; [constructor|].
  unfold candles in *. simpl. destruct g as [|g0 g']; [done|].
  simpl. constructor; [done|].
  apply Forall_forall. intros b Hb.
  apply list_elem_of_In, in_flat_map in Hb as (g2 & Hg2 & Hb).
  destruct g2 as [|g1 g2']; [done|]. destruct Hb as [<-|[]].
  rewrite Forall_forall in Hg.
  change (bucket g0 < bucket g1).
  apply (Hg (g1 :: g2')); [by apply list_elem_of_In| |];
    apply list_elem_of_here.
Qed.

(** In a list with one bar per candle the filter by the candle of a bar
    returns that bar alone. *)
Lemma filter_own_bucket data x :
  StronglySorted (λ b1 b2, bucket b1 < bucket b2) data → x ∈ data →
  List.filter (in_bucket (bucket x)) data = [x].
Proof.
  induction 1 as [|d data Hs IH Hd]; [by intros ?%elem_of_nil|].
  rewrite Forall_forall in Hd.
  intros [->|Hx]%elem_of_cons; simpl; unfold Chart.in_bucket at 1.
  - rewrite Z.eqb_refl. f_equal. apply filter_all_false, Forall_forall.
    intros y Hy. apply Z.eqb_neq. specialize (Hd y Hy). lia.
  - specialize (Hd x Hx).
    rewrite (proj2 (Z.eqb_neq _ _)) by lia. auto.
Qed.

Lemma candles_singletons groups :
  Forall (λ g, ∃ x, g = [x]) groups → candles groups = concat groups.
Proof.
  induction 1 as [|g groups [x ->] _ IH]; [done|].
  unfold candles in *. simpl. by rewrite IH, candle_single.
Qed.

End Ordered.

Lemma aggregate_ordered data interval :
  sorted_by_time data = true → 1 < interval →
  ∃ out,
    aggregateData data (Some interval) = Some out
    ∧ StronglySorted
        (λ b1 b2, bucket (interval * 60000) b1
                  < bucket (interval * 60000) b2) out.
Proof.
  intros Hsorted Hlt. unfold aggregateData. cbn [int_le_1].
  rewrite (proj2 (Z.leb_gt _ _) Hlt).
  assert (Hm : 0 < interval * 60000) by lia.
  assert (Hs : StronglySorted
                 (λ d1 d2, bucket (interval * 60000) d1
                           ≤ bucket (interval * 60000) d2) data).
  { eapply ChartFacts.strongly_sorted_weaken;
      [|by apply ChartFacts.sorted_by_time_strongly].
    intros a b. by apply ChartFacts.bucket_mono. }
  destruct (ChartFacts.loop_partitions (interval * 60000) interval eq_refl
              (length data) [] data [] Hs)
    as (groups & Hc & Hgs & Hloop); [apply List.Forall_nil|done|].
  change ([] ++ data) with data in *.
  change ([] ++ candles groups) with (candles groups) in Hloop.
  change (length (@nil Bar)) with 0%nat in Hloop.
  exists (candles groups). split; [done|].
  apply candles_increasing, (groups_increasing _ []); rewrite Hc; done.
Qed.

(** X15 — The aggregated bars are ordered, one per candle.  For bars in
    non-decreasing order of time and an interval above 1, the bars that
    [aggregateData] returns are in strictly increasing order of time, and no
    two of them lie in the same candle of the interval. *)
Theorem aggregated_bars_are_ordered data interval :
  sorted_by_time data = true → 1 < interval →
  ∃ out,
    aggregateData data (Some interval) = Some out
    ∧ StronglySorted
        (λ b1 b2, t b1 < t b2
                  ∧ bucket (interval * 60000) b1
                    < bucket (interval * 60000) b2) out.
Proof.
  intros Hsorted Hlt.
  destruct (aggregate_ordered data interval Hsorted Hlt) as (out & Hout & Hs).
  exists out. split; [done|].
  eapply ChartFacts.strongly_sorted_weaken; [|exact Hs].
  intros b1 b2 H. split; [|done].
  by apply (bucket_lt_time interval (interval * 60000) Hlt eq_refl).
Qed.

(** Five minute bars in candles of two minutes. *)
Lemma aggregated_bars_are_ordered_witness :
  let data := map (λ k, mkBar (k * 60000) 1 2 0.5 1.5 10) [1; 2; 3; 4; 5] in
  ∃ out, aggregateData data (Some 2) = Some out
         ∧ StronglySorted
             (λ b1 b2, t b1 < t b2 ∧ bucket 120000 b1 < bucket 120000 b2) out.
Proof.
  apply (aggregated_bars_are_ordered
           (map (λ k, mkBar (k * 60000) 1 2 0.5 1.5 10) [1; 2; 3; 4; 5]) 2);
    [vm_compute; reflexivity | lia].
Defined.

(** X16 — Aggregating twice changes nothing more.  For bars in non-decreasing
    order of time and an interval above 1, aggregating the result of
    [aggregateData] again with the same interval returns it unchanged. *)
Theorem aggregateData_idempotent data interval out :
  sorted_by_time data = true → 1 < interval →
  aggregateData data (Some interval) = Some out →
  aggregateData out (Some interval) = Some out.
Proof.
  intros Hsorted Hlt Hout.
  destruct (aggregate_ordered data interval Hsorted Hlt)
    as (out' & Hout' & Hs).
  rewrite Hout in Hout'. injection Hout' as <-.
  unfold aggregateData. cbn [int_le_1].
  rewrite (proj2 (Z.leb_gt _ _) Hlt).
  destruct (ChartFacts.loop_partitions (interval * 60000) interval eq_refl
              (length out) [] out [])
    as (groups & Hc & Hgs & Hloop); [|apply List.Forall_nil|done|].
  { eapply ChartFacts.strongly_sorted_weaken; [|exact Hs].
    intros a b. simpl. lia. }
  change ([] ++ out) with out in *.
  change ([] ++ candles groups) with (candles groups) in Hloop.
  change (length (@nil Bar)) with 0%nat in Hloop.
  rewrite Hloop. f_equal. rewrite <- Hc at 1.
  apply candles_singletons, Forall_forall. intros g Hgin.
  rewrite Forall_forall in Hgs. destruct (Hgs g Hgin) as (x & Hx & Hg).
  exists x. rewrite Hg at 1. apply filter_own_bucket; [done|].
  rewrite <- Hc. apply list_elem_of_In, in_concat. exists g.
  split; by apply list_elem_of_In.
Qed.

(** Five minute bars aggregated twice in candles of two minutes. *)
Lemma aggregateData_idempotent_witness :
  let data := map (λ k, mkBar (k * 60000) 1 2 0.5 1.5 10) [1; 2; 3; 4; 5] in
  let out := [mkBar 60000 1 2 0.5 1.5 10; mkBar 120000 1 2 0.5 1.5 20;
              mkBar 240000 1 2 0.5 1.5 20] in
  aggregateData out (Some 2) = Some out.
Proof.
  intros data out.
  apply (aggregateData_idempotent data 2 out);
    [vm_compute; reflexivity | lia | vm_compute; reflexivity].
Defined.

End AggregationFacts.

(** ** The history and the timers of the datafeed *)

Module HistoryFacts.

Import Datafeed DatafeedHistory.

Lemma bars_loop_pushes remaining now draw k price bars :
  ∃ news,
    bars_loop remaining now draw k price bars = bars ++ news
    ∧ length news = remaining
    ∧ (∀ j b, news !! j = Some b →
              time b = now - Z.of_nat (remaining - j) * 60000)
    ∧ (∀ b, news !! 0%nat = Some b → open b = price)
    ∧ (∀ j b1 b2, news !! j = Some b1 → news !! S j = Some b2 →
                  open b2 = close b1).
Proof.
  revert k price bars.
  induction remaining as [|r IH]; intros k price bars.
  - exists []. simpl. rewrite app_nil_r. repeat split; done.
  - cbn [bars_loop].
    match goal with
    | |- context [bars_loop r now draw (k + 4)%nat ?cl (bars ++ [?b])] =>
        set (bar := b);
        destruct (IH (k + 4)%nat cl (bars ++ [bar]))
          as (news & Hloop & Hlen & Ht & Ho & Hch)
    end.
    exists (bar :: news). rewrite Hloop, <- app_assoc. split; [done|].
    split; [simpl; by rewrite Hlen|]. split; [|split].
    + intros [|j] b Hb; simpl in Hb.
      * injection Hb as <-. simpl. lia.
      * rewrite (Ht j b Hb). apply lookup_lt_Some in Hb. lia.
    + by intros b [= <-].
    + intros [|j] b1 b2 H1 H2; simpl in H1, H2.
      * injection H1 as <-. by apply Ho.
      * by eapply Hch.
Qed.

(** X18 — The history is always the same 2000 minutes.  Whatever period is
    requested, and whatever the draws, [getBars] calls back with 2000 bars
    and [noData] false (its branch for an empty history is never taken): one
    bar per minute from 2000 minutes before the clock reading to one minute
    before it, the first opening at 150 and every other one at the close of
    the bar before it. *)
Theorem history_is_last_2000_minutes periodParams now draw :
  ∃ bars,
    getBars periodParams now draw = HistoryCallback bars false
    ∧ length bars = 2000%nat
    ∧ (∀ j b, bars !! j = Some b →
              time b = now - (2000 - Z.of_nat j) * 60000)
    ∧ (∀ b, bars !! 0%nat = Some b → open b = 150%float)
    ∧ (∀ j b1 b2, bars !! j = Some b1 → bars !! S j = Some b2 →
                  open b2 = close b1).
Proof.
  unfold getBars.
  destruct (bars_loop_pushes 2000 now draw 0 150 [])
    as (news & -> & Hlen & Ht & Ho & Hch).
  rewrite app_nil_l, Hlen. exists news. repeat split; [done|..|done|done].
  intros j b Hb. rewrite (Ht j b Hb).
  apply lookup_lt_Some in Hb. rewrite Hlen in Hb. lia.
Qed.

Section Timers.

Implicit Types (f : Feed) (acts : list Action).

Lemma feed_run_cons f a acts :
  run f (a :: acts)
  = (fst (run (fst (step f a)) acts),
     snd (step f a) ++ snd (run (fst (step f a)) acts)).
Proof.
  simpl. destruct (step f a) as [f1 out1]. simpl.
  by destruct (run f1 acts) as [f2 out2].
Qed.

(** X19 — Timers only accumulate.  After any sequence of actions the timers
    of the page are the timers there were, followed by one more for every
    call of [subscribeBars], in the order of the calls: unsubscribing removes
    none, and subscribing twice under one identifier leaves two timers that
    both call that subscriber. *)
Theorem timers_accumulate f acts :
  timers (fst (run f acts)) = timers f ++ subscribed acts.
Proof.
  revert f. induction acts as [|a acts IH]; intros f.
  - simpl. by rewrite app_nil_r.
  - rewrite feed_run_cons. cbn [fst]. rewrite IH.
    destruct a as [uid|uid|k now r1 r2 r3 r4 r5]; simpl.
    + by rewrite <- app_assoc.
    + done.
    + by destruct (timers f !! k).
Qed.

(** X20 — No callback without a subscription.  Every realtime callback that
    a sequence of actions produces is for a subscriber that has a timer from
    before or that the sequence subscribes; from a page without timers, only
    subscribers of the sequence are called back. *)
Theorem callbacks_only_for_subscribers f acts uid bar :
  RealtimeCallback uid bar ∈ snd (run f acts) →
  uid ∈ timers f ∨ SubscribeBars uid ∈ acts.
Proof.
  revert f. induction acts as [|a acts IH]; intros f.
  - simpl. by intros ?%elem_of_nil.
  - rewrite feed_run_cons. cbn [snd]. intros [H|H]%elem_of_app.
    + left. destruct a as [u|u|k now r1 r2 r3 r4 r5]; simpl in H.
      * by apply list_elem_of_singleton in H.
      * by apply list_elem_of_singleton in H.
      * destruct (timers f !! k) as [u|] eqn:Hk; simpl in H;
          [|by apply elem_of_nil in H].
        apply list_elem_of_singleton in H. injection H as Hu Hb.
        subst uid. by eapply list_elem_of_lookup_2.
    + destruct (IH _ H) as [Hin|Hin]; [|right; by apply elem_of_cons; right].
      destruct a as [u|u|k now r1 r2 r3 r4 r5]; simpl in Hin.
      * apply elem_of_app in Hin as [?|Hin%list_elem_of_singleton];
          [by left|right; subst u; apply list_elem_of_here].
      * by left.
      * left. by destruct (timers f !! k).
Qed.

(** A subscription and a tick of its timer. *)
Lemma callbacks_only_for_subscribers_witness :
  RealtimeCallback "MSFT_1" (lastBar 2000 0.5 0.5 0.5 0.5 0.5)
  ∈ snd (run no_subscription
           [SubscribeBars "MSFT_1"; TimerFires 0 2000 0.5 0.5 0.5 0.5 0.5])
  ∧ SubscribeBars "MSFT_1"
    ∈ [SubscribeBars "MSFT_1"; TimerFires 0 2000 0.5 0.5 0.5 0.5 0.5].
Proof.
  assert (H : RealtimeCallback "MSFT_1" (lastBar 2000 0.5 0.5 0.5 0.5 0.5)
              ∈ snd (run no_subscription
                       [SubscribeBars "MSFT_1";
                        TimerFires 0 2000 0.5 0.5 0.5 0.5 0.5])).
  { simpl. apply list_elem_of_further, list_elem_of_here. }
  split; [exact H|].
  destruct (callbacks_only_for_subscribers _ _ _ _ H) as [Hin|Hin];
    [|exact Hin].
  simpl in Hin. by apply elem_of_nil in Hin.
Defined.

End Timers.

End HistoryFacts.
